(** * Incremental weighted moments: a shallow embedding of [incstats.h]

    The header keeps, for a stream of weighted samples, a small accumulator
    [buffer] (slot 0: cumulative weight, slot 1: running mean, slots 2..p:
    unnormalised central moments) and derives the reported statistics from it
    in a separate finalize step.

    Modelling choices.
    - A C [double] is an exact real number ([R]).  An operation that has no
      real result (a division by zero, the square root of a negative number:
      [Inf] or [NaN] in IEEE arithmetic) ends the computation with
      [Err NotReal]; rounding and overflow are not modelled.  The model
      stops at the first such operation, also where C would go on with a
      NaN that it does not use ([incstats_pow(NaN, 0)] is 1.0).
    - A [uint64_t] is a [Z] in [0, 2^64); arithmetic on it is wrapped with
      [u64].
    - A [double *] is a list of reals.  Reading or writing outside the list
      ends the computation with [Err OutOfBounds].  Within one C statement the
      array reads are performed before the arithmetic.
    - The two pointer arguments of a finalize function are two disjoint
      arrays of one memory [mem].
    - The pointers [max] and [min] of the extremum trackers point to one
      double each: a tracker is a function of the sample and the value
      held.
    - Every statement about these definitions is a statement in exact
      arithmetic.  Where a property depends on values that are not finite,
      the module [Nonfinite] embeds the functions concerned a second time,
      over doubles with infinities and NaN. *)

From Stdlib Require Import ZArith Reals Lra Lia List.
From stdpp Require Import base option list.

Open Scope R_scope.

(** ** Outcomes of a computation *)

Inductive error : Type :=
| OutOfBounds   (* an array access outside the array *)
| NotReal       (* a division by zero or the square root of a negative *)
| Diverges.     (* a loop that never exits *)

Inductive outcome (A : Type) : Type :=
| Ok (a : A)
| Err (e : error).

Arguments Ok {A} a.
Arguments Err {A} e.

#[global] Instance outcome_ret : MRet outcome := @Ok.

#[global] Instance outcome_bind : MBind outcome :=
  fun A B f m => match m with Ok a => f a | Err e => Err e end.

(** ** Machine integers, arrays, partial arithmetic *)

Definition UINT64_MAX : Z := 18446744073709551615.

Definition u64 (z : Z) : Z := (z mod (UINT64_MAX + 1))%Z.

(** [a[i]] as a value. *)
Definition load (a : list R) (i : Z) : outcome R :=
  if decide (0 ≤ i)%Z then
    match a !! Z.to_nat i with
    | Some v => Ok v
    | None => Err OutOfBounds
    end
  else Err OutOfBounds.

(** [a[i] = v]. *)
Definition store (a : list R) (i : Z) (v : R) : outcome (list R) :=
  if decide (0 ≤ i < Z.of_nat (length a))%Z
  then Ok (<[Z.to_nat i := v]> a)
  else Err OutOfBounds.

(** [a / b] on doubles that are real numbers. *)
Definition fdiv (a b : R) : outcome R :=
  if Req_dec_T b 0 then Err NotReal else Ok (a / b).

(** [sqrt(a)] of [math.h]. *)
Definition fsqrt (a : R) : outcome R :=
  if Rlt_dec a 0 then Err NotReal else Ok (sqrt a).

Notation "a /? b" := (fdiv a b) (at level 40, left associativity).

(** ** Counted loops

    [for_down from to body] is [for (i = from; i > to; i--) body(i)] and
    [for_up from to body] is [for (i = from; i < to; i++) body(i)], for
    loop variables that do not wrap around: the body runs [from - to]
    (resp. [to - from]) times, and not at all when that is not positive. *)

Fixpoint iter_down {St : Type} (n : nat) (i : Z)
    (body : Z → St → outcome St) (s : St) : outcome St :=
  match n with
  | O => Ok s
  | S n' => s' ← body i s; iter_down n' (i - 1)%Z body s'
  end.

Definition for_down {St : Type} (from to : Z)
    (body : Z → St → outcome St) (s : St) : outcome St :=
  iter_down (Z.to_nat (from - to)) from body s.

Fixpoint iter_up {St : Type} (n : nat) (i : Z)
    (body : Z → St → outcome St) (s : St) : outcome St :=
  match n with
  | O => Ok s
  | S n' => s' ← body i s; iter_up n' (i + 1)%Z body s'
  end.

Definition for_up {St : Type} (from to : Z)
    (body : Z → St → outcome St) (s : St) : outcome St :=
  iter_up (Z.to_nat (to - from)) from body s.

(** ** Arithmetic primitives *)

(** [result *= x], [n] times. *)
Fixpoint pow_loop (n : nat) (x result : R) : R :=
  match n with
  | O => result
  | S n' => pow_loop n' x (result * x)
  end.

Definition incstats_pow (x : R) (y : Z) : R :=
  if (y =? 0)%Z then 1
  else pow_loop (Z.to_nat (u64 (y - 1))) x x.

(** One turn of the loop of [n_choose_k], on [(n, result)]; [n--] is part
    of the loop header. *)
Definition n_choose_k_body (j : Z) (st : Z * Z) : Z * Z :=
  let '(n, result) := st in
  let result' :=
    if (n mod j =? 0)%Z then u64 (result * (n / j))
    else if (result mod j =? 0)%Z then u64 (result / j * n)
    else (u64 (result * n) / j)%Z in
  (u64 (n - 1), result').

Fixpoint n_choose_k_loop (fuel : nat) (j : Z) (st : Z * Z) : Z * Z :=
  match fuel with
  | O => st
  | S fuel' => n_choose_k_loop fuel' (j + 1)%Z (n_choose_k_body j st)
  end.

(** The loop [for (j = 1; j <= k; j++, n--)] runs [k] times, except for
    [k = UINT64_MAX], where [j <= k] never fails. *)
Definition n_choose_k (n k : Z) : outcome Z :=
  let k := if (k >? u64 (n - k))%Z then u64 (n - k) else k in
  if (k =? UINT64_MAX)%Z then Err Diverges
  else Ok (snd (n_choose_k_loop (Z.to_nat k) 1 (n, 1%Z))).

(** ** Update functions (orders 1 to 4) *)

Definition incstats_mean (x w : R) (buffer : list R) : outcome (list R) :=
  (* buffer[0] += w; *)
  b0 ← load buffer 0;
  buffer ← store buffer 0 (b0 + w);
  (* buffer[1] = buffer[1] + w / buffer[0] * (x - buffer[1]); *)
  b1 ← load buffer 1;
  b0 ← load buffer 0;
  q ← w /? b0;
  store buffer 1 (b1 + q * (x - b1)).

Definition incstats_variance (x w : R) (buffer : list R)
    : outcome (list R) :=
  (* buffer[0] += w; *)
  b0 ← load buffer 0;
  buffer ← store buffer 0 (b0 + w);
  (* new_mean = buffer[1] + w / buffer[0] * (x - buffer[1]); *)
  b1 ← load buffer 1;
  b0 ← load buffer 0;
  q ← w /? b0;
  let new_mean := b1 + q * (x - b1) in
  (* buffer[2] = buffer[2] + w * (x - buffer[1]) * (x - new_mean); *)
  b2 ← load buffer 2;
  b1 ← load buffer 1;
  buffer ← store buffer 2 (b2 + w * (x - b1) * (x - new_mean));
  (* buffer[1] = new_mean; *)
  store buffer 1 new_mean.

(** The statements that [incstats_skewness] and [incstats_kurtosis] have in
    common, word for word: the order-3 update
    [buffer[3] = buffer[3] + 3 * buffer[2] * d + buffer[0] * d^3 + w * e^3]
    with [d = -w * (x - buffer[1]) / new_sum_w] and
    [e = buffer[0] * (x - buffer[1]) / new_sum_w], the order-2 update
    [buffer[2] = buffer[2] + buffer[0] * d^2 + w * e^2], then the mean and
    the weight. *)
Definition update_order3 (x w new_sum_w : R) (buffer : list R)
    : outcome (list R) :=
  b3 ← load buffer 3;
  b2 ← load buffer 2;
  b1 ← load buffer 1;
  b0 ← load buffer 0;
  d ← (- w * (x - b1)) /? new_sum_w;
  e ← (b0 * (x - b1)) /? new_sum_w;
  store buffer 3
    (b3 + 3 * b2 * d + b0 * incstats_pow d 3 + w * incstats_pow e 3).

Definition update_order2 (x w new_sum_w : R) (buffer : list R)
    : outcome (list R) :=
  b2 ← load buffer 2;
  b1 ← load buffer 1;
  b0 ← load buffer 0;
  d ← (- w * (x - b1)) /? new_sum_w;
  e ← (b0 * (x - b1)) /? new_sum_w;
  store buffer 2 (b2 + b0 * incstats_pow d 2 + w * incstats_pow e 2).

Definition update_mean_weight (x w new_sum_w : R) (buffer : list R)
    : outcome (list R) :=
  (* buffer[1] = buffer[1] + w / new_sum_w * (x - buffer[1]); *)
  b1 ← load buffer 1;
  q ← w /? new_sum_w;
  buffer ← store buffer 1 (b1 + q * (x - b1));
  (* buffer[0] = new_sum_w; *)
  store buffer 0 new_sum_w.

Definition incstats_skewness (x w : R) (buffer : list R)
    : outcome (list R) :=
  (* double new_sum_w = buffer[0] + w; *)
  b0 ← load buffer 0;
  let new_sum_w := b0 + w in
  (* buffer[3] = ...; buffer[2] = ...; buffer[1] = ...; buffer[0] = ...; *)
  buffer ← update_order3 x w new_sum_w buffer;
  buffer ← update_order2 x w new_sum_w buffer;
  update_mean_weight x w new_sum_w buffer.

Definition incstats_kurtosis (x w : R) (buffer : list R)
    : outcome (list R) :=
  b0 ← load buffer 0;
  let new_sum_w := b0 + w in
  (* buffer[4] = buffer[4] + 4.0 * buffer[3] * d + 6.0 * buffer[2] * d^2
                 + buffer[0] * d^4 + w * e^4; *)
  b4 ← load buffer 4;
  b3 ← load buffer 3;
  b2 ← load buffer 2;
  b1 ← load buffer 1;
  b0' ← load buffer 0;
  d ← (- w * (x - b1)) /? new_sum_w;
  e ← (b0' * (x - b1)) /? new_sum_w;
  buffer ← store buffer 4
    (b4 + 4 * b3 * d + 6 * b2 * incstats_pow d 2
     + b0' * incstats_pow d 4 + w * incstats_pow e 4);
  (* buffer[3] = ...; buffer[2] = ...; buffer[1] = ...; buffer[0] = ...; *)
  buffer ← update_order3 x w new_sum_w buffer;
  buffer ← update_order2 x w new_sum_w buffer;
  update_mean_weight x w new_sum_w buffer.

(** ** Generalised central moment of order [p] *)

(** Body of the inner loop, on the running sum [tmp]:
    [tmp += n_choose_k(i, k) * buffer[i - k] * incstats_pow(d, k)], where
    [d] is [-w * (x - buffer[1]) / new_sum_w] and the binomial coefficient,
    a [uint64_t], is converted to a double ([IZR]). *)
Definition cross_term (x w new_sum_w : R) (buffer : list R) (i k : Z)
    (tmp : R) : outcome R :=
  c ← n_choose_k i k;
  bik ← load buffer (u64 (i - k));
  b1 ← load buffer 1;
  d ← (- w * (x - b1)) /? new_sum_w;
  Ok (tmp + IZR c * bik * incstats_pow d k).

(** Body of the outer loop: the update of [buffer[i]]. *)
Definition update_order (x w new_sum_w : R) (i : Z) (buffer : list R)
    : outcome (list R) :=
  (* for (k = i - 2; k > 0; k--) tmp += ...; *)
  tmp ← for_down (u64 (i - 2)) 0 (cross_term x w new_sum_w buffer i) 0;
  (* buffer[i] = buffer[i] + tmp + buffer[0] * d^i + w * e^i; *)
  bi ← load buffer i;
  b0 ← load buffer 0;
  b1 ← load buffer 1;
  d ← (- w * (x - b1)) /? new_sum_w;
  e ← (b0 * (x - b1)) /? new_sum_w;
  store buffer i (bi + tmp + b0 * incstats_pow d i + w * incstats_pow e i).

Definition incstats_central_moment (x w : R) (buffer : list R) (p : Z)
    : outcome (list R) :=
  b0 ← load buffer 0;
  let new_sum_w := b0 + w in
  (* for (i = p; i > 1; i--) *)
  buffer ← for_down p 1 (update_order x w new_sum_w) buffer;
  update_mean_weight x w new_sum_w buffer.

(** ** Finalize functions

    A finalize function receives two pointers, [results] and [buffer]; the
    memory it runs on holds both arrays, which are distinct objects. *)

Record mem : Type := Mem { m_results : list R; m_buffer : list R }.

Inductive ptr : Type := Results | Buffer.

Definition array_of (m : mem) (a : ptr) : list R :=
  match a with Results => m_results m | Buffer => m_buffer m end.

Definition rd (m : mem) (a : ptr) (i : Z) : outcome R :=
  load (array_of m a) i.

Definition wr (m : mem) (a : ptr) (i : Z) (v : R) : outcome mem :=
  l ← store (array_of m a) i v;
  Ok (match a with
      | Results => Mem l (m_buffer m)
      | Buffer => Mem (m_results m) l
      end).

(** [*mean = buffer[1]]: the pointer [mean] is the array [Results]. *)
Definition incstats_mean_finalize (m : mem) : outcome mem :=
  b1 ← rd m Buffer 1;
  wr m Results 0 b1.

Definition incstats_variance_finalize (m : mem) : outcome mem :=
  (* results[0] = buffer[1]; *)
  b1 ← rd m Buffer 1;
  m ← wr m Results 0 b1;
  (* results[1] = buffer[2] / buffer[0]; *)
  b2 ← rd m Buffer 2;
  b0 ← rd m Buffer 0;
  v ← b2 /? b0;
  wr m Results 1 v.

(** [results[2] = (buffer[3] / buffer[0]) /
                  ((buffer[2] / buffer[0]) * sqrt(buffer[2] / buffer[0]))],
    shared by the skewness and the kurtosis finalize. *)
Definition finalize_skewness_slot (m : mem) : outcome mem :=
  b3 ← rd m Buffer 3;
  b0 ← rd m Buffer 0;
  b2 ← rd m Buffer 2;
  m3 ← b3 /? b0;
  v ← b2 /? b0;
  v' ← b2 /? b0;
  s ← fsqrt v';
  q ← m3 /? (v * s);
  wr m Results 2 q.

Definition incstats_skewness_finalize (m : mem) : outcome mem :=
  (* results[0] = buffer[1]; results[1] = buffer[2] / buffer[0];
     the two statements of incstats_variance_finalize *)
  m ← incstats_variance_finalize m;
  (* results[2] = ...; *)
  finalize_skewness_slot m.

Definition incstats_kurtosis_finalize (m : mem) : outcome mem :=
  (* results[0] = buffer[1]; results[1] = buffer[2] / buffer[0]; *)
  m ← incstats_variance_finalize m;
  (* results[2] = ...; *)
  m ← finalize_skewness_slot m;
  (* results[3] = (buffer[4] / buffer[0]) /
                  incstats_pow(buffer[2] / buffer[0], 2); *)
  b4 ← rd m Buffer 4;
  b0 ← rd m Buffer 0;
  b2 ← rd m Buffer 2;
  m4 ← b4 /? b0;
  v ← b2 /? b0;
  q ← m4 /? incstats_pow v 2;
  wr m Results 3 q.

(** Body of the first loop: [results[i] = buffer[i] / buffer[0]]. *)
Definition raw_moment (i : Z) (m : mem) : outcome mem :=
  bi ← rd m Buffer i;
  b0 ← rd m Buffer 0;
  q ← bi /? b0;
  wr m Results i q.

(** Body of the second loop:
    [results[i] = results[i] / incstats_pow(sqrt(variance), i)]. *)
Definition standardize_moment (variance : R) (i : Z) (m : mem)
    : outcome mem :=
  ri ← rd m Results i;
  s ← fsqrt variance;
  q ← ri /? incstats_pow s i;
  wr m Results i q.

Definition incstats_central_moment_finalize (p : Z) (standardize : bool)
    (m : mem) : outcome mem :=
  (* results[0] = 1.0; results[1] = 0.0; *)
  m ← wr m Results 0 1;
  m ← wr m Results 1 0;
  (* for (i = 2; i < p + 1; i++) *)
  m ← for_up 2 (u64 (p + 1)) raw_moment m;
  m ← (if standardize then
         (* double variance = results[2]; *)
         variance ← rd m Results 2;
         (* for (i = 0; i < p + 1; i++) *)
         for_up 0 (u64 (p + 1)) (standardize_moment variance) m
       else Ok m);
  (* results[p + 1] = buffer[1]; *)
  b1 ← rd m Buffer 1;
  wr m Results (u64 (p + 1)) b1.

(** ** Streams of samples *)

(** A sample is a pair [(x, w)]; [run update stream buffer] calls [update]
    on each sample in turn. *)
Fixpoint run (update : R → R → list R → outcome (list R))
    (stream : list (R * R)) (buffer : list R) : outcome (list R) :=
  match stream with
  | [] => Ok buffer
  | (x, w) :: stream' =>
      buffer' ← update x w buffer; run update stream' buffer'
  end.

(** The accumulator before the first update: [n] zeros. *)
Definition zeros (n : nat) : list R := replicate n 0.

(** Sums over a stream: of the weights, of [w * x], of [w * (x - c)^2]. *)
Definition sum_w (stream : list (R * R)) : R :=
  foldr (fun s acc => snd s + acc) 0 stream.

Definition sum_wx (stream : list (R * R)) : R :=
  foldr (fun s acc => snd s * fst s + acc) 0 stream.

Definition sum_w_dev2 (c : R) (stream : list (R * R)) : R :=
  foldr (fun s acc => snd s * ((fst s - c) * (fst s - c)) + acc) 0 stream.

Definition weighted_mean (stream : list (R * R)) : R :=
  sum_wx stream / sum_w stream.

(** ** The snapshot formulation of the generalised update

    This second definition follows the words of the specification, not the
    code: every new value is computed from the accumulator as it is before
    the call, the values are staged in an ordered sequence, and the sequence
    is committed at the end. *)

(** The new value of order [i], from the snapshot [snap]. *)
Definition order_value (x w new_sum_w : R) (snap : list R) (i : Z)
    : outcome R :=
  tmp ← for_down (u64 (i - 2)) 0 (cross_term x w new_sum_w snap i) 0;
  bi ← load snap i;
  b0 ← load snap 0;
  b1 ← load snap 1;
  d ← (- w * (x - b1)) /? new_sum_w;
  e ← (b0 * (x - b1)) /? new_sum_w;
  Ok (bi + tmp + b0 * incstats_pow d i + w * incstats_pow e i).

(** The new values of the orders [i], [i - 1], ... ([n] of them), each
    paired with its slot. *)
Fixpoint staged_values (x w new_sum_w : R) (snap : list R) (n : nat) (i : Z)
    : outcome (list (Z * R)) :=
  match n with
  | O => Ok []
  | S n' =>
      v ← order_value x w new_sum_w snap i;
      rest ← staged_values x w new_sum_w snap n' (i - 1)%Z;
      Ok ((i, v) :: rest)
  end.

(** Writes the staged values into the accumulator. *)
Fixpoint commit (staged : list (Z * R)) (buffer : list R)
    : outcome (list R) :=
  match staged with
  | [] => Ok buffer
  | (i, v) :: staged' => buffer' ← store buffer i v; commit staged' buffer'
  end.

Definition central_moment_snapshot (x w : R) (buffer : list R) (p : Z)
    : outcome (list R) :=
  b0 ← load buffer 0;
  let new_sum_w := b0 + w in
  (* all new values, from the accumulator as it is before the call *)
  moments ← staged_values x w new_sum_w buffer (Z.to_nat (p - 1)) p;
  b1 ← load buffer 1;
  q ← w /? new_sum_w;
  let mean := b1 + q * (x - b1) in
  (* commit: the moments, then the mean, then the weight *)
  buffer ← commit moments buffer;
  buffer ← store buffer 1 mean;
  store buffer 0 new_sum_w.

(** ** Factorial and extremum trackers *)

(** [result *= i] for [i], [i + 1], ...: [fuel] turns of the loop of
    [factorial]. *)
Fixpoint factorial_loop (fuel : nat) (i result : Z) : Z :=
  match fuel with
  | O => result
  | S fuel' => factorial_loop fuel' (i + 1)%Z (u64 (result * i))
  end.

(** The loop [for (i = 2; i <= n; i++)] runs [n - 1] times for [n >= 2] and
    not at all below, except for [n = UINT64_MAX], where [i <= n] never
    fails. *)
Definition factorial (n : Z) : outcome Z :=
  if (n =? UINT64_MAX)%Z then Err Diverges
  else Ok (factorial_loop (Z.to_nat (n - 1)) 2 1).

(** The value that [max] points to after the call: [x] if the value held
    is less than [x], the value held otherwise. *)
Definition incstats_max (x held : R) : R :=
  if Rlt_dec held x then x else held.

(** The value that [min] points to after the call: [x] if the value held
    is greater than [x], the value held otherwise. *)
Definition incstats_min (x held : R) : R :=
  if Rgt_dec held x then x else held.

(** The tracker called on each value of a sequence in turn, from the seed
    the caller stored. *)
Definition track (tracker : R → R → R) (seed : R) (xs : list R) : R :=
  foldl (fun held x => tracker x held) seed xs.

(** [n!] as an integer. *)
Fixpoint zfact (n : nat) : Z :=
  match n with
  | O => 1%Z
  | S n' => (Z.of_nat n * zfact n')%Z
  end.

(** The weighted sum of the [i]-th powers of the deviations from [c]:
    [sum w (x - c)^i]. *)
Definition moment_sum (i : nat) (c : R) (stream : list (R * R)) : R :=
  foldr (fun s acc => snd s * (fst s - c) ^ i + acc) 0 stream.

(** ** Specification vocabulary *)

(** [post E Q o]: the computation [o] either returns a value satisfying [Q]
    or stops with an error allowed by [E]. *)
Definition post {A : Type} (E : error → Prop) (Q : A → Prop)
    (o : outcome A) : Prop :=
  match o with
  | Ok a => Q a
  | Err e => E e
  end.

Definition no_error : error → Prop := fun _ => False.

Definition only_not_real : error → Prop := fun e => e = NotReal.

Definition any_error : error → Prop := fun _ => True.

(** The two increments of the recurrence for a sample [(x, w)] met in state
    (cumulative weight [b0], mean [b1]):
    [d = -w (x - mean) / new_sum_w] and [e = b0 (x - mean) / new_sum_w]. *)
Definition incr_d (x w b0 b1 : R) : R := - w * (x - b1) / (b0 + w).

Definition incr_e (x w b0 b1 : R) : R := b0 * (x - b1) / (b0 + w).

(** The updated mean. *)
Definition next_mean (x w b0 b1 : R) : R := b1 + w / (b0 + w) * (x - b1).

(** The order-4 statement of [incstats_kurtosis] as a function of the
    values it reads. *)
Definition order4_value (x w b0 b1 b2 b3 b4 : R) : R :=
  b4 + 4 * b3 * incr_d x w b0 b1
  + 6 * b2 * incstats_pow (incr_d x w b0 b1) 2
  + b0 * incstats_pow (incr_d x w b0 b1) 4
  + w * incstats_pow (incr_e x w b0 b1) 4.

(** The reading "order 4 is computed from the already-updated order-3
    slot": after the call, slot 4 is [order4_value] at the new slot 3. *)
Definition order4_reads_updated_order3 (x w : R) (buffer : list R) : Prop :=
  ∀ b0 b1 b2 b3 b4 buffer',
    buffer = [b0; b1; b2; b3; b4] →
    incstats_kurtosis x w buffer = Ok buffer' →
    ∃ b3', buffer' !! 3%nat = Some b3' ∧
           buffer' !! 4%nat = Some (order4_value x w b0 b1 b2 b3' b4).

(** Two accumulators that agree on the slots [0..i]. *)
Definition agree_upto (i : Z) (a a' : list R) : Prop :=
  ∀ j : nat, (Z.of_nat j ≤ i)%Z → a !! j = a' !! j.

(** Shape of the memory during a finalize call: the accumulator is the one
    of the start and the results array keeps its length. *)
Definition same_shape (m m' : mem) : Prop :=
  m_buffer m' = m_buffer m ∧
  length (m_results m') = length (m_results m).

(** A raw central moment [r] of order [i], standardised on request: divided
    by the [i]-th power of the standard deviation. *)
Definition standardized (standardize : bool) (variance : R) (i : Z) (r : R)
    : R :=
  if standardize then r / sqrt variance ^ Z.to_nat i else r.

(** [update], run on [stream] from [k] zeros, leaves the sum of the weights
    in slot 0 and the weighted mean in slot 1. *)
Definition keeps_weight_and_mean
    (update : R → R → list R → outcome (list R)) (k : nat)
    (stream : list (R * R)) : Prop :=
  ∃ buffer',
    run update stream (zeros k) = Ok buffer' ∧
    buffer' !! 0%nat = Some (sum_w stream) ∧
    (stream ≠ [] → buffer' !! 1%nat = Some (weighted_mean stream)).

(** [n_choose_k n k] returns a number [c] with [c * k! * (n - k)! = n!]. *)
Definition binomial_exact (n k : nat) : bool :=
  match n_choose_k (Z.of_nat n) (Z.of_nat k) with
  | Ok c => (c * zfact k * zfact (n - k) =? zfact n)%Z
  | Err _ => false
  end.

(** [buffer] is the accumulator of order [p] of the samples [s]: slot 0
    holds the sum of the weights, slot 1 their weighted mean [m], and slot
    [i], for [2 <= i <= p], the sum [sum w (x - m)^i]. *)
Definition holds_moments (p : nat) (s : list (R * R)) (buffer : list R)
    : Prop :=
  (2 ≤ length buffer)%nat ∧ (p < length buffer)%nat ∧
  buffer !! 0%nat = Some (sum_w s) ∧
  ∃ m, buffer !! 1%nat = Some m ∧ m * sum_w s = sum_wx s ∧
       ∀ i : nat, (2 ≤ i ≤ p)%nat → buffer !! i = Some (moment_sum i m s).

(** The outcome [o] of an update is an accumulator of weight [W'] and mean
    [m']. *)
Definition leaves_weight_and_mean (o : outcome (list R)) (W' m' : R)
    : Prop :=
  ∃ buffer', o = Ok buffer' ∧
             buffer' !! 0%nat = Some W' ∧ buffer' !! 1%nat = Some m'.

(** The outcome [o] of an update on an accumulator of [n] slots and weight
    [b0], for a sample of weight [w]: a division by zero when the new
    cumulative weight [b0 + w] is zero, an accumulator of [n] slots
    otherwise. *)
Definition fails_on_zero_weight_only (o : outcome (list R)) (b0 w : R)
    (n : nat) : Prop :=
  if Req_dec_T (b0 + w) 0 then o = Err NotReal
  else ∃ buffer', o = Ok buffer' ∧ length buffer' = n.

(** ** Doubles that are not finite

    The embedding above takes every double for a real number.  This second
    embedding of [incstats_pow], [incstats_mean] and [incstats_kurtosis]
    keeps the infinities and the NaN of IEEE 754 arithmetic.  A finite
    double is still an exact real number (no rounding, and zero has no
    sign); a result whose magnitude reaches the overflow threshold
    [2^1024 - 2^970], halfway between the largest double and [2^1024], is
    an infinity.  No operation fails: a division by zero gives an infinity
    or NaN, as in C. *)
Module Nonfinite.

Inductive double : Type :=
| Finite (r : R)
| Infinity (negative : bool)
| NaN.

Definition overflow_threshold : R := 2 ^ 1024 - 2 ^ 970.

Definition is_negative (r : R) : bool :=
  if Rlt_dec r 0 then true else false.

(** The double for the exact result [r] of an operation on finite
    doubles. *)
Definition finite (r : R) : double :=
  if Rle_dec overflow_threshold r then Infinity false
  else if Rle_dec r (- overflow_threshold) then Infinity true
  else Finite r.

(** [- a] *)
Definition neg (a : double) : double :=
  match a with
  | Finite x => Finite (- x)
  | Infinity s => Infinity (negb s)
  | NaN => NaN
  end.

(** [a + b]: infinities of opposite signs have no sum. *)
Definition add (a b : double) : double :=
  match a, b with
  | NaN, _ | _, NaN => NaN
  | Finite x, Finite y => finite (x + y)
  | Infinity s, Finite _ | Finite _, Infinity s => Infinity s
  | Infinity s, Infinity t => if Bool.eqb s t then Infinity s else NaN
  end.

(** [a - b] *)
Definition sub (a b : double) : double := add a (neg b).

(** [a * b]: zero times an infinity has no value. *)
Definition mul (a b : double) : double :=
  match a, b with
  | NaN, _ | _, NaN => NaN
  | Finite x, Finite y => finite (x * y)
  | Infinity s, Finite y | Finite y, Infinity s =>
      if Req_dec_T y 0 then NaN else Infinity (xorb s (is_negative y))
  | Infinity s, Infinity t => Infinity (xorb s t)
  end.

(** [a / b]: zero by zero and infinity by infinity have no value. *)
Definition div (a b : double) : double :=
  match a, b with
  | NaN, _ | _, NaN => NaN
  | Finite x, Finite y =>
      if Req_dec_T y 0
      then (if Req_dec_T x 0 then NaN else Infinity (is_negative x))
      else finite (x / y)
  | Finite _, Infinity _ => Finite 0
  | Infinity s, Finite y => Infinity (xorb s (is_negative y))
  | Infinity _, Infinity _ => NaN
  end.

Definition load (a : list double) (i : Z) : outcome double :=
  if decide (0 ≤ i)%Z then
    match a !! Z.to_nat i with
    | Some v => Ok v
    | None => Err OutOfBounds
    end
  else Err OutOfBounds.

Definition store (a : list double) (i : Z) (v : double)
    : outcome (list double) :=
  if decide (0 ≤ i < Z.of_nat (length a))%Z
  then Ok (<[Z.to_nat i := v]> a)
  else Err OutOfBounds.

(** [result *= x], [n] times. *)
Fixpoint pow_loop (n : nat) (x result : double) : double :=
  match n with
  | O => result
  | S n' => pow_loop n' x (mul result x)
  end.

Definition incstats_pow (x : double) (y : Z) : double :=
  if (y =? 0)%Z then Finite 1
  else pow_loop (Z.to_nat (u64 (y - 1))) x x.

Definition incstats_mean (x w : double) (buffer : list double)
    : outcome (list double) :=
  (* buffer[0] += w; *)
  b0 ← load buffer 0;
  buffer ← store buffer 0 (add b0 w);
  (* buffer[1] = buffer[1] + w / buffer[0] * (x - buffer[1]); *)
  b1 ← load buffer 1;
  b0 ← load buffer 0;
  store buffer 1 (add b1 (mul (div w b0) (sub x b1))).

Definition incstats_kurtosis (x w : double) (buffer : list double)
    : outcome (list double) :=
  (* double new_sum_w = buffer[0] + w; *)
  b0 ← load buffer 0;
  let new_sum_w := add b0 w in
  (* buffer[4] = buffer[4] + 4.0 * buffer[3] * d + 6.0 * buffer[2] * d^2
                 + buffer[0] * d^4 + w * e^4;
     with d = -w * (x - buffer[1]) / new_sum_w
     and  e = buffer[0] * (x - buffer[1]) / new_sum_w *)
  b4 ← load buffer 4;
  b3 ← load buffer 3;
  b2 ← load buffer 2;
  b1 ← load buffer 1;
  b0 ← load buffer 0;
  let d := div (mul (neg w) (sub x b1)) new_sum_w in
  let e := div (mul b0 (sub x b1)) new_sum_w in
  buffer ← store buffer 4
    (add (add (add (add b4 (mul (mul (Finite 4) b3) d))
                 (mul (mul (Finite 6) b2) (incstats_pow d 2)))
            (mul b0 (incstats_pow d 4)))
       (mul w (incstats_pow e 4)));
  (* buffer[3] = buffer[3] + 3 * buffer[2] * d + buffer[0] * d^3
                 + w * e^3; *)
  b3 ← load buffer 3;
  b2 ← load buffer 2;
  b1 ← load buffer 1;
  b0 ← load buffer 0;
  let d := div (mul (neg w) (sub x b1)) new_sum_w in
  let e := div (mul b0 (sub x b1)) new_sum_w in
  buffer ← store buffer 3
    (add (add (add b3 (mul (mul (Finite 3) b2) d))
            (mul b0 (incstats_pow d 3)))
       (mul w (incstats_pow e 3)));
  (* buffer[2] = buffer[2] + buffer[0] * d^2 + w * e^2; *)
  b2 ← load buffer 2;
  b1 ← load buffer 1;
  b0 ← load buffer 0;
  let d := div (mul (neg w) (sub x b1)) new_sum_w in
  let e := div (mul b0 (sub x b1)) new_sum_w in
  buffer ← store buffer 2
    (add (add b2 (mul b0 (incstats_pow d 2))) (mul w (incstats_pow e 2)));
  (* buffer[1] = buffer[1] + w / new_sum_w * (x - buffer[1]); *)
  b1 ← load buffer 1;
  buffer ← store buffer 1 (add b1 (mul (div w new_sum_w) (sub x b1)));
  (* buffer[0] = new_sum_w; *)
  store buffer 0 new_sum_w.

End Nonfinite.

(** * Properties *)

(** ** The monad and the primitives *)

Lemma bind_Ok {A B : Type} (a : A) (f : A → outcome B) : Ok a ≫= f = f a.
Proof. reflexivity. Qed.

Lemma bind_Err {A B : Type} (e : error) (f : A → outcome B) :
  Err e ≫= f = Err e.
Proof. reflexivity. Qed.

Lemma bind_assoc {A B C : Type} (m : outcome A) (f : A → outcome B)
    (g : B → outcome C) :
  (m ≫= f) ≫= g = m ≫= (fun a => f a ≫= g).
Proof. by destruct m. Qed.

Lemma bind_Ok_inv {A B : Type} (m : outcome A) (f : A → outcome B) (b : B) :
  m ≫= f = Ok b → ∃ a, m = Ok a ∧ f a = Ok b.
Proof. destruct m as [a|e]; [eauto | discriminate]. Qed.

Lemma load_lookup (a : list R) (i : Z) (v : R) :
  (0 ≤ i)%Z → a !! Z.to_nat i = Some v → load a i = Ok v.
Proof.
  intros Hi Hv. unfold load. rewrite decide_True by done. by rewrite Hv.
Qed.

Lemma load_Ok_inv (a : list R) (i : Z) (v : R) :
  load a i = Ok v →
  (0 ≤ i < Z.of_nat (length a))%Z ∧ a !! Z.to_nat i = Some v.
Proof.
  unfold load. destruct (decide (0 ≤ i)%Z) as [Hi|]; [|discriminate].
  destruct (a !! Z.to_nat i) as [v'|] eqn:E; [|discriminate].
  intros [= ->]. apply lookup_lt_Some in E as Hlt. split; [lia | done].
Qed.

Lemma load_in_bounds (a : list R) (i : Z) :
  (0 ≤ i < Z.of_nat (length a))%Z →
  ∃ v, load a i = Ok v ∧ a !! Z.to_nat i = Some v.
Proof.
  intros Hi. destruct (lookup_lt_is_Some_2 a (Z.to_nat i)) as [v Hv]; [lia|].
  exists v. split; [apply load_lookup; [lia | done] | done].
Qed.

Lemma store_Ok (a : list R) (i : Z) (v : R) :
  (0 ≤ i < Z.of_nat (length a))%Z →
  store a i v = Ok (<[Z.to_nat i := v]> a).
Proof. intros Hi. unfold store. by rewrite decide_True. Qed.

Lemma store_Ok_inv (a a' : list R) (i : Z) (v : R) :
  store a i v = Ok a' →
  (0 ≤ i < Z.of_nat (length a))%Z ∧ a' = <[Z.to_nat i := v]> a.
Proof.
  unfold store. destruct (decide _) as [Hi|]; [|discriminate].
  by intros [= <-].
Qed.

Lemma fdiv_Ok (a b : R) : b ≠ 0 → a /? b = Ok (a / b).
Proof. intros Hb. unfold fdiv. by destruct (Req_dec_T b 0). Qed.

Lemma fdiv_zero (a : R) : a /? 0 = Err NotReal.
Proof. unfold fdiv. by destruct (Req_dec_T 0 0). Qed.

Lemma fdiv_cases (a b : R) :
  (b = 0 ∧ a /? b = Err NotReal) ∨ (b ≠ 0 ∧ a /? b = Ok (a / b)).
Proof.
  destruct (Req_dec_T b 0) as [->|Hb];
    [ left; split; [done | apply fdiv_zero]
    | right; split; [done | by apply fdiv_Ok] ].
Qed.

Lemma fsqrt_Ok (a : R) : 0 <= a → fsqrt a = Ok (sqrt a).
Proof. intros Ha. unfold fsqrt. destruct (Rlt_dec a 0); [lra | done]. Qed.

Lemma fsqrt_neg (a : R) : a < 0 → fsqrt a = Err NotReal.
Proof. intros Ha. unfold fsqrt. destruct (Rlt_dec a 0); [done | lra]. Qed.

(** Runs a computation on an explicit array: reads and the monad compute,
    in-range writes and divisions by a divisor known to be non-zero are
    rewritten. *)
Ltac exec :=
  simpl;
  repeat first
    [ progress (rewrite store_Ok by (simpl; lia)); simpl
    | progress (rewrite fdiv_Ok by (assumption || lra)); simpl ].

(** ** [incstats_pow] is the power function *)

Lemma pow_loop_pow (n : nat) (x result : R) :
  pow_loop n x result = result * x ^ n.
Proof.
  revert result. induction n as [|n IH]; intros result; simpl.
  - lra.
  - rewrite IH. ring.
Qed.

Lemma u64_small (z : Z) : (0 ≤ z ≤ UINT64_MAX)%Z → u64 z = z.
Proof. intros Hz. unfold u64, UINT64_MAX in *. apply Z.mod_small. lia. Qed.

Lemma incstats_pow_pow (x : R) (y : Z) :
  (0 ≤ y ≤ UINT64_MAX)%Z → incstats_pow x y = x ^ Z.to_nat y.
Proof.
  intros Hy. unfold incstats_pow.
  destruct (y =? 0)%Z eqn:E.
  - apply Z.eqb_eq in E as ->. reflexivity.
  - apply Z.eqb_neq in E. rewrite u64_small by lia.
    rewrite pow_loop_pow.
    replace (Z.to_nat y) with (S (Z.to_nat (y - 1))) by lia.
    simpl. ring.
Qed.

Lemma incstats_pow_zero_base (y : Z) :
  (1 ≤ y ≤ UINT64_MAX)%Z → incstats_pow 0 y = 0.
Proof.
  intros Hy. rewrite incstats_pow_pow by lia.
  apply pow_i. lia.
Qed.

Lemma post_bind {A B : Type} (E : error → Prop) (Q : B → Prop)
    (m : outcome A) (f : A → outcome B) :
  post E (fun a => post E Q (f a)) m → post E Q (m ≫= f).
Proof. by destruct m. Qed.

Lemma post_mono {A : Type} (E : error → Prop) (Q Q' : A → Prop)
    (o : outcome A) :
  (∀ a, Q a → Q' a) → post E Q o → post E Q' o.
Proof. intros HQ. destruct o; simpl; auto. Qed.

Lemma post_no_error {A : Type} (Q : A → Prop) (o : outcome A) :
  post no_error Q o → ∃ a, o = Ok a ∧ Q a.
Proof. destruct o as [a|e]; simpl; [eauto | intros []]. Qed.

Lemma post_not_out_of_bounds {A : Type} (Q : A → Prop) (o : outcome A) :
  post only_not_real Q o → o ≠ Err OutOfBounds.
Proof. destruct o as [a|e]; simpl; [done | intros -> [=]]. Qed.

Lemma post_load (E : error → Prop) (a : list R) (i : Z) :
  (0 ≤ i < Z.of_nat (length a))%Z →
  post E (fun v => a !! Z.to_nat i = Some v) (load a i).
Proof.
  intros Hi. destruct (load_in_bounds a i Hi) as (v & -> & Hv). done.
Qed.

Lemma post_fdiv (E : error → Prop) (a b : R) :
  (b = 0 → E NotReal) → post E (fun q => b ≠ 0 ∧ q = a / b) (a /? b).
Proof.
  intros HE. destruct (fdiv_cases a b) as [[Hb ->]|[Hb ->]]; simpl; auto.
Qed.

(** Invariant rules for the counted loops. *)
Lemma post_iter_down {St : Type} (E : error → Prop) (P : Z → St → Prop)
    (body : Z → St → outcome St) (n : nat) (i : Z) (s : St) :
  P i s →
  (∀ j s, (i - Z.of_nat n < j ≤ i)%Z → P j s →
          post E (P (j - 1)%Z) (body j s)) →
  post E (P (i - Z.of_nat n)%Z) (iter_down n i body s).
Proof.
  revert i s. induction n as [|n IH]; intros i s HP Hbody.
  - simpl. by replace (i - Z.of_nat 0)%Z with i by lia.
  - cbn [iter_down]. apply post_bind.
    eapply post_mono; [|apply (Hbody i s); [lia | done]].
    intros s' HP'. simpl.
    replace (i - Z.of_nat (S n))%Z with (i - 1 - Z.of_nat n)%Z by lia.
    apply IH; [done|]. intros j s'' Hj. apply Hbody. lia.
Qed.

Lemma post_iter_up {St : Type} (E : error → Prop) (P : Z → St → Prop)
    (body : Z → St → outcome St) (n : nat) (i : Z) (s : St) :
  P i s →
  (∀ j s, (i ≤ j < i + Z.of_nat n)%Z → P j s →
          post E (P (j + 1)%Z) (body j s)) →
  post E (P (i + Z.of_nat n)%Z) (iter_up n i body s).
Proof.
  revert i s. induction n as [|n IH]; intros i s HP Hbody.
  - simpl. by replace (i + Z.of_nat 0)%Z with i by lia.
  - cbn [iter_up]. apply post_bind.
    eapply post_mono; [|apply (Hbody i s); [lia | done]].
    intros s' HP'. simpl.
    replace (i + Z.of_nat (S n))%Z with (i + 1 + Z.of_nat n)%Z by lia.
    apply IH; [done|]. intros j s'' Hj. apply Hbody. lia.
Qed.

(** ** The generalised update: termination, bounds and frame *)

Lemma u64_nonneg (z : Z) : (0 ≤ u64 z ≤ UINT64_MAX)%Z.
Proof.
  unfold u64, UINT64_MAX.
  pose proof (Z.mod_pos_bound z (18446744073709551615 + 1)). lia.
Qed.

(** The binomial coefficient is computed in finitely many steps for every
    [k] below [UINT64_MAX]. *)
Lemma n_choose_k_terminates (n k : Z) :
  (0 ≤ k < UINT64_MAX)%Z → ∃ c, n_choose_k n k = Ok c.
Proof.
  intros Hk. unfold n_choose_k.
  pose proof (u64_nonneg (n - k)) as Hu.
  destruct (k >? u64 (n - k))%Z eqn:E.
  - apply Z.gtb_gt in E.
    rewrite (proj2 (Z.eqb_neq _ _)) by lia. eauto.
  - rewrite (proj2 (Z.eqb_neq _ _)) by lia. eauto.
Qed.

Section GeneralisedUpdate.

Variable E : error → Prop.
Variables x w new_sum_w : R.
Hypothesis HE : new_sum_w = 0 → E NotReal.

(** One cross term reads [buffer[i - k]] and [buffer[1]] only. *)
Lemma cross_term_post (buffer : list R) (i k : Z) (tmp : R) :
  (1 ≤ k ≤ i - 2)%Z → (i ≤ UINT64_MAX)%Z →
  (i < Z.of_nat (length buffer))%Z →
  post E
    (fun tmp' => ∃ c bik b1,
       n_choose_k i k = Ok c ∧ buffer !! Z.to_nat (i - k) = Some bik ∧
       buffer !! 1%nat = Some b1 ∧ new_sum_w ≠ 0 ∧
       tmp' = tmp + IZR c * bik *
                    incstats_pow (- w * (x - b1) / new_sum_w) k)
    (cross_term x w new_sum_w buffer i k tmp).
Proof.
  intros Hk Hi Hlen. unfold cross_term.
  destruct (n_choose_k_terminates i k) as [c Hc]; [lia|]. rewrite Hc, bind_Ok.
  rewrite u64_small by lia.
  apply post_bind. eapply post_mono; [|apply post_load; lia].
  intros bik Hbik. simpl.
  apply post_bind. eapply post_mono; [|apply post_load; lia].
  intros b1 Hb1. simpl.
  apply post_bind. eapply post_mono; [|apply post_fdiv, HE].
  intros d [Hn ->]. simpl. exists c, bik, b1. done.
Qed.

(** The update of order [i] overwrites [buffer[i]] and nothing else. *)
Lemma update_order_post (buffer : list R) (i : Z) :
  (2 ≤ i ≤ UINT64_MAX)%Z → (i < Z.of_nat (length buffer))%Z →
  post E (fun buffer' => ∃ v, buffer' = <[Z.to_nat i := v]> buffer)
    (update_order x w new_sum_w i buffer).
Proof.
  intros Hi Hlen. unfold update_order, for_down.
  rewrite u64_small by lia.
  apply post_bind.
  eapply post_mono;
    [|apply (post_iter_down E (fun _ _ => True)); [done|]].
  - intros tmp _. simpl.
    apply post_bind. eapply post_mono; [|apply post_load; lia].
    intros bi Hbi. simpl.
    apply post_bind. eapply post_mono; [|apply post_load; lia].
    intros b0 Hb0. simpl.
    apply post_bind. eapply post_mono; [|apply post_load; lia].
    intros b1 Hb1. simpl.
    apply post_bind. eapply post_mono; [|apply post_fdiv, HE].
    intros d [Hn ->]. simpl.
    rewrite fdiv_Ok by done. simpl.
    rewrite store_Ok by lia. simpl. eauto.
  - intros k tmp Hk _.
    eapply post_mono; [|apply cross_term_post; lia]. done.
Qed.

(** The loop over the orders keeps the length of the accumulator and its
    slots 0 and 1. *)
Lemma update_orders_frame (buffer : list R) (p : Z) :
  (0 ≤ p ≤ UINT64_MAX)%Z → (p < Z.of_nat (length buffer))%Z →
  post E
    (fun buffer' => length buffer' = length buffer ∧
                    buffer' !! 0%nat = buffer !! 0%nat ∧
                    buffer' !! 1%nat = buffer !! 1%nat)
    (for_down p 1 (update_order x w new_sum_w) buffer).
Proof.
  intros Hp Hlen. unfold for_down.
  eapply post_mono;
    [|apply (post_iter_down E
               (fun _ b => length b = length buffer ∧
                           b !! 0%nat = buffer !! 0%nat ∧
                           b !! 1%nat = buffer !! 1%nat)); [done|]].
  - by intros b Hb.
  - intros i b Hi (Hl & H0 & H1).
    eapply post_mono; [|apply update_order_post; lia].
    intros b' [v ->]. rewrite length_insert.
    rewrite !list_lookup_insert_ne by lia. done.
Qed.

End GeneralisedUpdate.

(** ** One call of each update function, on an explicit accumulator *)

Lemma incstats_mean_step (x w b0 b1 : R) (l : list R) :
  b0 + w ≠ 0 →
  incstats_mean x w (b0 :: b1 :: l)
  = Ok ((b0 + w) :: next_mean x w b0 b1 :: l).
Proof. intros H. unfold incstats_mean. by exec. Qed.

Lemma incstats_variance_step (x w b0 b1 b2 : R) (l : list R) :
  b0 + w ≠ 0 →
  incstats_variance x w (b0 :: b1 :: b2 :: l)
  = Ok ((b0 + w) :: next_mean x w b0 b1
        :: (b2 + w * (x - b1) * (x - next_mean x w b0 b1)) :: l).
Proof. intros H. unfold incstats_variance. by exec. Qed.

Lemma incstats_skewness_step (x w b0 b1 b2 b3 : R) (l : list R) :
  b0 + w ≠ 0 →
  incstats_skewness x w (b0 :: b1 :: b2 :: b3 :: l)
  = Ok ((b0 + w) :: next_mean x w b0 b1
        :: (b2 + b0 * incstats_pow (incr_d x w b0 b1) 2
               + w * incstats_pow (incr_e x w b0 b1) 2)
        :: (b3 + 3 * b2 * incr_d x w b0 b1
               + b0 * incstats_pow (incr_d x w b0 b1) 3
               + w * incstats_pow (incr_e x w b0 b1) 3) :: l).
Proof.
  intros H.
  unfold incstats_skewness, update_order3, update_order2, update_mean_weight.
  by exec.
Qed.

Lemma incstats_kurtosis_step (x w b0 b1 b2 b3 b4 : R) (l : list R) :
  b0 + w ≠ 0 →
  incstats_kurtosis x w (b0 :: b1 :: b2 :: b3 :: b4 :: l)
  = Ok ((b0 + w) :: next_mean x w b0 b1
        :: (b2 + b0 * incstats_pow (incr_d x w b0 b1) 2
               + w * incstats_pow (incr_e x w b0 b1) 2)
        :: (b3 + 3 * b2 * incr_d x w b0 b1
               + b0 * incstats_pow (incr_d x w b0 b1) 3
               + w * incstats_pow (incr_e x w b0 b1) 3)
        :: (b4 + 4 * b3 * incr_d x w b0 b1
               + 6 * b2 * incstats_pow (incr_d x w b0 b1) 2
               + b0 * incstats_pow (incr_d x w b0 b1) 4
               + w * incstats_pow (incr_e x w b0 b1) 4) :: l).
Proof.
  intros H.
  unfold incstats_kurtosis, update_order3, update_order2, update_mean_weight.
  by exec.
Qed.

(** With a cumulative weight of zero after the sample, every update
    divides by zero. *)
Lemma incstats_variance_not_real (x w b0 b1 b2 : R) (l : list R) :
  b0 + w = 0 → incstats_variance x w (b0 :: b1 :: b2 :: l) = Err NotReal.
Proof.
  intros H. unfold incstats_variance. exec. rewrite H, !fdiv_zero. done.
Qed.

Lemma incstats_skewness_not_real (x w b0 b1 b2 b3 : R) (l : list R) :
  b0 + w = 0 →
  incstats_skewness x w (b0 :: b1 :: b2 :: b3 :: l) = Err NotReal.
Proof.
  intros H. unfold incstats_skewness, update_order3. exec.
  rewrite H, !fdiv_zero. done.
Qed.

Lemma incstats_kurtosis_not_real (x w b0 b1 b2 b3 b4 : R) (l : list R) :
  b0 + w = 0 →
  incstats_kurtosis x w (b0 :: b1 :: b2 :: b3 :: b4 :: l) = Err NotReal.
Proof.
  intros H. unfold incstats_kurtosis. exec. rewrite H, !fdiv_zero. done.
Qed.

(** ** The generalised update at orders 2, 3 and 4 *)

Lemma n_choose_k_3_1 : n_choose_k 3 1 = Ok 3%Z.
Proof. reflexivity. Qed.

Lemma n_choose_k_4_1 : n_choose_k 4 1 = Ok 4%Z.
Proof. reflexivity. Qed.

Lemma n_choose_k_4_2 : n_choose_k 4 2 = Ok 6%Z.
Proof. reflexivity. Qed.

Lemma incstats_pow_1 (x : R) : incstats_pow x 1 = x.
Proof. reflexivity. Qed.

Lemma incstats_pow_2 (x : R) : incstats_pow x 2 = x * x.
Proof. reflexivity. Qed.

Lemma incstats_pow_3 (x : R) : incstats_pow x 3 = x * x * x.
Proof. reflexivity. Qed.

Lemma incstats_pow_4 (x : R) : incstats_pow x 4 = x * x * x * x.
Proof. reflexivity. Qed.

(** Evaluates the integer arguments left in a goal on reals. *)
Ltac eval_ints :=
  repeat match goal with
  | |- context [incstats_pow ?a ?z] =>
      let z' := eval vm_compute in z in
      progress change (incstats_pow a z) with (incstats_pow a z')
  | |- context [IZR ?z] =>
      let z' := eval vm_compute in z in
      progress change (IZR z) with (IZR z')
  end;
  rewrite ?incstats_pow_1, ?incstats_pow_2, ?incstats_pow_3, ?incstats_pow_4.

(** Runs the generalised update at a literal order on an explicit
    accumulator. *)
Ltac exec_central :=
  unfold incstats_central_moment, update_mean_weight; exec;
  unfold for_down; simpl; unfold update_order, for_down; exec;
  unfold cross_term; exec.

Ltac list_eq :=
  f_equal; repeat match goal with |- _ :: _ = _ :: _ => f_equal end.

Lemma incstats_central_moment_2_step (x w b0 b1 b2 : R) (l : list R) :
  b0 + w ≠ 0 →
  incstats_central_moment x w (b0 :: b1 :: b2 :: l) 2
  = Ok ((b0 + w) :: next_mean x w b0 b1
        :: (b2 + 0 + b0 * incstats_pow (incr_d x w b0 b1) 2
               + w * incstats_pow (incr_e x w b0 b1) 2) :: l).
Proof. intros H. exec_central. by list_eq. Qed.

Lemma incstats_central_moment_3_step (x w b0 b1 b2 b3 : R) (l : list R) :
  b0 + w ≠ 0 →
  incstats_central_moment x w (b0 :: b1 :: b2 :: b3 :: l) 3
  = Ok ((b0 + w) :: next_mean x w b0 b1
        :: (b2 + 0 + b0 * incstats_pow (incr_d x w b0 b1) 2
               + w * incstats_pow (incr_e x w b0 b1) 2)
        :: (b3 + (0 + 3 * b2 * incstats_pow (incr_d x w b0 b1) 1)
               + b0 * incstats_pow (incr_d x w b0 b1) 3
               + w * incstats_pow (incr_e x w b0 b1) 3) :: l).
Proof. intros H. exec_central. by list_eq. Qed.

Lemma incstats_central_moment_4_step (x w b0 b1 b2 b3 b4 : R) (l : list R) :
  b0 + w ≠ 0 →
  incstats_central_moment x w (b0 :: b1 :: b2 :: b3 :: b4 :: l) 4
  = Ok ((b0 + w) :: next_mean x w b0 b1
        :: (b2 + 0 + b0 * incstats_pow (incr_d x w b0 b1) 2
               + w * incstats_pow (incr_e x w b0 b1) 2)
        :: (b3 + (0 + 3 * b2 * incstats_pow (incr_d x w b0 b1) 1)
               + b0 * incstats_pow (incr_d x w b0 b1) 3
               + w * incstats_pow (incr_e x w b0 b1) 3)
        :: (b4 + (0 + 6 * b2 * incstats_pow (incr_d x w b0 b1) 2
                    + 4 * b3 * incstats_pow (incr_d x w b0 b1) 1)
               + b0 * incstats_pow (incr_d x w b0 b1) 4
               + w * incstats_pow (incr_e x w b0 b1) 4) :: l).
Proof. intros H. exec_central. by list_eq. Qed.

Lemma incstats_central_moment_not_real (x w b0 b1 b2 : R) (l : list R)
    (p : Z) :
  (p = 2 ∨ p = 3 ∨ p = 4)%Z → (Z.to_nat p < 3 + length l)%nat →
  b0 + w = 0 →
  incstats_central_moment x w (b0 :: b1 :: b2 :: l) p = Err NotReal.
Proof.
  intros Hp Hlen H.
  destruct Hp as [->|[->| ->]].
  - exec_central. by rewrite H, !fdiv_zero.
  - destruct l as [|b3 l]; [simpl in Hlen; lia|].
    exec_central. by rewrite H, !fdiv_zero.
  - destruct l as [|b3 [|b4 l]]; [simpl in Hlen; lia..|].
    exec_central. by rewrite H, !fdiv_zero.
Qed.

(** *** Generalised and specialised updates coincide, call by call *)

Lemma central_moment_2_variance (x w : R) (buffer : list R) :
  (3 ≤ length buffer)%nat →
  incstats_central_moment x w buffer 2 = incstats_variance x w buffer.
Proof.
  intros Hlen.
  destruct buffer as [|b0 [|b1 [|b2 l]]]; [simpl in Hlen; lia..|].
  destruct (Req_dec_T (b0 + w) 0) as [H|H].
  - rewrite incstats_variance_not_real by done.
    apply incstats_central_moment_not_real; [auto | simpl; lia | done].
  - rewrite incstats_central_moment_2_step, incstats_variance_step by done.
    list_eq. unfold next_mean, incr_d, incr_e. eval_ints. by field.
Qed.

Lemma central_moment_3_skewness (x w : R) (buffer : list R) :
  (4 ≤ length buffer)%nat →
  incstats_central_moment x w buffer 3 = incstats_skewness x w buffer.
Proof.
  intros Hlen.
  destruct buffer as [|b0 [|b1 [|b2 [|b3 l]]]]; [simpl in Hlen; lia..|].
  destruct (Req_dec_T (b0 + w) 0) as [H|H].
  - rewrite incstats_skewness_not_real by done.
    apply incstats_central_moment_not_real; [auto | simpl; lia | done].
  - rewrite incstats_central_moment_3_step, incstats_skewness_step by done.
    list_eq; eval_ints; ring.
Qed.

Lemma central_moment_4_kurtosis (x w : R) (buffer : list R) :
  (5 ≤ length buffer)%nat →
  incstats_central_moment x w buffer 4 = incstats_kurtosis x w buffer.
Proof.
  intros Hlen.
  destruct buffer as [|b0 [|b1 [|b2 [|b3 [|b4 l]]]]]; [simpl in Hlen; lia..|].
  destruct (Req_dec_T (b0 + w) 0) as [H|H].
  - rewrite incstats_kurtosis_not_real by done.
    apply incstats_central_moment_not_real; [auto | simpl; lia | done].
  - rewrite incstats_central_moment_4_step, incstats_kurtosis_step by done.
    list_eq; eval_ints; ring.
Qed.

(** ** Streams *)

Section RunRefinement.

Variables f g : R → R → list R → outcome (list R).
Variable n : nat.
Hypothesis Hfg : ∀ x w b, (n ≤ length b)%nat → f x w b = g x w b.
Hypothesis Hlen :
  ∀ x w b b', g x w b = Ok b' → length b' = length b.

(** Two update functions that agree call by call agree on every stream. *)
Lemma run_refines (stream : list (R * R)) (buffer : list R) :
  (n ≤ length buffer)%nat → run f stream buffer = run g stream buffer.
Proof.
  revert buffer. induction stream as [|[x w] stream IH]; intros buffer Hb.
  - reflexivity.
  - simpl. rewrite Hfg by done.
    destruct (g x w buffer) as [b'|e] eqn:Eg; [|done].
    simpl. apply IH. rewrite (Hlen _ _ _ _ Eg). done.
Qed.

End RunRefinement.

(** Closes a goal [o = Ok _ → _] when [o] ends in an error. *)
Ltac absurd_outcome :=
  let Hx := fresh in
  intros Hx;
  repeat (let a := fresh in let Ha := fresh in
          apply bind_Ok_inv in Hx as (a & Ha & Hx));
  discriminate.

Lemma incstats_variance_length (x w : R) (b b' : list R) :
  incstats_variance x w b = Ok b' → length b' = length b.
Proof.
  destruct b as [|b0 [|b1 [|b2 l]]];
    [unfold incstats_variance; exec; absurd_outcome..|].
  destruct (Req_dec_T (b0 + w) 0) as [H|H].
  - by rewrite incstats_variance_not_real.
  - rewrite incstats_variance_step by done. by intros [= <-].
Qed.

Lemma incstats_skewness_length (x w : R) (b b' : list R) :
  incstats_skewness x w b = Ok b' → length b' = length b.
Proof.
  destruct b as [|b0 [|b1 [|b2 [|b3 l]]]];
    [unfold incstats_skewness, update_order3; exec; absurd_outcome..|].
  destruct (Req_dec_T (b0 + w) 0) as [H|H].
  - by rewrite incstats_skewness_not_real.
  - rewrite incstats_skewness_step by done. by intros [= <-].
Qed.

Lemma incstats_kurtosis_length (x w : R) (b b' : list R) :
  incstats_kurtosis x w b = Ok b' → length b' = length b.
Proof.
  destruct b as [|b0 [|b1 [|b2 [|b3 [|b4 l]]]]];
    [unfold incstats_kurtosis; exec; absurd_outcome..|].
  destruct (Req_dec_T (b0 + w) 0) as [H|H].
  - by rewrite incstats_kurtosis_not_real.
  - rewrite incstats_kurtosis_step by done. by intros [= <-].
Qed.

Lemma length_zeros (n : nat) : length (zeros n) = n.
Proof. apply length_replicate. Qed.

(** ** Finalize functions on explicit arrays *)

Lemma incstats_pow_nonzero (s : R) (y : Z) :
  s ≠ 0 → (0 ≤ y ≤ UINT64_MAX)%Z → incstats_pow s y ≠ 0.
Proof.
  intros Hs Hy. rewrite incstats_pow_pow by done. by apply pow_nonzero.
Qed.

Lemma sqrt_nonzero (v : R) : 0 < v → sqrt v ≠ 0.
Proof. intros Hv. pose proof (sqrt_lt_R0 v Hv). lra. Qed.

(** Runs a finalize function on explicit arrays; [Hs] names the fact that
    the standard deviation is not zero. *)
Ltac exec_finalize :=
  unfold rd, wr; exec;
  repeat first
    [ progress (rewrite fsqrt_Ok by lra); exec
    | progress (rewrite fdiv_Ok
                  by (apply incstats_pow_nonzero;
                      [assumption | unfold UINT64_MAX; lia])); exec ].

Lemma incstats_variance_finalize_eval (r0 r1 b0 b1 b2 : R) (rl bl : list R) :
  b0 ≠ 0 →
  incstats_variance_finalize (Mem (r0 :: r1 :: rl) (b0 :: b1 :: b2 :: bl))
  = Ok (Mem (b1 :: b2 / b0 :: rl) (b0 :: b1 :: b2 :: bl)).
Proof. intros H0. unfold incstats_variance_finalize. by exec_finalize. Qed.

Lemma finalize_skewness_slot_eval (r0 r1 r2 b0 b1 b2 b3 : R)
    (rl bl : list R) :
  b0 ≠ 0 → 0 < b2 / b0 →
  finalize_skewness_slot
    (Mem (r0 :: r1 :: r2 :: rl) (b0 :: b1 :: b2 :: b3 :: bl))
  = Ok (Mem (r0 :: r1
             :: b3 / b0 / (b2 / b0 * sqrt (b2 / b0)) :: rl)
          (b0 :: b1 :: b2 :: b3 :: bl)).
Proof.
  intros H0 Hv. unfold finalize_skewness_slot. exec_finalize.
  rewrite fdiv_Ok; [by exec|].
  pose proof (sqrt_nonzero _ Hv). apply Rmult_integral_contrapositive. lra.
Qed.

Lemma incstats_skewness_finalize_eval (r0 r1 r2 b0 b1 b2 b3 : R)
    (rl bl : list R) :
  b0 ≠ 0 → 0 < b2 / b0 →
  incstats_skewness_finalize
    (Mem (r0 :: r1 :: r2 :: rl) (b0 :: b1 :: b2 :: b3 :: bl))
  = Ok (Mem (b1 :: b2 / b0
             :: b3 / b0 / (b2 / b0 * sqrt (b2 / b0)) :: rl)
          (b0 :: b1 :: b2 :: b3 :: bl)).
Proof.
  intros H0 Hv. unfold incstats_skewness_finalize.
  rewrite incstats_variance_finalize_eval, bind_Ok by done.
  by apply finalize_skewness_slot_eval.
Qed.

Lemma incstats_kurtosis_finalize_eval (r0 r1 r2 r3 b0 b1 b2 b3 b4 : R)
    (rl bl : list R) :
  b0 ≠ 0 → 0 < b2 / b0 →
  incstats_kurtosis_finalize
    (Mem (r0 :: r1 :: r2 :: r3 :: rl) (b0 :: b1 :: b2 :: b3 :: b4 :: bl))
  = Ok (Mem (b1 :: b2 / b0
             :: b3 / b0 / (b2 / b0 * sqrt (b2 / b0))
             :: b4 / b0 / incstats_pow (b2 / b0) 2 :: rl)
          (b0 :: b1 :: b2 :: b3 :: b4 :: bl)).
Proof.
  intros H0 Hv. unfold incstats_kurtosis_finalize.
  rewrite incstats_variance_finalize_eval, bind_Ok by done.
  rewrite finalize_skewness_slot_eval, bind_Ok by done.
  assert (Hv0 : b2 / b0 ≠ 0) by lra.
  by exec_finalize.
Qed.

(** Runs the generalised finalize at a literal order. *)
Ltac exec_central_finalize :=
  unfold incstats_central_moment_finalize, for_up;
  change (u64 (2 + 1)) with 3%Z; change (u64 (3 + 1)) with 4%Z;
  change (u64 (4 + 1)) with 5%Z;
  unfold rd, wr; exec; unfold raw_moment, standardize_moment;
  exec_finalize.

Lemma incstats_central_moment_finalize_2_raw (r0 r1 r2 r3 b0 b1 b2 : R)
    (rl bl : list R) :
  b0 ≠ 0 →
  incstats_central_moment_finalize 2 false
    (Mem (r0 :: r1 :: r2 :: r3 :: rl) (b0 :: b1 :: b2 :: bl))
  = Ok (Mem (1 :: 0 :: b2 / b0 :: b1 :: rl) (b0 :: b1 :: b2 :: bl)).
Proof. intros H0. by exec_central_finalize. Qed.

Lemma incstats_central_moment_finalize_3_raw
    (r0 r1 r2 r3 r4 b0 b1 b2 b3 : R) (rl bl : list R) :
  b0 ≠ 0 →
  incstats_central_moment_finalize 3 false
    (Mem (r0 :: r1 :: r2 :: r3 :: r4 :: rl) (b0 :: b1 :: b2 :: b3 :: bl))
  = Ok (Mem (1 :: 0 :: b2 / b0 :: b3 / b0 :: b1 :: rl)
          (b0 :: b1 :: b2 :: b3 :: bl)).
Proof. intros H0. by exec_central_finalize. Qed.

Lemma incstats_central_moment_finalize_4_raw
    (r0 r1 r2 r3 r4 r5 b0 b1 b2 b3 b4 : R) (rl bl : list R) :
  b0 ≠ 0 →
  incstats_central_moment_finalize 4 false
    (Mem (r0 :: r1 :: r2 :: r3 :: r4 :: r5 :: rl)
       (b0 :: b1 :: b2 :: b3 :: b4 :: bl))
  = Ok (Mem (1 :: 0 :: b2 / b0 :: b3 / b0 :: b4 / b0 :: b1 :: rl)
          (b0 :: b1 :: b2 :: b3 :: b4 :: bl)).
Proof. intros H0. by exec_central_finalize. Qed.

Lemma incstats_central_moment_finalize_3_std
    (r0 r1 r2 r3 r4 b0 b1 b2 b3 : R) (rl bl : list R) :
  b0 ≠ 0 → 0 < b2 / b0 →
  incstats_central_moment_finalize 3 true
    (Mem (r0 :: r1 :: r2 :: r3 :: r4 :: rl) (b0 :: b1 :: b2 :: b3 :: bl))
  = Ok (Mem (1 / incstats_pow (sqrt (b2 / b0)) 0
             :: 0 / incstats_pow (sqrt (b2 / b0)) 1
             :: b2 / b0 / incstats_pow (sqrt (b2 / b0)) 2
             :: b3 / b0 / incstats_pow (sqrt (b2 / b0)) 3
             :: b1 :: rl)
          (b0 :: b1 :: b2 :: b3 :: bl)).
Proof.
  intros H0 Hv. pose proof (sqrt_nonzero _ Hv) as Hs.
  by exec_central_finalize.
Qed.

Lemma incstats_central_moment_finalize_4_std
    (r0 r1 r2 r3 r4 r5 b0 b1 b2 b3 b4 : R) (rl bl : list R) :
  b0 ≠ 0 → 0 < b2 / b0 →
  incstats_central_moment_finalize 4 true
    (Mem (r0 :: r1 :: r2 :: r3 :: r4 :: r5 :: rl)
       (b0 :: b1 :: b2 :: b3 :: b4 :: bl))
  = Ok (Mem (1 / incstats_pow (sqrt (b2 / b0)) 0
             :: 0 / incstats_pow (sqrt (b2 / b0)) 1
             :: b2 / b0 / incstats_pow (sqrt (b2 / b0)) 2
             :: b3 / b0 / incstats_pow (sqrt (b2 / b0)) 3
             :: b4 / b0 / incstats_pow (sqrt (b2 / b0)) 4
             :: b1 :: rl)
          (b0 :: b1 :: b2 :: b3 :: b4 :: bl)).
Proof.
  intros H0 Hv. pose proof (sqrt_nonzero _ Hv) as Hs.
  by exec_central_finalize.
Qed.

(** The standardisations of the two families are the same numbers. *)
Lemma standardize_3 (m3 v : R) :
  0 < v → m3 / incstats_pow (sqrt v) 3 = m3 / (v * sqrt v).
Proof.
  intros Hv. rewrite incstats_pow_3.
  rewrite sqrt_sqrt by lra. reflexivity.
Qed.

Lemma standardize_4 (m4 v : R) :
  0 < v → m4 / incstats_pow (sqrt v) 4 = m4 / incstats_pow v 2.
Proof.
  intros Hv. rewrite incstats_pow_4, incstats_pow_2.
  rewrite sqrt_sqrt by lra. rewrite Rmult_assoc, sqrt_sqrt by lra.
  reflexivity.
Qed.

(** ** Generalised engine against the specialised engines *)

Lemma updates_agree (stream : list (R * R)) :
  run (fun x w b => incstats_central_moment x w b 2) stream (zeros 3)
  = run incstats_variance stream (zeros 3) ∧
  run (fun x w b => incstats_central_moment x w b 3) stream (zeros 4)
  = run incstats_skewness stream (zeros 4) ∧
  run (fun x w b => incstats_central_moment x w b 4) stream (zeros 5)
  = run incstats_kurtosis stream (zeros 5).
Proof.
  split; [|split].
  - apply (run_refines _ _ 3%nat);
      [apply central_moment_2_variance | apply incstats_variance_length
      | by rewrite length_zeros].
  - apply (run_refines _ _ 4%nat);
      [apply central_moment_3_skewness | apply incstats_skewness_length
      | by rewrite length_zeros].
  - apply (run_refines _ _ 5%nat);
      [apply central_moment_4_kurtosis | apply incstats_kurtosis_length
      | by rewrite length_zeros].
Qed.

Lemma finalize_2_agrees (b0 b1 b2 : R) (res res' : list R) :
  b0 ≠ 0 → (4 ≤ length res)%nat → (2 ≤ length res')%nat →
  ∃ m m',
    incstats_central_moment_finalize 2 false (Mem res [b0; b1; b2]) = Ok m ∧
    incstats_variance_finalize (Mem res' [b0; b1; b2]) = Ok m' ∧
    m_results m !! 3%nat = m_results m' !! 0%nat ∧
    m_results m !! 2%nat = m_results m' !! 1%nat.
Proof.
  intros H0 Hr Hr'.
  destruct res as [|r0 [|r1 [|r2 [|r3 rl]]]]; [simpl in Hr; lia..|].
  destruct res' as [|s0 [|s1 sl]]; [simpl in Hr'; lia..|].
  eexists _, _.
  rewrite incstats_central_moment_finalize_2_raw by done.
  rewrite incstats_variance_finalize_eval by done.
  done.
Qed.

Lemma finalize_3_agrees (b0 b1 b2 b3 : R) (res res' : list R) :
  b0 ≠ 0 → 0 < b2 / b0 → (5 ≤ length res)%nat → (3 ≤ length res')%nat →
  ∃ mr ms m',
    incstats_central_moment_finalize 3 false (Mem res [b0; b1; b2; b3])
    = Ok mr ∧
    incstats_central_moment_finalize 3 true (Mem res [b0; b1; b2; b3])
    = Ok ms ∧
    incstats_skewness_finalize (Mem res' [b0; b1; b2; b3]) = Ok m' ∧
    m_results mr !! 4%nat = m_results m' !! 0%nat ∧
    m_results mr !! 2%nat = m_results m' !! 1%nat ∧
    m_results ms !! 4%nat = m_results m' !! 0%nat ∧
    m_results ms !! 3%nat = m_results m' !! 2%nat.
Proof.
  intros H0 Hv Hr Hr'.
  destruct res as [|r0 [|r1 [|r2 [|r3 [|r4 rl]]]]]; [simpl in Hr; lia..|].
  destruct res' as [|s0 [|s1 [|s2 sl]]]; [simpl in Hr'; lia..|].
  eexists _, _, _.
  rewrite incstats_central_moment_finalize_3_raw by done.
  rewrite incstats_central_moment_finalize_3_std by done.
  rewrite incstats_skewness_finalize_eval by done.
  simpl. rewrite standardize_3 by done. done.
Qed.

Lemma finalize_4_agrees (b0 b1 b2 b3 b4 : R) (res res' : list R) :
  b0 ≠ 0 → 0 < b2 / b0 → (6 ≤ length res)%nat → (4 ≤ length res')%nat →
  ∃ mr ms m',
    incstats_central_moment_finalize 4 false (Mem res [b0; b1; b2; b3; b4])
    = Ok mr ∧
    incstats_central_moment_finalize 4 true (Mem res [b0; b1; b2; b3; b4])
    = Ok ms ∧
    incstats_kurtosis_finalize (Mem res' [b0; b1; b2; b3; b4]) = Ok m' ∧
    m_results mr !! 5%nat = m_results m' !! 0%nat ∧
    m_results mr !! 2%nat = m_results m' !! 1%nat ∧
    m_results ms !! 5%nat = m_results m' !! 0%nat ∧
    m_results ms !! 3%nat = m_results m' !! 2%nat ∧
    m_results ms !! 4%nat = m_results m' !! 3%nat.
Proof.
  intros H0 Hv Hr Hr'.
  destruct res as [|r0 [|r1 [|r2 [|r3 [|r4 [|r5 rl]]]]]];
    [simpl in Hr; lia..|].
  destruct res' as [|s0 [|s1 [|s2 [|s3 sl]]]]; [simpl in Hr'; lia..|].
  eexists _, _, _.
  rewrite incstats_central_moment_finalize_4_raw by done.
  rewrite incstats_central_moment_finalize_4_std by done.
  rewrite incstats_kurtosis_finalize_eval by done.
  simpl. rewrite standardize_3, standardize_4 by done. done.
Qed.

(** ** Cumulative weight and running mean *)

Lemma sum_w_nonneg (stream : list (R * R)) :
  Forall (fun s => 0 < snd s) stream → 0 <= sum_w stream.
Proof.
  induction 1 as [|[x w] stream Hw _ IH]; simpl in *; lra.
Qed.

Lemma sum_w_pos (stream : list (R * R)) :
  stream ≠ [] → Forall (fun s => 0 < snd s) stream → 0 < sum_w stream.
Proof.
  intros Hne Hall. destruct Hall as [|[x w] stream Hw Hall]; [done|].
  pose proof (sum_w_nonneg _ Hall). simpl in *. lra.
Qed.

Section MeanInvariant.

Variable update : R → R → list R → outcome (list R).
Variable n : nat.

(** What every update function of the family does to slots 0 and 1. *)
Hypothesis update_mean :
  ∀ x w buffer b0 b1,
    (n ≤ length buffer)%nat →
    buffer !! 0%nat = Some b0 → buffer !! 1%nat = Some b1 → b0 + w ≠ 0 →
    ∃ buffer', update x w buffer = Ok buffer' ∧
               length buffer' = length buffer ∧
               buffer' !! 0%nat = Some (b0 + w) ∧
               buffer' !! 1%nat = Some (next_mean x w b0 b1).

Lemma run_weight_mean (stream : list (R * R)) (buffer : list R) (W m : R) :
  Forall (fun s => 0 < snd s) stream →
  (n ≤ length buffer)%nat →
  buffer !! 0%nat = Some W → buffer !! 1%nat = Some m → 0 <= W →
  ∃ buffer' m',
    run update stream buffer = Ok buffer' ∧
    length buffer' = length buffer ∧
    buffer' !! 0%nat = Some (W + sum_w stream) ∧
    buffer' !! 1%nat = Some m' ∧
    m' * (W + sum_w stream) = m * W + sum_wx stream.
Proof.
  intros Hall. revert buffer W m.
  induction Hall as [|[x w] stream Hw Hall IH]; intros buffer W m Hn H0 H1 HW.
  - exists buffer, m. simpl. rewrite Rplus_0_r. repeat split; try done. lra.
  - simpl in Hw.
    destruct (update_mean x w buffer W m) as (b1 & Hrun & Hlen & Hb0 & Hb1);
      [done | done | done | lra |].
    destruct (IH b1 (W + w) (next_mean x w W m))
      as (b' & m' & Hrun' & Hlen' & Hb0' & Hb1' & Hm');
      [lia | done | done | lra |].
    exists b', m'. simpl. rewrite Hrun. simpl.
    repeat split; try done.
    + lia.
    + rewrite Hb0'. f_equal. lra.
    + replace (W + (w + sum_w stream)) with (W + w + sum_w stream) by lra.
      rewrite Hm'. unfold next_mean. field. lra.
Qed.

(** From the zero-initialised accumulator: slot 0 is the sum of the weights
    and slot 1 the weighted mean. *)
Lemma run_zeros_weight_mean (stream : list (R * R)) (k : nat) :
  Forall (fun s => 0 < snd s) stream → (n ≤ k)%nat → (2 ≤ k)%nat →
  ∃ buffer',
    run update stream (zeros k) = Ok buffer' ∧
    length buffer' = k ∧
    buffer' !! 0%nat = Some (sum_w stream) ∧
    (stream ≠ [] → buffer' !! 1%nat = Some (weighted_mean stream)).
Proof.
  intros Hall Hn Hk.
  destruct (run_weight_mean stream (zeros k) 0 0 Hall)
    as (b' & m' & Hrun & Hlen & Hb0 & Hb1 & Hm').
  - by rewrite length_zeros.
  - apply lookup_replicate_2. lia.
  - apply lookup_replicate_2. lia.
  - lra.
  - exists b'. rewrite length_zeros in Hlen.
    rewrite Rplus_0_l in Hb0, Hm'.
    repeat split; try done.
    intros Hne. rewrite Hb1. f_equal.
    pose proof (sum_w_pos stream Hne Hall).
    unfold weighted_mean. field_simplify_eq; [lra | lra].
Qed.

End MeanInvariant.

Lemma update_mean_weight_Ok (x w new_sum_w b1 : R) (buffer : list R) :
  buffer !! 1%nat = Some b1 → new_sum_w ≠ 0 →
  update_mean_weight x w new_sum_w buffer
  = Ok (<[0%nat := new_sum_w]>
          (<[1%nat := b1 + w / new_sum_w * (x - b1)]> buffer)).
Proof.
  intros H1 Hn. apply lookup_lt_Some in H1 as Hlen.
  unfold update_mean_weight.
  rewrite (load_lookup buffer 1 b1) by (done || lia).
  rewrite bind_Ok, fdiv_Ok, bind_Ok by done.
  rewrite store_Ok, bind_Ok by lia.
  rewrite store_Ok by (rewrite length_insert; lia).
  done.
Qed.

(** A call of the generalised update returns whenever the accumulator has
    at least [max(2, p + 1)] slots and the new cumulative weight is not
    zero; it sets slots 0 and 1 as [incstats_mean] does. *)
Lemma incstats_central_moment_mean (p : Z) (x w : R) (buffer : list R)
    (b0 b1 : R) :
  (0 ≤ p ≤ UINT64_MAX)%Z →
  (Z.max 2 (p + 1) ≤ Z.of_nat (length buffer))%Z →
  buffer !! 0%nat = Some b0 → buffer !! 1%nat = Some b1 → b0 + w ≠ 0 →
  ∃ buffer', incstats_central_moment x w buffer p = Ok buffer' ∧
             length buffer' = length buffer ∧
             buffer' !! 0%nat = Some (b0 + w) ∧
             buffer' !! 1%nat = Some (next_mean x w b0 b1).
Proof.
  intros Hp Hlen H0 H1 Hn. unfold incstats_central_moment.
  rewrite (load_lookup buffer 0 b0) by (done || lia). rewrite bind_Ok.
  destruct (post_no_error _ _
              (update_orders_frame no_error x w (b0 + w)
                 (fun H => Hn H) buffer p Hp ltac:(lia)))
    as (b' & -> & Hl & Hb0 & Hb1).
  rewrite bind_Ok.
  rewrite (update_mean_weight_Ok x w (b0 + w) b1) by congruence.
  eexists. split; [done|].
  rewrite !length_insert.
  rewrite list_lookup_insert_eq by (rewrite length_insert; lia).
  rewrite list_lookup_insert_ne by lia.
  rewrite list_lookup_insert_eq by lia.
  done.
Qed.

Lemma incstats_mean_mean (x w : R) (buffer : list R) (b0 b1 : R) :
  (2 ≤ length buffer)%nat →
  buffer !! 0%nat = Some b0 → buffer !! 1%nat = Some b1 → b0 + w ≠ 0 →
  ∃ buffer', incstats_mean x w buffer = Ok buffer' ∧
             length buffer' = length buffer ∧
             buffer' !! 0%nat = Some (b0 + w) ∧
             buffer' !! 1%nat = Some (next_mean x w b0 b1).
Proof.
  intros Hlen H0 H1 Hn.
  destruct buffer as [|c0 [|c1 l]]; [simpl in Hlen; lia..|].
  injection H0 as ->. injection H1 as ->.
  rewrite incstats_mean_step by done. eauto.
Qed.

Lemma incstats_variance_mean (x w : R) (buffer : list R) (b0 b1 : R) :
  (3 ≤ length buffer)%nat →
  buffer !! 0%nat = Some b0 → buffer !! 1%nat = Some b1 → b0 + w ≠ 0 →
  ∃ buffer', incstats_variance x w buffer = Ok buffer' ∧
             length buffer' = length buffer ∧
             buffer' !! 0%nat = Some (b0 + w) ∧
             buffer' !! 1%nat = Some (next_mean x w b0 b1).
Proof.
  intros Hlen H0 H1 Hn.
  destruct buffer as [|c0 [|c1 [|c2 l]]]; [simpl in Hlen; lia..|].
  injection H0 as ->. injection H1 as ->.
  rewrite incstats_variance_step by done. eauto.
Qed.

Lemma incstats_skewness_mean (x w : R) (buffer : list R) (b0 b1 : R) :
  (4 ≤ length buffer)%nat →
  buffer !! 0%nat = Some b0 → buffer !! 1%nat = Some b1 → b0 + w ≠ 0 →
  ∃ buffer', incstats_skewness x w buffer = Ok buffer' ∧
             length buffer' = length buffer ∧
             buffer' !! 0%nat = Some (b0 + w) ∧
             buffer' !! 1%nat = Some (next_mean x w b0 b1).
Proof.
  intros Hlen H0 H1 Hn.
  destruct buffer as [|c0 [|c1 [|c2 [|c3 l]]]]; [simpl in Hlen; lia..|].
  injection H0 as ->. injection H1 as ->.
  rewrite incstats_skewness_step by done. eauto.
Qed.

Lemma incstats_kurtosis_mean (x w : R) (buffer : list R) (b0 b1 : R) :
  (5 ≤ length buffer)%nat →
  buffer !! 0%nat = Some b0 → buffer !! 1%nat = Some b1 → b0 + w ≠ 0 →
  ∃ buffer', incstats_kurtosis x w buffer = Ok buffer' ∧
             length buffer' = length buffer ∧
             buffer' !! 0%nat = Some (b0 + w) ∧
             buffer' !! 1%nat = Some (next_mean x w b0 b1).
Proof.
  intros Hlen H0 H1 Hn.
  destruct buffer as [|c0 [|c1 [|c2 [|c3 [|c4 l]]]]]; [simpl in Hlen; lia..|].
  injection H0 as ->. injection H1 as ->.
  rewrite incstats_kurtosis_step by done. eauto.
Qed.

(** ** The second moment kept by [incstats_variance] *)

(** From any accumulator [(W, m, M2)] with [W >= 0], a stream of positively
    weighted samples leads to the accumulator [(W', m', M2')] where [M2']
    adds to [M2] the weighted squared deviations of the samples from the new
    mean [m'], and the displacement [W (m - m')^2] of the old block. *)
Lemma run_variance_moment (stream : list (R * R)) :
  Forall (fun s => 0 < snd s) stream →
  ∀ (W m M2 : R) (l : list R), 0 <= W →
  ∃ W' m' M2',
    run incstats_variance stream (W :: m :: M2 :: l)
    = Ok (W' :: m' :: M2' :: l) ∧
    W' = W + sum_w stream ∧
    m' * W' = m * W + sum_wx stream ∧
    M2' = M2 + sum_w_dev2 m' stream + W * ((m - m') * (m - m')).
Proof.
  induction 1 as [|[x w] stream Hw Hall IH]; intros W m M2 l HW.
  - exists W, m, M2. simpl. repeat split; lra.
  - simpl in Hw. simpl.
    rewrite incstats_variance_step by lra. rewrite bind_Ok.
    destruct (IH (W + w) (next_mean x w W m)
                (M2 + w * (x - m) * (x - next_mean x w W m)) l)
      as (W' & m' & M2' & Hrun & HW' & Hm' & HM2'); [lra|].
    exists W', m', M2'. repeat split.
    + done.
    + lra.
    + rewrite Hm'. unfold next_mean. field. lra.
    + rewrite HM2'. unfold next_mean. field. lra.
Qed.

Lemma run_variance_zeros (stream : list (R * R)) :
  stream ≠ [] → Forall (fun s => 0 < snd s) stream →
  ∃ b0 b1 b2,
    run incstats_variance stream (zeros 3) = Ok [b0; b1; b2] ∧
    b0 = sum_w stream ∧ 0 < b0 ∧
    b1 = weighted_mean stream ∧
    b2 = sum_w_dev2 (weighted_mean stream) stream.
Proof.
  intros Hne Hall.
  destruct (run_variance_moment stream Hall 0 0 0 [])
    as (W' & m' & M2' & Hrun & HW' & Hm' & HM2'); [lra|].
  pose proof (sum_w_pos stream Hne Hall) as Hpos.
  rewrite Rplus_0_l in HW'. subst W'.
  assert (Hmean : m' = weighted_mean stream).
  { unfold weighted_mean. field_simplify_eq; lra. }
  exists (sum_w stream), m', M2'. repeat split; try done.
  rewrite HM2', <- Hmean. lra.
Qed.

(** ** Updates with weight zero *)

Lemma update_order_zero_weight (x new_sum_w : R) (i : Z) (buffer : list R) :
  new_sum_w ≠ 0 → (2 ≤ i ≤ UINT64_MAX)%Z →
  (i < Z.of_nat (length buffer))%Z →
  update_order x 0 new_sum_w i buffer = Ok buffer.
Proof.
  intros Hn Hi Hlen. unfold update_order, for_down.
  rewrite u64_small by lia.
  assert (Hd : ∀ b1, - 0 * (x - b1) / new_sum_w = 0) by (intros; by field).
  destruct (post_no_error _ _
    (post_iter_down no_error (fun _ tmp => tmp = 0)
       (cross_term x 0 new_sum_w buffer i) (Z.to_nat (i - 2 - 0)) (i - 2) 0
       eq_refl
       ltac:(intros k tmp Hk ->;
             eapply post_mono;
               [|apply cross_term_post; [done | lia | lia | lia]];
             intros tmp' (c & bik & b1 & _ & _ & _ & _ & ->);
             rewrite Hd, incstats_pow_zero_base by lia; simpl; ring)))
    as (tmp & -> & ->).
  rewrite bind_Ok.
  destruct (load_in_bounds buffer i) as (bi & -> & Hbi); [lia|].
  destruct (load_in_bounds buffer 0) as (b0 & -> & Hb0); [lia|].
  destruct (load_in_bounds buffer 1) as (b1 & -> & Hb1); [lia|].
  rewrite !bind_Ok, !fdiv_Ok, !bind_Ok by done.
  rewrite store_Ok by lia. f_equal.
  apply list_insert_id. rewrite Hbi. f_equal.
  rewrite Hd, incstats_pow_zero_base by lia. ring.
Qed.

Lemma update_orders_zero_weight (x new_sum_w : R) (p : Z) (buffer : list R) :
  new_sum_w ≠ 0 → (0 ≤ p ≤ UINT64_MAX)%Z →
  (p < Z.of_nat (length buffer))%Z →
  for_down p 1 (update_order x 0 new_sum_w) buffer = Ok buffer.
Proof.
  intros Hn Hp Hlen. unfold for_down.
  destruct (post_no_error _ _
    (post_iter_down no_error (fun _ b => b = buffer)
       (update_order x 0 new_sum_w) (Z.to_nat (p - 1)) p buffer eq_refl
       ltac:(intros i b Hi ->;
             rewrite update_order_zero_weight by (done || lia); done)))
    as (b & -> & ->).
  done.
Qed.

Lemma incstats_central_moment_zero_weight (x b0 : R) (p : Z)
    (buffer : list R) :
  (0 ≤ p ≤ UINT64_MAX)%Z →
  (Z.max 2 (p + 1) ≤ Z.of_nat (length buffer))%Z →
  buffer !! 0%nat = Some b0 → 0 < b0 →
  incstats_central_moment x 0 buffer p = Ok buffer.
Proof.
  intros Hp Hlen H0 Hpos. unfold incstats_central_moment.
  rewrite (load_lookup buffer 0 b0) by (done || lia). rewrite bind_Ok.
  rewrite update_orders_zero_weight, bind_Ok by (lra || lia).
  destruct (lookup_lt_is_Some_2 buffer 1) as [b1 H1]; [lia|].
  rewrite (update_mean_weight_Ok x 0 (b0 + 0) b1) by (done || lra).
  f_equal.
  rewrite (list_insert_id buffer 1 _); [apply list_insert_id|].
  - rewrite H0. f_equal. lra.
  - rewrite H1. f_equal. field. lra.
Qed.

Lemma incstats_mean_zero_weight (x b0 b1 : R) (l : list R) :
  0 < b0 → incstats_mean x 0 (b0 :: b1 :: l) = Ok (b0 :: b1 :: l).
Proof.
  intros Hpos. rewrite incstats_mean_step by lra.
  list_eq; unfold next_mean; [lra | field; lra].
Qed.

Lemma incstats_variance_zero_weight (x b0 b1 b2 : R) (l : list R) :
  0 < b0 →
  incstats_variance x 0 (b0 :: b1 :: b2 :: l) = Ok (b0 :: b1 :: b2 :: l).
Proof.
  intros Hpos. rewrite incstats_variance_step by lra.
  list_eq; unfold next_mean; [lra | field; lra | ring].
Qed.

Lemma incstats_skewness_zero_weight (x b0 b1 b2 b3 : R) (l : list R) :
  0 < b0 →
  incstats_skewness x 0 (b0 :: b1 :: b2 :: b3 :: l)
  = Ok (b0 :: b1 :: b2 :: b3 :: l).
Proof.
  intros Hpos. rewrite incstats_skewness_step by lra.
  list_eq; unfold next_mean, incr_d, incr_e; eval_ints;
    [lra | field; lra..].
Qed.

Lemma incstats_kurtosis_zero_weight (x b0 b1 b2 b3 b4 : R) (l : list R) :
  0 < b0 →
  incstats_kurtosis x 0 (b0 :: b1 :: b2 :: b3 :: b4 :: l)
  = Ok (b0 :: b1 :: b2 :: b3 :: b4 :: l).
Proof.
  intros Hpos. rewrite incstats_kurtosis_step by lra.
  list_eq; unfold next_mean, incr_d, incr_e; eval_ints;
    [lra | field; lra..].
Qed.

(** ** Orders 0 and 1 of the generalised update *)

Lemma central_moment_low_order_mean (x w : R) (buffer : list R) (p : Z) :
  (p = 0 ∨ p = 1)%Z →
  incstats_central_moment x w buffer p = incstats_mean x w buffer.
Proof.
  intros Hp.
  assert (Hloop : ∀ f (b : list R), for_down p 1 f b = Ok b).
  { intros f b. unfold for_down. by destruct Hp as [-> | ->]. }
  unfold incstats_central_moment, incstats_mean, update_mean_weight.
  destruct buffer as [|b0 [|b1 l]].
  - done.
  - exec. by rewrite Hloop.
  - exec. rewrite Hloop. exec.
    destruct (fdiv_cases w (b0 + w)) as [[_ ->]|[_ ->]]; [done|]. by exec.
Qed.

(** ** Order of the reads in [incstats_kurtosis] *)

Lemma kurtosis_example :
  incstats_kurtosis 1 1 [1; 0; 1; 0; 0]
  = Ok [2; 1 / 2; 3 / 2; - 3 / 2; 13 / 8].
Proof.
  rewrite incstats_kurtosis_step by lra.
  list_eq; unfold next_mean, incr_d, incr_e; eval_ints; lra.
Qed.

(** ** In-place update against the snapshot formulation *)

Lemma load_agree (a a' : list R) (i : Z) :
  a !! Z.to_nat i = a' !! Z.to_nat i → load a i = load a' i.
Proof. intros H. unfold load. by rewrite H. Qed.

Lemma iter_down_ext {St : Type} (body body' : Z → St → outcome St)
    (n : nat) (i : Z) (s : St) :
  (∀ j s, (i - Z.of_nat n < j ≤ i)%Z → body j s = body' j s) →
  iter_down n i body s = iter_down n i body' s.
Proof.
  revert i s. induction n as [|n IH]; intros i s Hext; [done|].
  cbn [iter_down]. rewrite Hext by lia.
  destruct (body' i s) as [s'|e]; [|done]. simpl.
  apply IH. intros j s'' Hj. apply Hext. lia.
Qed.

Section Snapshot.

Variables x w new_sum_w : R.

Lemma update_order_as_value (i : Z) (buffer : list R) :
  update_order x w new_sum_w i buffer
  = v ← order_value x w new_sum_w buffer i; store buffer i v.
Proof.
  unfold update_order, order_value.
  destruct (for_down _ _ _ _) as [tmp|]; [|done]. simpl.
  destruct (load buffer i) as [bi|]; [|done]. simpl.
  destruct (load buffer 0) as [b0|]; [|done]. simpl.
  destruct (load buffer 1) as [b1|]; [|done]. simpl.
  destruct (- w * (x - b1) /? new_sum_w) as [d|]; [|done]. simpl.
  destruct (b0 * (x - b1) /? new_sum_w) as [e|]; [|done]. done.
Qed.

(** The value of order [i] depends on the slots [0..i] only. *)
Lemma order_value_agree (i : Z) (a a' : list R) :
  (2 ≤ i ≤ UINT64_MAX)%Z → agree_upto i a a' →
  order_value x w new_sum_w a i = order_value x w new_sum_w a' i.
Proof.
  intros Hi Hag. unfold order_value, for_down.
  rewrite u64_small by lia.
  rewrite (iter_down_ext (cross_term x w new_sum_w a i)
             (cross_term x w new_sum_w a' i)).
  - rewrite (load_agree a a' i), (load_agree a a' 0), (load_agree a a' 1)
      by (apply Hag; lia).
    done.
  - intros k tmp Hk. unfold cross_term.
    rewrite u64_small by lia.
    rewrite (load_agree a a' (i - k)), (load_agree a a' 1)
      by (apply Hag; lia).
    done.
Qed.

Lemma order_value_in_bounds (i : Z) (a : list R) (v : R) :
  order_value x w new_sum_w a i = Ok v →
  (0 ≤ i < Z.of_nat (length a))%Z.
Proof.
  unfold order_value. intros H.
  apply bind_Ok_inv in H as (tmp & _ & H).
  apply bind_Ok_inv in H as (bi & Hbi & _).
  by apply load_Ok_inv in Hbi as [? _].
Qed.

Lemma agree_upto_insert (i : Z) (a a' : list R) (v : R) :
  (0 ≤ i)%Z → agree_upto i a a' →
  agree_upto (i - 1) (<[Z.to_nat i := v]> a) a'.
Proof.
  intros Hi Hag j Hj. rewrite list_lookup_insert_ne by lia.
  apply Hag. lia.
Qed.

(** The in-place loop over the orders [i], [i - 1], ... ([n] of them, all
    at least 2) stages and commits the values computed from the snapshot. *)
Lemma update_orders_snapshot (snap : list R) (n : nat) (i : Z)
    (cur : list R) :
  (1 ≤ i - Z.of_nat n)%Z → (i ≤ UINT64_MAX)%Z →
  agree_upto i cur snap → length cur = length snap →
  iter_down n i (update_order x w new_sum_w) cur
  = staged ← staged_values x w new_sum_w snap n i; commit staged cur.
Proof.
  revert i cur. induction n as [|n IH]; intros i cur Hn Hi Hag Hlen; [done|].
  cbn [iter_down staged_values].
  rewrite update_order_as_value.
  rewrite (order_value_agree i cur snap) by (done || lia).
  destruct (order_value x w new_sum_w snap i) as [v|e] eqn:Ev; [|done].
  apply order_value_in_bounds in Ev as Hb. simpl.
  rewrite store_Ok by lia. simpl.
  rewrite IH;
    [ | lia | lia | apply agree_upto_insert; [lia | done]
      | by rewrite length_insert ].
  destruct (staged_values x w new_sum_w snap n (i - 1)) as [rest|e];
    [|done].
  simpl. by rewrite store_Ok by lia.
Qed.

(** Staged values are committed without error, and committing them leaves
    slots 0 and 1 alone. *)
Lemma staged_values_commit (snap : list R) (n : nat) (i : Z)
    (cur : list R) (staged : list (Z * R)) :
  (1 ≤ i - Z.of_nat n)%Z → length cur = length snap →
  staged_values x w new_sum_w snap n i = Ok staged →
  ∃ cur', commit staged cur = Ok cur' ∧ length cur' = length cur ∧
          cur' !! 0%nat = cur !! 0%nat ∧ cur' !! 1%nat = cur !! 1%nat.
Proof.
  revert i cur staged.
  induction n as [|n IH]; intros i cur staged Hn Hlen Hst.
  - injection Hst as <-. by exists cur.
  - cbn [staged_values] in Hst.
    apply bind_Ok_inv in Hst as (v & Hv & Hst).
    apply bind_Ok_inv in Hst as (rest & Hrest & Hst).
    injection Hst as <-.
    apply order_value_in_bounds in Hv as Hb.
    cbn [commit]. rewrite store_Ok by lia. simpl.
    destruct (IH (i - 1)%Z (<[Z.to_nat i := v]> cur) rest)
      as (cur' & Hc & Hl & H0 & H1);
      [lia | by rewrite length_insert | done |].
    exists cur'. rewrite Hc, Hl, H0, H1, length_insert.
    rewrite !list_lookup_insert_ne by lia. done.
Qed.

End Snapshot.

(** ** Bounds of the array accesses *)

Lemma post_fsqrt (E : error → Prop) (a : R) :
  E NotReal → post E (fun s => 0 <= a ∧ s = sqrt a) (fsqrt a).
Proof.
  intros HE. unfold fsqrt. destruct (Rlt_dec a 0); simpl; [done|].
  split; [lra | done].
Qed.

Lemma post_rd (E : error → Prop) (m : mem) (a : ptr) (i : Z) :
  (0 ≤ i < Z.of_nat (length (array_of m a)))%Z →
  post E (fun v => array_of m a !! Z.to_nat i = Some v) (rd m a i).
Proof. apply post_load. Qed.

Lemma post_wr_results (E : error → Prop) (m : mem) (i : Z) (v : R) :
  (0 ≤ i < Z.of_nat (length (m_results m)))%Z →
  post E (fun m' => m' = Mem (<[Z.to_nat i := v]> (m_results m)) (m_buffer m))
    (wr m Results i v).
Proof. intros Hi. unfold wr. simpl. by rewrite store_Ok. Qed.

Lemma u64_succ_bounds (p : Z) :
  (0 ≤ p ≤ UINT64_MAX)%Z → (0 ≤ u64 (p + 1) ≤ p + 1)%Z.
Proof.
  intros Hp. destruct (decide (p = UINT64_MAX)) as [->|Hne].
  - by vm_compute.
  - rewrite u64_small by lia. lia.
Qed.

Lemma same_shape_refl (m : mem) : same_shape m m.
Proof. by split. Qed.

Section Safety.

Variable E : error → Prop.
Hypothesis HE : E NotReal.

Lemma incstats_central_moment_safe (x w : R) (buffer : list R) (p : Z) :
  (0 ≤ p ≤ UINT64_MAX)%Z →
  (Z.max 2 (p + 1) ≤ Z.of_nat (length buffer))%Z →
  post E (fun buffer' => length buffer' = length buffer)
    (incstats_central_moment x w buffer p).
Proof.
  intros Hp Hlen. unfold incstats_central_moment.
  apply post_bind. eapply post_mono; [|apply post_load; lia].
  intros b0 Hb0. simpl.
  apply post_bind.
  eapply post_mono;
    [|apply update_orders_frame; [by intros _ | done | lia]].
  intros b' (Hl & _ & _). simpl. unfold update_mean_weight.
  apply post_bind. eapply post_mono; [|apply post_load; lia].
  intros b1 Hb1. simpl.
  apply post_bind. eapply post_mono; [|apply post_fdiv; by intros _].
  intros q _. simpl.
  rewrite store_Ok by lia. simpl.
  rewrite store_Ok by (rewrite length_insert; lia). simpl.
  rewrite !length_insert. done.
Qed.

Lemma raw_moment_safe (m0 m : mem) (i : Z) :
  same_shape m0 m →
  (0 ≤ i < Z.of_nat (length (m_results m0)))%Z →
  (i < Z.of_nat (length (m_buffer m0)))%Z →
  post E (same_shape m0) (raw_moment i m).
Proof.
  intros [Hb Hr] Hi Hib. unfold raw_moment.
  apply post_bind. eapply post_mono; [|apply post_rd; simpl; rewrite Hb; lia].
  intros bi _. simpl.
  apply post_bind. eapply post_mono; [|apply post_rd; simpl; rewrite Hb; lia].
  intros b0 _. simpl.
  apply post_bind. eapply post_mono; [|apply post_fdiv; by intros _].
  intros q _. simpl.
  eapply post_mono; [|apply post_wr_results; lia].
  intros m' ->. split; simpl; [done | by rewrite length_insert].
Qed.

Lemma standardize_moment_safe (m0 m : mem) (variance : R) (i : Z) :
  same_shape m0 m →
  (0 ≤ i < Z.of_nat (length (m_results m0)))%Z →
  post E (same_shape m0) (standardize_moment variance i m).
Proof.
  intros [Hb Hr] Hi. unfold standardize_moment.
  apply post_bind. eapply post_mono; [|apply post_rd; simpl; lia].
  intros ri _. simpl.
  apply post_bind. eapply post_mono; [|by apply post_fsqrt].
  intros s _. simpl.
  apply post_bind. eapply post_mono; [|apply post_fdiv; by intros _].
  intros q _. simpl.
  eapply post_mono; [|apply post_wr_results; lia].
  intros m' ->. split; simpl; [done | by rewrite length_insert].
Qed.

Lemma incstats_central_moment_finalize_safe (p : Z) (standardize : bool)
    (m : mem) :
  (0 ≤ p ≤ UINT64_MAX)%Z →
  (p + 2 ≤ Z.of_nat (length (m_results m)))%Z →
  (Z.max 2 (p + 1) ≤ Z.of_nat (length (m_buffer m)))%Z →
  (standardize = true → (1 ≤ p)%Z) →
  post E (same_shape m) (incstats_central_moment_finalize p standardize m).
Proof.
  intros Hp Hr Hb Hstd. pose proof (u64_succ_bounds p Hp) as Hu.
  unfold incstats_central_moment_finalize.
  apply post_bind. eapply post_mono; [|apply post_wr_results; lia].
  intros m1 ->. simpl.
  apply post_bind.
  eapply post_mono; [|apply post_wr_results; simpl; rewrite length_insert; lia].
  intros m2 ->. simpl.
  set (m2 := Mem _ _).
  assert (Hm2 : same_shape m m2).
  { split; simpl; [done | by rewrite !length_insert]. }
  clearbody m2.
  apply post_bind. unfold for_up.
  eapply post_mono;
    [|apply (post_iter_up E (fun _ => same_shape m)); [done|]].
  2:{ intros j m' Hj Hm'. apply raw_moment_safe; [done | lia | lia]. }
  intros m3 Hm3. simpl.
  apply post_bind.
  eapply (post_mono E (same_shape m)).
  2:{ destruct standardize; [|done].
      destruct Hm3 as [Hb3 Hr3].
      apply post_bind.
      eapply post_mono; [|apply post_rd; simpl; specialize (Hstd eq_refl); lia].
      intros variance _. simpl.
      apply (post_iter_up E (fun _ => same_shape m)); [done|].
      intros j m' Hj Hm'.
      apply standardize_moment_safe; [done | lia]. }
  intros m4 [Hb4 Hr4]. simpl.
  apply post_bind.
  eapply post_mono; [|apply post_rd; simpl; rewrite Hb4; lia].
  intros b1 _. simpl.
  eapply post_mono; [|apply post_wr_results; lia].
  intros m' ->. split; simpl; [done | by rewrite length_insert].
Qed.

End Safety.

(** ** What the generalised finalize writes *)

(** A loop [for (j = lo; j < lo + n; j++)] whose body replaces
    [results[j]] by [h j results[j]] maps [h] over that range of the
    results and changes nothing else. *)
Lemma iter_up_pointwise (body : Z → mem → outcome mem) (h : Z → R → R)
    (n : nat) (lo : Z) (m : mem) :
  (0 ≤ lo)%Z → (lo + Z.of_nat n ≤ Z.of_nat (length (m_results m)))%Z →
  (∀ j m' rj,
     (lo ≤ j < lo + Z.of_nat n)%Z → same_shape m m' →
     m_results m' !! Z.to_nat j = Some rj →
     body j m'
     = Ok (Mem (<[Z.to_nat j := h j rj]> (m_results m')) (m_buffer m'))) →
  ∃ r',
    iter_up n lo body m = Ok (Mem r' (m_buffer m)) ∧
    length r' = length (m_results m) ∧
    ∀ k : nat,
      r' !! k = if decide (lo ≤ Z.of_nat k < lo + Z.of_nat n)%Z
                then h (Z.of_nat k) <$> m_results m !! k
                else m_results m !! k.
Proof.
  intros Hlo Hlen Hbody.
  destruct (post_no_error _ _
    (post_iter_up no_error
       (fun j m' =>
          same_shape m m' ∧
          ∀ k : nat,
            m_results m' !! k
            = if decide (lo ≤ Z.of_nat k < j)%Z
              then h (Z.of_nat k) <$> m_results m !! k
              else m_results m !! k)
       body n lo m
       ltac:(split; [apply same_shape_refl |];
             intros k; by rewrite decide_False by lia)
       ltac:(intros j m' Hj [Hsh Hk];
             destruct (lookup_lt_is_Some_2 (m_results m) (Z.to_nat j))
               as [rj Hrj]; [lia|];
             assert (Hrj' : m_results m' !! Z.to_nat j = Some rj)
               by (rewrite Hk, decide_False by lia; done);
             rewrite (Hbody j m' rj Hj Hsh Hrj'); simpl;
             destruct Hsh as [Hb Hl];
             split; [split; simpl; [done | by rewrite length_insert] |];
             intros k; simpl;
             destruct (decide (k = Z.to_nat j)) as [->|Hne];
               [ rewrite list_lookup_insert_eq by lia;
                 rewrite decide_True by lia;
                 rewrite Hrj; simpl; f_equal; f_equal; lia
               | rewrite list_lookup_insert_ne by done;
                 rewrite Hk;
                 destruct (decide (lo ≤ Z.of_nat k < j)%Z);
                   [rewrite decide_True by lia | rewrite decide_False by lia];
                   done ])))
    as ([r' b'] & Hrun & [Hb Hl] & Hk).
  simpl in *. subst b'. eauto.
Qed.

Lemma wr_results_eval (m : mem) (i : Z) (v : R) :
  (0 ≤ i < Z.of_nat (length (m_results m)))%Z →
  wr m Results i v = Ok (Mem (<[Z.to_nat i := v]> (m_results m)) (m_buffer m)).
Proof. intros Hi. unfold wr. simpl. by rewrite store_Ok. Qed.

Lemma rd_eval (m : mem) (a : ptr) (i : Z) (v : R) :
  (0 ≤ i)%Z → array_of m a !! Z.to_nat i = Some v → rd m a i = Ok v.
Proof. intros Hi Hv. by apply load_lookup. Qed.

Lemma raw_moment_eval (m : mem) (j : Z) (bj b0 : R) :
  (0 ≤ j < Z.of_nat (length (m_results m)))%Z →
  m_buffer m !! Z.to_nat j = Some bj → m_buffer m !! 0%nat = Some b0 →
  b0 ≠ 0 →
  raw_moment j m
  = Ok (Mem (<[Z.to_nat j := bj / b0]> (m_results m)) (m_buffer m)).
Proof.
  intros Hj Hbj Hb0 Hn. unfold raw_moment.
  rewrite (rd_eval m Buffer j bj), bind_Ok by (done || lia).
  rewrite (rd_eval m Buffer 0 b0), bind_Ok by (done || lia).
  rewrite fdiv_Ok, bind_Ok by done.
  by apply wr_results_eval.
Qed.

Lemma standardize_moment_eval (m : mem) (variance : R) (j : Z) (rj : R) :
  (0 ≤ j ≤ UINT64_MAX)%Z → m_results m !! Z.to_nat j = Some rj →
  0 < variance →
  standardize_moment variance j m
  = Ok (Mem (<[Z.to_nat j := rj / sqrt variance ^ Z.to_nat j]> (m_results m))
          (m_buffer m)).
Proof.
  intros Hj Hrj Hv. unfold standardize_moment.
  apply lookup_lt_Some in Hrj as Hlt.
  rewrite (rd_eval m Results j rj), bind_Ok by (done || lia).
  rewrite fsqrt_Ok, bind_Ok by lra.
  rewrite incstats_pow_pow by done.
  rewrite fdiv_Ok, bind_Ok by (apply pow_nonzero, sqrt_nonzero; done).
  apply wr_results_eval. lia.
Qed.

(** The first statements of the generalised finalize: slots 0 and 1, then
    the loop of the raw moments. *)
Lemma raw_moments_loop (p : Z) (results buffer : list R) (b0 : R) :
  (2 ≤ p < UINT64_MAX)%Z →
  (p + 1 ≤ Z.of_nat (length buffer))%Z →
  (p + 2 ≤ Z.of_nat (length results))%Z →
  buffer !! 0%nat = Some b0 → b0 ≠ 0 →
  ∃ r2,
    for_up 2 (u64 (p + 1)) raw_moment
      (Mem (<[1%nat := 0]> (<[0%nat := 1]> results)) buffer)
    = Ok (Mem r2 buffer) ∧
    length r2 = length results ∧
    ∀ k : nat,
      r2 !! k =
      if decide (k = 0%nat) then Some 1
      else if decide (k = 1%nat) then Some 0
      else if decide (Z.of_nat k ≤ p)%Z
      then (fun bk => bk / b0) <$> buffer !! k
      else results !! k.
Proof.
  intros Hp Hlb Hlr H0 Hn.
  set (r1 := <[1%nat := 0]> (<[0%nat := 1]> results)).
  assert (Hl1 : length r1 = length results)
    by (unfold r1; by rewrite !length_insert).
  unfold for_up. rewrite (u64_small (p + 1)) by lia.
  destruct (iter_up_pointwise raw_moment
              (fun j _ => default 0 (buffer !! Z.to_nat j) / b0)
              (Z.to_nat (p + 1 - 2)) 2 (Mem r1 buffer))
    as (r2 & Hrun2 & Hl2 & Hk2).
  { lia. }
  { simpl. lia. }
  { intros j m' rj Hj [Hb Hl] Hrj. simpl in Hb, Hl.
    destruct (lookup_lt_is_Some_2 buffer (Z.to_nat j)) as [bj Hbj]; [lia|].
    rewrite (raw_moment_eval m' j bj b0) by (rewrite ?Hb; done || lia).
    by rewrite Hbj. }
  simpl in Hrun2, Hl2, Hk2.
  exists r2. split; [done|]. split; [lia|].
  intros k. rewrite Hk2. unfold r1.
  destruct (decide (k = 0%nat)) as [->|Hk0].
  { rewrite decide_False by lia.
    rewrite list_lookup_insert_ne by lia.
    by rewrite list_lookup_insert_eq by lia. }
  destruct (decide (k = 1%nat)) as [->|Hk1].
  { rewrite decide_False by lia.
    by rewrite list_lookup_insert_eq by (rewrite length_insert; lia). }
  rewrite !list_lookup_insert_ne by lia.
  destruct (decide (Z.of_nat k ≤ p)%Z) as [Hkp|Hkp].
  - rewrite decide_True by lia. rewrite Nat2Z.id.
    destruct (lookup_lt_is_Some_2 results k) as [rk ->]; [lia|].
    destruct (lookup_lt_is_Some_2 buffer k) as [bk ->]; [lia|].
    done.
  - by rewrite decide_False by lia.
Qed.

Lemma standardize_moment_negative (m : mem) (variance : R) (j : Z)
    (rj : R) :
  (0 ≤ j)%Z → m_results m !! Z.to_nat j = Some rj → variance < 0 →
  standardize_moment variance j m = Err NotReal.
Proof.
  intros Hj Hrj Hv. unfold standardize_moment.
  rewrite (rd_eval m Results j rj), bind_Ok by done.
  by rewrite fsqrt_neg.
Qed.

Lemma standardize_moment_zero_order0 (m : mem) (r0 : R) :
  m_results m !! 0%nat = Some r0 →
  standardize_moment 0 0 m
  = Ok (Mem (<[0%nat := r0 / 1]> (m_results m)) (m_buffer m)).
Proof.
  intros Hr0. apply lookup_lt_Some in Hr0 as Hlt.
  unfold standardize_moment.
  rewrite (rd_eval m Results 0 r0), bind_Ok by done.
  rewrite fsqrt_Ok, bind_Ok, sqrt_0 by lra.
  change (incstats_pow 0 0) with 1.
  rewrite fdiv_Ok, bind_Ok by lra.
  apply wr_results_eval. lia.
Qed.

Lemma standardize_moment_zero_variance (m : mem) (j : Z) (rj : R) :
  (1 ≤ j ≤ UINT64_MAX)%Z → m_results m !! Z.to_nat j = Some rj →
  standardize_moment 0 j m = Err NotReal.
Proof.
  intros Hj Hrj. unfold standardize_moment.
  rewrite (rd_eval m Results j rj), bind_Ok by (done || lia).
  rewrite fsqrt_Ok, bind_Ok, sqrt_0 by lra.
  by rewrite incstats_pow_zero_base, fdiv_zero by done.
Qed.

(** With [standardize] set and a variance that is not positive, the
    generalised finalize (of order 2 at least) divides by zero or takes the
    square root of a negative number. *)
Lemma central_moment_finalize_not_real (p : Z) (results buffer : list R)
    (b0 b2 : R) :
  (2 ≤ p < UINT64_MAX)%Z →
  (p + 1 ≤ Z.of_nat (length buffer))%Z →
  (p + 2 ≤ Z.of_nat (length results))%Z →
  buffer !! 0%nat = Some b0 → buffer !! 2%nat = Some b2 →
  b0 ≠ 0 → b2 / b0 <= 0 →
  incstats_central_moment_finalize p true (Mem results buffer)
  = Err NotReal.
Proof.
  intros Hp Hlb Hlr H0 H2 Hn Hv.
  unfold incstats_central_moment_finalize.
  rewrite wr_results_eval, bind_Ok by (simpl; lia).
  rewrite wr_results_eval, bind_Ok by (simpl; rewrite length_insert; lia).
  simpl m_results. simpl m_buffer.
  change (Z.to_nat 0) with 0%nat. change (Z.to_nat 1) with 1%nat.
  destruct (raw_moments_loop p results buffer b0)
    as (r2 & -> & Hl2 & Hr2); [done..|].
  rewrite bind_Ok.
  rewrite (rd_eval _ Results 2 (b2 / b0));
    [|lia|simpl; change (Z.to_nat 2) with 2%nat; rewrite Hr2, H2; simpl;
          by rewrite decide_True by lia].
  rewrite bind_Ok. unfold for_up. rewrite (u64_small (p + 1)) by lia.
  replace (Z.to_nat (p + 1 - 0)) with (S (S (Z.to_nat (p - 1)))) by lia.
  cbn [iter_up].
  destruct (Rlt_dec (b2 / b0) 0) as [Hneg|Hnn].
  - rewrite (standardize_moment_negative _ _ 0 1);
      [done | done | simpl; by rewrite Hr2 | done].
  - assert (Hz : b2 / b0 = 0) by lra. rewrite Hz.
    rewrite (standardize_moment_zero_order0 _ 1), bind_Ok
      by (simpl; by rewrite Hr2).
    rewrite (standardize_moment_zero_variance _ (0 + 1) 0);
      [done | unfold UINT64_MAX; lia |].
    simpl. change (Z.to_nat (0 + 1)) with 1%nat.
    rewrite list_lookup_insert_ne by done. by rewrite Hr2.
Qed.

Lemma central_moment_finalize_spec (p : Z) (standardize : bool)
    (results buffer : list R) (b0 b1 b2 : R) :
  (2 ≤ p < UINT64_MAX)%Z →
  (p + 1 ≤ Z.of_nat (length buffer))%Z →
  (p + 2 ≤ Z.of_nat (length results))%Z →
  buffer !! 0%nat = Some b0 → buffer !! 1%nat = Some b1 →
  buffer !! 2%nat = Some b2 →
  b0 ≠ 0 → (standardize = true → 0 < b2 / b0) →
  ∃ results',
    incstats_central_moment_finalize p standardize (Mem results buffer)
    = Ok (Mem results' buffer) ∧
    length results' = length results ∧
    ∀ k : nat,
      results' !! k =
      if decide (k = 0%nat) then Some (standardized standardize (b2 / b0) 0 1)
      else if decide (k = 1%nat)
      then Some (standardized standardize (b2 / b0) 1 0)
      else if decide (Z.of_nat k ≤ p)%Z
      then (fun bk => standardized standardize (b2 / b0) (Z.of_nat k) (bk / b0))
             <$> buffer !! k
      else if decide (Z.of_nat k = p + 1)%Z then Some b1
      else results !! k.
Proof.
  intros Hp Hlb Hlr H0 H1 H2 Hn Hstd.
  unfold incstats_central_moment_finalize.
  rewrite wr_results_eval, bind_Ok by (simpl; lia).
  rewrite wr_results_eval, bind_Ok by (simpl; rewrite length_insert; lia).
  simpl m_results. simpl m_buffer.
  change (Z.to_nat 0) with 0%nat. change (Z.to_nat 1) with 1%nat.
  destruct (raw_moments_loop p results buffer b0)
    as (r2 & -> & Hl2 & Hr2); [done..|].
  rewrite bind_Ok.
  unfold for_up. rewrite (u64_small (p + 1)) by lia.
  destruct standardize.
  - specialize (Hstd eq_refl).
    rewrite (rd_eval _ Results 2 (b2 / b0));
      [|lia|simpl; change (Z.to_nat 2) with 2%nat; rewrite Hr2, H2; simpl;
            by rewrite decide_True by lia].
    rewrite bind_Ok.
    destruct (iter_up_pointwise (standardize_moment (b2 / b0))
                (fun j r => r / sqrt (b2 / b0) ^ Z.to_nat j)
                (Z.to_nat (p + 1 - 0)) 0 (Mem r2 buffer))
      as (r3 & Hrun3 & Hl3 & Hk3).
    { lia. }
    { simpl. lia. }
    { intros j m' rj Hj [Hb Hl] Hrj.
      rewrite (standardize_moment_eval m' (b2 / b0) j rj)
        by (done || lia).
      by rewrite Hb. }
    simpl in Hrun3, Hl3, Hk3. rewrite Hrun3, bind_Ok.
    rewrite (rd_eval _ Buffer 1 b1), bind_Ok by (done || lia).
    rewrite wr_results_eval by (simpl; lia). simpl.
    eexists. split; [done|]. split; [rewrite length_insert; lia|].
    intros k.
    destruct (decide (Z.of_nat k = p + 1)%Z) as [Hk|Hk].
    { replace (Z.to_nat (p + 1)) with k by lia.
      rewrite list_lookup_insert_eq by lia.
      by rewrite !decide_False by lia. }
    rewrite list_lookup_insert_ne by lia.
    rewrite Hk3, Hr2.
    destruct (decide (Z.of_nat k ≤ p)%Z) as [Hkp|Hkp].
    + rewrite (decide_True (P := (0 ≤ Z.of_nat k < _)%Z)) by lia.
      rewrite Nat2Z.id. unfold standardized.
      destruct (decide (k = 0%nat)) as [->|]; [done|].
      destruct (decide (k = 1%nat)) as [->|]; [done|].
      destruct (buffer !! k); done.
    + rewrite (decide_False (P := (0 ≤ Z.of_nat k < _)%Z)) by lia.
      by rewrite !decide_False by lia.
  - rewrite bind_Ok.
    rewrite (rd_eval _ Buffer 1 b1), bind_Ok by (done || lia).
    rewrite wr_results_eval by (simpl; lia). simpl.
    eexists. split; [done|]. split; [rewrite length_insert; lia|].
    intros k.
    destruct (decide (Z.of_nat k = p + 1)%Z) as [Hk|Hk].
    { replace (Z.to_nat (p + 1)) with k by lia.
      rewrite list_lookup_insert_eq by lia.
      by rewrite !decide_False by lia. }
    rewrite list_lookup_insert_ne by lia.
    rewrite Hr2. unfold standardized.
    destruct (decide (k = 0%nat)); [done|].
    destruct (decide (k = 1%nat)); [done|].
    done.
Qed.

(** ** Frame of the finalize functions *)

Lemma post_any {A : Type} (o : outcome A) :
  post any_error (fun _ => True) o.
Proof. by destruct o. Qed.

Lemma post_Ok_elim {A : Type} (E : error → Prop) (Q : A → Prop)
    (o : outcome A) (a : A) :
  post E Q o → o = Ok a → Q a.
Proof. by intros H ->. Qed.

(** A write through [results] keeps the accumulator, whatever the index. *)
Lemma wr_results_frame (m0 m : mem) (i : Z) (v : R) :
  same_shape m0 m → post any_error (same_shape m0) (wr m Results i v).
Proof.
  intros Hsh. unfold wr. simpl.
  destruct (store (m_results m) i v) as [l|e] eqn:Est; [|done].
  apply store_Ok_inv in Est as [_ ->]. simpl.
  destruct Hsh as [Hb Hl]. split; simpl; [done | by rewrite length_insert].
Qed.

(** Steps over a read or an arithmetic operation of a finalize body. *)
Ltac frame_skip :=
  apply post_bind; eapply post_mono; [|apply post_any]; intros ? _; simpl.

Lemma incstats_mean_finalize_frame (m : mem) :
  post any_error (same_shape m) (incstats_mean_finalize m).
Proof.
  unfold incstats_mean_finalize. frame_skip.
  apply wr_results_frame, same_shape_refl.
Qed.

Lemma incstats_variance_finalize_frame (m0 m : mem) :
  same_shape m0 m →
  post any_error (same_shape m0) (incstats_variance_finalize m).
Proof.
  intros Hsh. unfold incstats_variance_finalize. frame_skip.
  apply post_bind. eapply post_mono; [|by apply wr_results_frame].
  intros m1 Hm1. simpl. do 3 frame_skip.
  by apply wr_results_frame.
Qed.

Lemma finalize_skewness_slot_frame (m0 m : mem) :
  same_shape m0 m →
  post any_error (same_shape m0) (finalize_skewness_slot m).
Proof.
  intros Hsh. unfold finalize_skewness_slot. do 8 frame_skip.
  by apply wr_results_frame.
Qed.

Lemma incstats_skewness_finalize_frame (m : mem) :
  post any_error (same_shape m) (incstats_skewness_finalize m).
Proof.
  unfold incstats_skewness_finalize.
  apply post_bind.
  eapply post_mono;
    [|apply incstats_variance_finalize_frame, same_shape_refl].
  intros m1 Hm1. simpl. by apply finalize_skewness_slot_frame.
Qed.

Lemma incstats_kurtosis_finalize_frame (m : mem) :
  post any_error (same_shape m) (incstats_kurtosis_finalize m).
Proof.
  unfold incstats_kurtosis_finalize.
  apply post_bind.
  eapply post_mono;
    [|apply incstats_variance_finalize_frame, same_shape_refl].
  intros m1 Hm1. simpl.
  apply post_bind.
  eapply post_mono; [|by apply finalize_skewness_slot_frame].
  intros m2 Hm2. simpl. do 6 frame_skip.
  by apply wr_results_frame.
Qed.

Lemma incstats_central_moment_finalize_frame (p : Z) (standardize : bool)
    (m : mem) :
  post any_error (same_shape m)
    (incstats_central_moment_finalize p standardize m).
Proof.
  unfold incstats_central_moment_finalize.
  apply post_bind.
  eapply post_mono; [|apply wr_results_frame, same_shape_refl].
  intros m1 Hm1. simpl.
  apply post_bind. eapply post_mono; [|by apply wr_results_frame].
  intros m2 Hm2. simpl.
  apply post_bind. unfold for_up.
  eapply post_mono;
    [|apply (post_iter_up any_error (fun _ => same_shape m)); [done|]].
  2:{ intros j m' _ Hm'. unfold raw_moment. do 3 frame_skip.
      by apply wr_results_frame. }
  intros m3 Hm3. simpl.
  apply post_bind.
  eapply (post_mono any_error (same_shape m)).
  2:{ destruct standardize; [|done]. frame_skip.
      apply (post_iter_up any_error (fun _ => same_shape m)); [done|].
      intros j m' _ Hm'. unfold standardize_moment. do 3 frame_skip.
      by apply wr_results_frame. }
  intros m4 Hm4. simpl. frame_skip.
  by apply wr_results_frame.
Qed.

Lemma run_length (update : R → R → list R → outcome (list R)) :
  (∀ x w b b', update x w b = Ok b' → length b' = length b) →
  ∀ stream b b', run update stream b = Ok b' → length b' = length b.
Proof.
  intros Hlen stream. induction stream as [|[x w] stream IH]; intros b b'.
  - by intros [= ->].
  - simpl. intros H. apply bind_Ok_inv in H as (b1 & H1 & H).
    rewrite (IH _ _ H). by apply (Hlen x w).
Qed.

(** ** A second finalize call after a first one *)

Lemma sqrt_4 : sqrt 4 = 2.
Proof. replace 4 with (2 * 2) by lra. apply sqrt_square. lra. Qed.

Lemma finalize_order1_first_call :
  incstats_central_moment_finalize 1 true (Mem [0; 0; 4] [2; 0])
  = Ok (Mem [1; 0; 0] [2; 0]).
Proof.
  unfold incstats_central_moment_finalize, for_up.
  change (u64 (1 + 1)) with 2%Z.
  unfold rd, wr; exec. unfold standardize_moment, rd, wr; exec.
  rewrite fsqrt_Ok by lra. exec.
  rewrite incstats_pow_1, sqrt_4.
  change (incstats_pow 2 0) with 1. exec.
  f_equal. f_equal. list_eq; lra.
Qed.

Lemma finalize_order1_second_call :
  incstats_central_moment_finalize 1 true (Mem [1; 0; 0] [2; 0])
  = Err NotReal.
Proof.
  unfold incstats_central_moment_finalize, for_up.
  change (u64 (1 + 1)) with 2%Z.
  unfold rd, wr; exec. unfold standardize_moment, rd, wr; exec.
  rewrite fsqrt_Ok by lra. exec.
  rewrite incstats_pow_1, sqrt_0.
  change (incstats_pow 0 0) with 1. exec.
  by rewrite fdiv_zero.
Qed.

(** * The claims *)

(** C1. For p = 2, 3, 4 and every input stream, the generalised update run
    from the zero-initialised accumulator of length p + 1 gives, sample
    after sample, the outcome of the specialised update (variance, skewness,
    kurtosis): the same accumulator, or no real-valued accumulator in both.
    On the accumulator [b] that a stream leaves, with a non-zero cumulative
    weight and (for the orders 3 and 4) a positive variance, the raw and the
    standardised outputs of the generalised finalize are those of the
    specialised finalize: mean, variance, skewness, kurtosis. *)
Theorem central_moment_refines_specialised (stream : list (R * R)) :
  (run (fun x w b => incstats_central_moment x w b 2) stream (zeros 3)
   = run incstats_variance stream (zeros 3) ∧
   run (fun x w b => incstats_central_moment x w b 3) stream (zeros 4)
   = run incstats_skewness stream (zeros 4) ∧
   run (fun x w b => incstats_central_moment x w b 4) stream (zeros 5)
   = run incstats_kurtosis stream (zeros 5)) ∧
  (∀ b b0 res res',
     run incstats_variance stream (zeros 3) = Ok b →
     b !! 0%nat = Some b0 → b0 ≠ 0 →
     (4 ≤ length res)%nat → (2 ≤ length res')%nat →
     ∃ m m',
       incstats_central_moment_finalize 2 false (Mem res b) = Ok m ∧
       incstats_variance_finalize (Mem res' b) = Ok m' ∧
       m_results m !! 3%nat = m_results m' !! 0%nat ∧
       m_results m !! 2%nat = m_results m' !! 1%nat) ∧
  (∀ b b0 b2 res res',
     run incstats_skewness stream (zeros 4) = Ok b →
     b !! 0%nat = Some b0 → b !! 2%nat = Some b2 → b0 ≠ 0 → 0 < b2 / b0 →
     (5 ≤ length res)%nat → (3 ≤ length res')%nat →
     ∃ mr ms m',
       incstats_central_moment_finalize 3 false (Mem res b) = Ok mr ∧
       incstats_central_moment_finalize 3 true (Mem res b) = Ok ms ∧
       incstats_skewness_finalize (Mem res' b) = Ok m' ∧
       m_results mr !! 4%nat = m_results m' !! 0%nat ∧
       m_results mr !! 2%nat = m_results m' !! 1%nat ∧
       m_results ms !! 4%nat = m_results m' !! 0%nat ∧
       m_results ms !! 3%nat = m_results m' !! 2%nat) ∧
  (∀ b b0 b2 res res',
     run incstats_kurtosis stream (zeros 5) = Ok b →
     b !! 0%nat = Some b0 → b !! 2%nat = Some b2 → b0 ≠ 0 → 0 < b2 / b0 →
     (6 ≤ length res)%nat → (4 ≤ length res')%nat →
     ∃ mr ms m',
       incstats_central_moment_finalize 4 false (Mem res b) = Ok mr ∧
       incstats_central_moment_finalize 4 true (Mem res b) = Ok ms ∧
       incstats_kurtosis_finalize (Mem res' b) = Ok m' ∧
       m_results mr !! 5%nat = m_results m' !! 0%nat ∧
       m_results mr !! 2%nat = m_results m' !! 1%nat ∧
       m_results ms !! 5%nat = m_results m' !! 0%nat ∧
       m_results ms !! 3%nat = m_results m' !! 2%nat ∧
       m_results ms !! 4%nat = m_results m' !! 3%nat).
Proof.
  split; [apply updates_agree|]. split; [|split].
  - intros b b0 res res' Hrun H0 Hn Hr Hr'.
    apply (run_length _ incstats_variance_length) in Hrun.
    rewrite length_zeros in Hrun.
    destruct b as [|c0 [|c1 [|c2 [|]]]]; try discriminate Hrun.
    injection H0 as ->. by apply finalize_2_agrees.
  - intros b b0 b2 res res' Hrun H0 H2 Hn Hv Hr Hr'.
    apply (run_length _ incstats_skewness_length) in Hrun.
    rewrite length_zeros in Hrun.
    destruct b as [|c0 [|c1 [|c2 [|c3 [|]]]]]; try discriminate Hrun.
    injection H0 as ->. injection H2 as ->. by apply finalize_3_agrees.
  - intros b b0 b2 res res' Hrun H0 H2 Hn Hv Hr Hr'.
    apply (run_length _ incstats_kurtosis_length) in Hrun.
    rewrite length_zeros in Hrun.
    destruct b as [|c0 [|c1 [|c2 [|c3 [|c4 [|]]]]]]; try discriminate Hrun.
    injection H0 as ->. injection H2 as ->. by apply finalize_4_agrees.
Qed.

Lemma kurtosis_run_example :
  run incstats_kurtosis [(1, 1); (3, 1)] (zeros 5) = Ok [2; 2; 2; 0; 2].
Proof.
  unfold zeros. cbn [run replicate].
  rewrite incstats_kurtosis_step, bind_Ok by lra.
  rewrite incstats_kurtosis_step, bind_Ok by lra.
  list_eq; unfold next_mean, incr_d, incr_e; eval_ints; field; lra.
Qed.

Lemma central_moment_refines_specialised_witness :
  ∃ ms m',
    incstats_central_moment_finalize 4 true (Mem (zeros 6) [2; 2; 2; 0; 2])
    = Ok ms ∧
    incstats_kurtosis_finalize (Mem (zeros 4) [2; 2; 2; 0; 2]) = Ok m' ∧
    m_results ms !! 4%nat = m_results m' !! 3%nat.
Proof.
  destruct (central_moment_refines_specialised [(1, 1); (3, 1)])
    as (_ & _ & _ & H4).
  destruct (H4 [2; 2; 2; 0; 2] 2 2 (zeros 6) (zeros 4)
              kurtosis_run_example eq_refl eq_refl
              ltac:(lra) ltac:(lra) ltac:(simpl; lia) ltac:(simpl; lia))
    as (mr & ms & m' & _ & Hs & Hk & _ & _ & _ & _ & H44).
  exists ms, m'. done.
Defined.

(** C2. For every update function of the family and every finite sequence
    of samples with positive weights, applied to a zero-initialised
    accumulator (of the length the function works on; [max(2, p + 1)] for the
    generalised update of order p), the run returns, slot 0 is the sum of
    the weights and, when there is at least one sample, slot 1 is the
    weighted mean [sum w x / sum w]. *)
Theorem weight_and_mean_invariant (stream : list (R * R)) :
  Forall (fun s => 0 < snd s) stream →
  keeps_weight_and_mean incstats_mean 2 stream ∧
  keeps_weight_and_mean incstats_variance 3 stream ∧
  keeps_weight_and_mean incstats_skewness 4 stream ∧
  keeps_weight_and_mean incstats_kurtosis 5 stream ∧
  ∀ p, (0 ≤ p ≤ UINT64_MAX)%Z →
       keeps_weight_and_mean (fun x w b => incstats_central_moment x w b p)
         (Z.to_nat (Z.max 2 (p + 1))) stream.
Proof.
  intros Hall. unfold keeps_weight_and_mean.
  repeat split.
  - destruct (run_zeros_weight_mean incstats_mean 2 incstats_mean_mean
                stream 2 Hall) as (b & Hrun & _ & H0 & H1); [lia..|]. eauto.
  - destruct (run_zeros_weight_mean incstats_variance 3
                incstats_variance_mean stream 3 Hall)
      as (b & Hrun & _ & H0 & H1); [lia..|]. eauto.
  - destruct (run_zeros_weight_mean incstats_skewness 4
                incstats_skewness_mean stream 4 Hall)
      as (b & Hrun & _ & H0 & H1); [lia..|]. eauto.
  - destruct (run_zeros_weight_mean incstats_kurtosis 5
                incstats_kurtosis_mean stream 5 Hall)
      as (b & Hrun & _ & H0 & H1); [lia..|]. eauto.
  - intros p Hp.
    destruct (run_zeros_weight_mean
                (fun x w b => incstats_central_moment x w b p)
                (Z.to_nat (Z.max 2 (p + 1)))
                ltac:(intros x w buffer b0 b1 Hlen;
                      apply incstats_central_moment_mean; [done | lia])
                stream (Z.to_nat (Z.max 2 (p + 1))) Hall)
      as (b & Hrun & _ & H0 & H1); [lia..|]. eauto.
Qed.

Lemma weight_and_mean_invariant_witness :
  keeps_weight_and_mean (fun x w b => incstats_central_moment x w b 3) 4
    [(1, 1); (3, 1)].
Proof.
  destruct (weight_and_mean_invariant [(1, 1); (3, 1)])
    as (_ & _ & _ & _ & H).
  - repeat constructor; simpl; lra.
  - apply (H 3%Z). unfold UINT64_MAX. lia.
Defined.

(** C3. A call of the generalised update is the snapshot formulation: the
    in-place loop, which overwrites the accumulator in descending order and
    updates slots 1 and 0 last, has the outcome of computing every new
    value from the accumulator as it is before the call and committing the
    values at the end.  No slot is read after it has been written: the
    update of order i reads the slots 0..i, and the loop has by then
    written slots above i only. *)
Theorem in_place_update_is_snapshot_update (x w : R) (buffer : list R)
    (p : Z) :
  (0 ≤ p ≤ UINT64_MAX)%Z →
  incstats_central_moment x w buffer p = central_moment_snapshot x w buffer p.
Proof.
  intros Hp. unfold incstats_central_moment, central_moment_snapshot.
  destruct (load buffer 0) as [b0|]; [|done]. simpl. unfold for_down.
  destruct (decide (p = 0%Z)) as [->|Hp0].
  - simpl. unfold update_mean_weight.
    destruct (load buffer 1) as [b1|]; [|done]. simpl.
    by destruct (w /? (b0 + w)).
  - rewrite (update_orders_snapshot x w (b0 + w) buffer)
      by (done || lia).
    destruct (staged_values x w (b0 + w) buffer (Z.to_nat (p - 1)) p)
      as [staged|e] eqn:Est; [|done].
    simpl.
    destruct (staged_values_commit x w (b0 + w) buffer (Z.to_nat (p - 1)) p
                buffer staged)
      as (cur' & Hc & Hl & H0 & H1); [lia | done | done |].
    rewrite Hc. simpl. unfold update_mean_weight.
    rewrite (load_agree cur' buffer 1) by done.
    destruct (load buffer 1) as [b1|]; [|done]. simpl.
    by destruct (w /? (b0 + w)).
Qed.

Lemma in_place_update_is_snapshot_update_witness :
  incstats_central_moment 3 1 [1; 1; 2; 0; 5] 4
  = central_moment_snapshot 3 1 [1; 1; 2; 0; 5] 4.
Proof.
  apply (in_place_update_is_snapshot_update 3 1 [1; 1; 2; 0; 5] 4).
  unfold UINT64_MAX. lia.
Defined.

(** C4, as stated: in a call of [incstats_kurtosis] the new order-4 slot is
    computed from the already-updated order-3 slot.  It fails on the
    accumulator [1; 0; 1; 0; 0] with the sample x = 1, w = 1: the call
    leaves 13/8 in slot 4, and the updated slot 3 (-3/2) would give 37/8. *)
Lemma kurtosis_order4_not_from_updated_order3 :
  ¬ order4_reads_updated_order3 1 1 [1; 0; 1; 0; 0].
Proof.
  intros H.
  destruct (H 1 0 1 0 0 _ eq_refl kurtosis_example) as (b3' & H3 & H4).
  injection H3 as <-. injection H4 as H4.
  unfold order4_value, incr_d, incr_e in H4. revert H4. eval_ints. lra.
Qed.

(** C4, amended. In a call of [incstats_kurtosis] the order-4 statement runs
    first: the new slot 4 is computed from the values of slots 3 and 2 as
    they are before the call, and only then is slot 3 updated (from the
    old slot 2). *)
Theorem kurtosis_order4_from_previous_order3 (x w b0 b1 b2 b3 b4 : R) :
  b0 + w ≠ 0 →
  ∃ buffer',
    incstats_kurtosis x w [b0; b1; b2; b3; b4] = Ok buffer' ∧
    buffer' !! 4%nat = Some (order4_value x w b0 b1 b2 b3 b4) ∧
    buffer' !! 3%nat
    = Some (b3 + 3 * b2 * incr_d x w b0 b1
            + b0 * incstats_pow (incr_d x w b0 b1) 3
            + w * incstats_pow (incr_e x w b0 b1) 3).
Proof.
  intros H. eexists. rewrite incstats_kurtosis_step by done. done.
Qed.

Lemma kurtosis_order4_from_previous_order3_witness :
  ∃ buffer',
    incstats_kurtosis 1 1 [1; 0; 1; 0; 0] = Ok buffer' ∧
    buffer' !! 4%nat = Some (order4_value 1 1 1 0 1 0 0).
Proof.
  destruct (kurtosis_order4_from_previous_order3 1 1 1 0 1 0 0)
    as (b' & Hrun & H4 & _); [lra|].
  by exists b'.
Defined.

(** C5. For every order p >= 2 (below [UINT64_MAX], as the sizing contract
    forces), every accumulator of at least p + 1 slots with a positive
    cumulative weight and every results array of at least p + 2 slots, the
    generalised finalize returns, keeps the accumulator, and leaves in
    [results]: 1 in slot 0, 0 in slot 1, [buffer[i] / buffer[0]] in every
    slot i of 2..p, each of these divided by [sqrt(variance)^i] when
    [standardize] is set (the variance being the raw [buffer[2] /
    buffer[0]], taken to be positive), the unstandardised mean [buffer[1]]
    in slot p + 1, and the former contents everywhere else. *)
Theorem central_moment_finalize_writes (p : Z) (standardize : bool)
    (results buffer : list R) (b0 b1 b2 : R) :
  (2 ≤ p < UINT64_MAX)%Z →
  (p + 1 ≤ Z.of_nat (length buffer))%Z →
  (p + 2 ≤ Z.of_nat (length results))%Z →
  buffer !! 0%nat = Some b0 → buffer !! 1%nat = Some b1 →
  buffer !! 2%nat = Some b2 →
  0 < b0 → (standardize = true → 0 < b2 / b0) →
  ∃ results',
    incstats_central_moment_finalize p standardize (Mem results buffer)
    = Ok (Mem results' buffer) ∧
    results' !! 0%nat = Some (standardized standardize (b2 / b0) 0 1) ∧
    results' !! 1%nat = Some (standardized standardize (b2 / b0) 1 0) ∧
    (∀ i bi, (2 ≤ i ≤ p)%Z → buffer !! Z.to_nat i = Some bi →
             results' !! Z.to_nat i
             = Some (standardized standardize (b2 / b0) i (bi / b0))) ∧
    results' !! Z.to_nat (p + 1) = Some b1 ∧
    length results' = length results ∧
    (∀ j : nat, (p + 1 < Z.of_nat j)%Z → results' !! j = results !! j).
Proof.
  intros Hp Hlb Hlr H0 H1 H2 Hpos Hstd.
  destruct (central_moment_finalize_spec p standardize results buffer
              b0 b1 b2) as (r' & Hrun & Hlen & Hk);
    [done | done | done | done | done | done | lra | done |].
  exists r'. split; [done|].
  split; [by rewrite Hk|].
  split; [by rewrite Hk|].
  split; [|split; [|split; [done|]]].
  - intros i bi Hi Hbi. rewrite Hk, Hbi.
    rewrite !decide_False by lia. rewrite decide_True by lia.
    simpl. by rewrite Z2Nat.id by lia.
  - rewrite Hk. rewrite !decide_False by lia. by rewrite decide_True by lia.
  - intros j Hj. rewrite Hk. by rewrite !decide_False by lia.
Qed.

Lemma central_moment_finalize_writes_witness :
  ∃ results',
    incstats_central_moment_finalize 3 true
      (Mem [7; 7; 7; 7; 7; 7] [2; 5; 8; 6])
    = Ok (Mem results' [2; 5; 8; 6]) ∧
    results' !! 3%nat = Some (standardized true (8 / 2) 3 (6 / 2)) ∧
    results' !! 4%nat = Some 5 ∧
    results' !! 5%nat = Some 7.
Proof.
  destruct (central_moment_finalize_writes 3 true [7; 7; 7; 7; 7; 7]
              [2; 5; 8; 6] 2 5 8)
    as (r' & Hrun & _ & _ & Hi & Hm & _ & Hrest);
    [unfold UINT64_MAX; lia | simpl; lia | simpl; lia | done | done | done
    | lra | intros _; lra |].
  exists r'. split; [done|]. split; [|split].
  - apply (Hi 3%Z 6); [lia | done].
  - exact Hm.
  - rewrite (Hrest 5%nat) by lia. done.
Defined.

(** C6. For every non-empty sequence of samples with positive weights fed
    through [incstats_variance] from three zeros, the run returns an
    accumulator on which [incstats_variance_finalize] writes
    [buffer[2] / buffer[0]] into [results[1]], and this number is the
    population variance [sum w (x - mean)^2 / sum w] about the weighted mean
    [mean = sum w x / sum w]: the divisor is the sum of the weights, without
    any sample correction. *)
Theorem population_variance (stream : list (R * R)) (results : list R) :
  stream ≠ [] → Forall (fun s => 0 < snd s) stream →
  (2 ≤ length results)%nat →
  ∃ b0 b1 b2 results',
    run incstats_variance stream (zeros 3) = Ok [b0; b1; b2] ∧
    incstats_variance_finalize (Mem results [b0; b1; b2])
    = Ok (Mem results' [b0; b1; b2]) ∧
    results' !! 1%nat = Some (b2 / b0) ∧
    b2 / b0
    = sum_w_dev2 (weighted_mean stream) stream / sum_w stream.
Proof.
  intros Hne Hall Hr.
  destruct (run_variance_zeros stream Hne Hall)
    as (b0 & b1 & b2 & Hrun & H0 & Hpos & H1 & H2).
  destruct results as [|r0 [|r1 rl]]; [simpl in Hr; lia..|].
  exists b0, b1, b2. eexists.
  split; [done|].
  rewrite incstats_variance_finalize_eval by lra.
  split; [done|]. split; [done|].
  by rewrite H2, H0.
Qed.

Lemma population_variance_witness :
  ∃ b0 b1 b2,
    run incstats_variance [(1, 1); (3, 1)] (zeros 3) = Ok [b0; b1; b2] ∧
    b2 / b0
    = sum_w_dev2 (weighted_mean [(1, 1); (3, 1)]) [(1, 1); (3, 1)]
      / sum_w [(1, 1); (3, 1)].
Proof.
  destruct (population_variance [(1, 1); (3, 1)] [0; 0])
    as (b0 & b1 & b2 & r' & Hrun & _ & _ & Hv).
  - done.
  - repeat constructor; simpl; lra.
  - simpl. lia.
  - by exists b0, b1, b2.
Defined.

(** ** Zero weight and values that are not finite *)

Lemma finite_in_range (r : R) :
  - Nonfinite.overflow_threshold < r < Nonfinite.overflow_threshold →
  Nonfinite.finite r = Nonfinite.Finite r.
Proof.
  intros Hr. unfold Nonfinite.finite.
  destruct (Rle_dec _ _); [lra|]. destruct (Rle_dec _ _); [lra|]. done.
Qed.

Lemma finite_overflow (r : R) :
  Nonfinite.overflow_threshold <= r →
  Nonfinite.finite r = Nonfinite.Infinity false.
Proof. intros Hr. unfold Nonfinite.finite. by destruct (Rle_dec _ _). Qed.

Lemma div_finite (x y : R) :
  y ≠ 0 →
  Nonfinite.div (Nonfinite.Finite x) (Nonfinite.Finite y)
  = Nonfinite.finite (x / y).
Proof. intros Hy. unfold Nonfinite.div. by destruct (Req_dec_T y 0). Qed.

Lemma mul_zero_infinity (z : R) (s : bool) :
  z = 0 →
  Nonfinite.mul (Nonfinite.Finite z) (Nonfinite.Infinity s) = Nonfinite.NaN.
Proof. intros ->. unfold Nonfinite.mul. by destruct (Req_dec_T 0 0). Qed.

Lemma double_store_Ok (a : list Nonfinite.double) (i : Z)
    (v : Nonfinite.double) :
  (0 ≤ i < Z.of_nat (length a))%Z →
  Nonfinite.store a i v = Ok (<[Z.to_nat i := v]> a).
Proof. intros Hi. unfold Nonfinite.store. by rewrite decide_True. Qed.

(** Evaluates double arithmetic on explicit finite values. *)
Ltac eval_doubles :=
  repeat first
    [ progress cbn [Nonfinite.add Nonfinite.sub Nonfinite.mul Nonfinite.neg
                    Nonfinite.pow_loop negb xorb Bool.eqb]
    | progress (rewrite finite_in_range
                  by (unfold Nonfinite.overflow_threshold; lra))
    | progress (rewrite finite_overflow
                  by (unfold Nonfinite.overflow_threshold; lra))
    | progress (rewrite div_finite by lra)
    | progress (rewrite mul_zero_infinity by lra) ].

Ltac exec_doubles :=
  simpl;
  repeat (progress (rewrite double_store_Ok by (simpl; lia)); simpl).

(** C7, as stated: an update with weight 0 leaves the accumulator
    unchanged for every value x.  It fails where a value is not finite.
    [incstats_kurtosis(1e80, 0, buffer)] on the accumulator
    [{2, 1, 3, 4, 5}]: the deviation [e] is about [1e80], its fourth power
    overflows to infinity, and the weight 0 times infinity is NaN, which
    the order-4 statement adds into slot 4.
    [incstats_mean(inf, 0, buffer)] on [{2, 1}]: [0 / 2 * (inf - 1)] is
    0 times infinity, and slot 1 becomes NaN.  Neither call leaves the
    accumulator unchanged. *)
Lemma zero_weight_not_identity_on_doubles :
  Nonfinite.incstats_kurtosis (Nonfinite.Finite 1e80) (Nonfinite.Finite 0)
    [Nonfinite.Finite 2; Nonfinite.Finite 1; Nonfinite.Finite 3;
     Nonfinite.Finite 4; Nonfinite.Finite 5]
  = Ok [Nonfinite.Finite 2; Nonfinite.Finite 1; Nonfinite.Finite 3;
        Nonfinite.Finite 4; Nonfinite.NaN] ∧
  Nonfinite.incstats_kurtosis (Nonfinite.Finite 1e80) (Nonfinite.Finite 0)
    [Nonfinite.Finite 2; Nonfinite.Finite 1; Nonfinite.Finite 3;
     Nonfinite.Finite 4; Nonfinite.Finite 5]
  ≠ Ok [Nonfinite.Finite 2; Nonfinite.Finite 1; Nonfinite.Finite 3;
        Nonfinite.Finite 4; Nonfinite.Finite 5] ∧
  Nonfinite.incstats_mean (Nonfinite.Infinity false) (Nonfinite.Finite 0)
    [Nonfinite.Finite 2; Nonfinite.Finite 1]
  = Ok [Nonfinite.Finite 2; Nonfinite.NaN] ∧
  Nonfinite.incstats_mean (Nonfinite.Infinity false) (Nonfinite.Finite 0)
    [Nonfinite.Finite 2; Nonfinite.Finite 1]
  ≠ Ok [Nonfinite.Finite 2; Nonfinite.Finite 1].
Proof.
  assert (Hk : Nonfinite.incstats_kurtosis (Nonfinite.Finite 1e80)
                 (Nonfinite.Finite 0)
                 [Nonfinite.Finite 2; Nonfinite.Finite 1; Nonfinite.Finite 3;
                  Nonfinite.Finite 4; Nonfinite.Finite 5]
               = Ok [Nonfinite.Finite 2; Nonfinite.Finite 1;
                     Nonfinite.Finite 3; Nonfinite.Finite 4; Nonfinite.NaN]).
  { unfold Nonfinite.incstats_kurtosis. exec_doubles.
    unfold Nonfinite.incstats_pow.
    change (Z.to_nat (u64 (2 - 1))) with 1%nat.
    change (Z.to_nat (u64 (3 - 1))) with 2%nat.
    change (Z.to_nat (u64 (4 - 1))) with 3%nat.
    cbn [Z.eqb]. eval_doubles.
    destruct (Req_dec_T (2 + 0) 0) as [|_]; [lra|].
    destruct (Req_dec_T 0 0) as [_|]; [|lra].
    eval_doubles.
    replace (2 + 0) with 2 by lra.
    repeat f_equal; lra. }
  assert (Hm : Nonfinite.incstats_mean (Nonfinite.Infinity false)
                 (Nonfinite.Finite 0)
                 [Nonfinite.Finite 2; Nonfinite.Finite 1]
               = Ok [Nonfinite.Finite 2; Nonfinite.NaN]).
  { unfold Nonfinite.incstats_mean. exec_doubles. eval_doubles.
    replace (2 + 0) with 2 by lra.
    destruct (Req_dec_T 2 0) as [|_]; [lra|].
    eval_doubles.
    by destruct (Req_dec_T (0 / 2) 0) as [_|]; [|lra]. }
  rewrite Hk, Hm. repeat split; discriminate.
Qed.

(** C7, amended. In exact arithmetic, that is for every real value x, with
    no intermediate result that overflows or is otherwise not finite: for
    every update function of the family and every accumulator (long enough
    for the function) whose slot 0 is strictly positive, the update with
    weight 0 returns the accumulator unchanged, slot by slot. *)
Theorem zero_weight_is_identity (x : R) (buffer : list R) (b0 : R) :
  buffer !! 0%nat = Some b0 → 0 < b0 →
  ((2 ≤ length buffer)%nat → incstats_mean x 0 buffer = Ok buffer) ∧
  ((3 ≤ length buffer)%nat → incstats_variance x 0 buffer = Ok buffer) ∧
  ((4 ≤ length buffer)%nat → incstats_skewness x 0 buffer = Ok buffer) ∧
  ((5 ≤ length buffer)%nat → incstats_kurtosis x 0 buffer = Ok buffer) ∧
  (∀ p, (0 ≤ p ≤ UINT64_MAX)%Z →
        (Z.max 2 (p + 1) ≤ Z.of_nat (length buffer))%Z →
        incstats_central_moment x 0 buffer p = Ok buffer).
Proof.
  intros H0 Hpos. repeat split.
  - intros Hlen. destruct buffer as [|c0 [|c1 l]]; [simpl in Hlen; lia..|].
    injection H0 as ->. by apply incstats_mean_zero_weight.
  - intros Hlen.
    destruct buffer as [|c0 [|c1 [|c2 l]]]; [simpl in Hlen; lia..|].
    injection H0 as ->. by apply incstats_variance_zero_weight.
  - intros Hlen.
    destruct buffer as [|c0 [|c1 [|c2 [|c3 l]]]]; [simpl in Hlen; lia..|].
    injection H0 as ->. by apply incstats_skewness_zero_weight.
  - intros Hlen.
    destruct buffer as [|c0 [|c1 [|c2 [|c3 [|c4 l]]]]];
      [simpl in Hlen; lia..|].
    injection H0 as ->. by apply incstats_kurtosis_zero_weight.
  - intros p Hp Hlen. by apply (incstats_central_moment_zero_weight x b0).
Qed.

Lemma zero_weight_is_identity_witness :
  incstats_kurtosis 7 0 [2; 1; 3; 4; 5] = Ok [2; 1; 3; 4; 5] ∧
  incstats_central_moment 7 0 [2; 1; 3; 4; 5] 4 = Ok [2; 1; 3; 4; 5].
Proof.
  destruct (zero_weight_is_identity 7 [2; 1; 3; 4; 5] 2)
    as (_ & _ & _ & Hk & Hc); [done | lra |].
  split.
  - apply Hk. simpl. lia.
  - apply Hc; [unfold UINT64_MAX; lia | simpl; lia].
Defined.

(** ** Finalize: what holds of every call *)

(** Every finalize function that returns leaves the accumulator as it
    was, and the results array at its length. *)
Lemma finalize_keeps_accumulator (m m' : mem) :
  (incstats_mean_finalize m = Ok m' → same_shape m m') ∧
  (incstats_variance_finalize m = Ok m' → same_shape m m') ∧
  (incstats_skewness_finalize m = Ok m' → same_shape m m') ∧
  (incstats_kurtosis_finalize m = Ok m' → same_shape m m') ∧
  (∀ p standardize,
     incstats_central_moment_finalize p standardize m = Ok m' →
     same_shape m m').
Proof.
  split; [|split; [|split; [|split]]]; try intros p standardize; intros H;
    refine (post_Ok_elim any_error (same_shape m) _ m' _ H).
  - apply incstats_mean_finalize_frame.
  - apply incstats_variance_finalize_frame, same_shape_refl.
  - apply incstats_skewness_finalize_frame.
  - apply incstats_kurtosis_finalize_frame.
  - apply incstats_central_moment_finalize_frame.
Qed.

(** An update that follows a finalize call sees the accumulator that it
    would have seen without the call. *)
Lemma update_after_finalize
    (update : R → R → list R → outcome (list R)) (x w : R) (m m' : mem)
    (p : Z) (standardize : bool) :
  incstats_central_moment_finalize p standardize m = Ok m' →
  update x w (m_buffer m') = update x w (m_buffer m).
Proof.
  intros H.
  destruct (finalize_keeps_accumulator m m') as (_ & _ & _ & _ & Hc).
  by destruct (Hc p standardize H) as [-> _].
Qed.

(** From order 2 on, a second finalize call writes what the first one
    wrote. *)
Lemma finalize_twice_from_order2 (p : Z) (standardize : bool)
    (results buffer : list R) (b0 b1 b2 : R) :
  (2 ≤ p < UINT64_MAX)%Z →
  (p + 1 ≤ Z.of_nat (length buffer))%Z →
  (p + 2 ≤ Z.of_nat (length results))%Z →
  buffer !! 0%nat = Some b0 → buffer !! 1%nat = Some b1 →
  buffer !! 2%nat = Some b2 →
  b0 ≠ 0 → (standardize = true → 0 < b2 / b0) →
  ∃ results',
    incstats_central_moment_finalize p standardize (Mem results buffer)
    = Ok (Mem results' buffer) ∧
    incstats_central_moment_finalize p standardize (Mem results' buffer)
    = Ok (Mem results' buffer).
Proof.
  intros Hp Hlb Hlr H0 H1 H2 Hn Hstd.
  destruct (central_moment_finalize_spec p standardize results buffer
              b0 b1 b2) as (r' & Hrun & Hlen & Hk); [done..|].
  destruct (central_moment_finalize_spec p standardize r' buffer
              b0 b1 b2) as (r'' & Hrun' & Hlen' & Hk');
    [done | done | lia | done..|].
  exists r'. split; [done|]. rewrite Hrun'. f_equal. f_equal.
  apply list_eq. intros k. rewrite Hk', Hk.
  repeat (destruct (decide _); [done|]). done.
Qed.

(** C8 at the input where it fails: order 1 with [standardize] set.  The
    accumulator [2; 0] (two samples x = 0 of weight 1) is finalized into a
    results array that holds 4 in slot 2.  The first call standardises by
    that stale slot, returns [1; 0; 0] and leaves the mean, 0, in slot 2;
    the accumulator is untouched.  The second call reads slot 2 as the
    variance and divides 0 by 0: it does not yield the results of the first
    call. *)
Theorem finalize_twice_order1_differs :
  incstats_central_moment_finalize 1 true (Mem [0; 0; 4] [2; 0])
  = Ok (Mem [1; 0; 0] [2; 0]) ∧
  incstats_central_moment_finalize 1 true (Mem [1; 0; 0] [2; 0])
  = Err NotReal.
Proof.
  split;
    [apply finalize_order1_first_call | apply finalize_order1_second_call].
Qed.

(** ** The sizing contract *)

Lemma post_only_not_real_inv {A : Type} (Q : A → Prop) (o : outcome A) :
  post only_not_real Q o → ∀ e, o = Err e → e = NotReal.
Proof. intros H e ->. exact H. Qed.

(** C9, as stated: an accumulator of p + 1 slots and a results array of
    p + 2 slots keep every access in bounds.  At order 0 an accumulator of
    one slot meets the contract, and both the update and the finalize read
    [buffer[1]]. *)
Lemma sizing_contract_fails_at_order0 :
  (0 + 1 ≤ Z.of_nat (length [0]))%Z ∧
  incstats_central_moment 1 1 [0] 0 = Err OutOfBounds ∧
  (0 + 2 ≤ Z.of_nat (length [0; 0]))%Z ∧
  incstats_central_moment_finalize 0 false (Mem [0; 0] [1])
  = Err OutOfBounds.
Proof. repeat split; simpl; lia. Qed.

(** C9, amended. With an accumulator of at least [max(2, p + 1)] slots,
    every access of the generalised update is in bounds: the call returns,
    or stops on a division by zero, never on an access; it returns whenever
    the new cumulative weight is not zero.  With, in addition, a results
    array of at least p + 2 slots, every access of the generalised finalize
    is in bounds when p >= 1 or [standardize] is not set. *)
Theorem sizing_contract (x w : R) (p : Z) (standardize : bool)
    (buffer : list R) (m : mem) :
  (0 ≤ p ≤ UINT64_MAX)%Z →
  ((Z.max 2 (p + 1) ≤ Z.of_nat (length buffer))%Z →
   incstats_central_moment x w buffer p ≠ Err OutOfBounds ∧
   (∀ e, incstats_central_moment x w buffer p = Err e → e = NotReal) ∧
   (∀ b0, buffer !! 0%nat = Some b0 → b0 + w ≠ 0 →
          ∃ buffer', incstats_central_moment x w buffer p = Ok buffer')) ∧
  ((p + 2 ≤ Z.of_nat (length (m_results m)))%Z →
   (Z.max 2 (p + 1) ≤ Z.of_nat (length (m_buffer m)))%Z →
   (standardize = true → (1 ≤ p)%Z) →
   incstats_central_moment_finalize p standardize m ≠ Err OutOfBounds ∧
   (∀ e, incstats_central_moment_finalize p standardize m = Err e →
         e = NotReal)).
Proof.
  intros Hp. split.
  - intros Hlen.
    pose proof (incstats_central_moment_safe only_not_real eq_refl x w
                  buffer p Hp Hlen) as Hsafe.
    split; [by apply post_not_out_of_bounds in Hsafe|].
    split; [exact (post_only_not_real_inv _ _ Hsafe)|].
    intros b0 H0 Hn.
    destruct (lookup_lt_is_Some_2 buffer 1) as [b1 H1]; [lia|].
    destruct (incstats_central_moment_mean p x w buffer b0 b1)
      as (b' & Hrun & _); [done..|].
    eauto.
  - intros Hr Hb Hstd.
    pose proof (incstats_central_moment_finalize_safe only_not_real eq_refl
                  p standardize m Hp Hr Hb Hstd) as Hsafe.
    split; [by apply post_not_out_of_bounds in Hsafe|].
    exact (post_only_not_real_inv _ _ Hsafe).
Qed.

Lemma sizing_contract_witness :
  incstats_central_moment 1 1 [0; 0] 0 ≠ Err OutOfBounds ∧
  incstats_central_moment_finalize 0 false (Mem [0; 0] [1; 0])
  ≠ Err OutOfBounds.
Proof.
  destruct (sizing_contract 1 1 0 false [0; 0] (Mem [0; 0] [1; 0]))
    as [Hu Hf]; [unfold UINT64_MAX; lia|].
  split.
  - apply Hu. simpl. lia.
  - apply Hf; [simpl; lia | simpl; lia | discriminate].
Defined.

(** The missing case behind C8 and behind the restriction in C9: with
    [standardize] set, the finalize reads [results[2]] as the variance at
    every order, also at the orders 0 and 1 where it has not written it.
    At order 0 this is a read past a results array of p + 2 slots. *)
Lemma finalize_order0_reads_results_2 :
  incstats_central_moment_finalize 0 true (Mem [0; 0] [1; 0])
  = Err OutOfBounds.
Proof. reflexivity. Qed.

(** C10. For p = 0 and p = 1, on an accumulator of at least two slots, the
    generalised update has the outcome of [incstats_mean]: when the new
    cumulative weight is not zero it returns the accumulator with slot 0
    set to the old weight plus w, slot 1 set to the old mean plus
    [(w / new weight) (x - old mean)], and every other slot as it was. *)
Theorem central_moment_low_order (x w : R) (buffer : list R) (p : Z) :
  (p = 0 ∨ p = 1)%Z → (2 ≤ length buffer)%nat →
  incstats_central_moment x w buffer p = incstats_mean x w buffer ∧
  ∀ b0 b1,
    buffer !! 0%nat = Some b0 → buffer !! 1%nat = Some b1 → b0 + w ≠ 0 →
    incstats_central_moment x w buffer p
    = Ok (<[0%nat := b0 + w]>
            (<[1%nat := b1 + w / (b0 + w) * (x - b1)]> buffer)).
Proof.
  intros Hp Hlen. split; [by apply central_moment_low_order_mean|].
  intros b0 b1 H0 H1 Hn.
  rewrite central_moment_low_order_mean by done.
  destruct buffer as [|c0 [|c1 l]]; [simpl in Hlen; lia..|].
  injection H0 as ->. injection H1 as ->.
  by rewrite incstats_mean_step.
Qed.

Lemma central_moment_low_order_witness :
  incstats_central_moment 3 1 [1; 1; 9] 1 = incstats_mean 3 1 [1; 1; 9] ∧
  incstats_central_moment 3 1 [1; 1; 9] 1
  = Ok (<[0%nat := 1 + 1]> (<[1%nat := 1 + 1 / (1 + 1) * (3 - 1)]> [1; 1; 9])).
Proof.
  destruct (central_moment_low_order 3 1 [1; 1; 9] 1) as [Heq Hval];
    [by right | simpl; lia |].
  split; [done|]. apply Hval; [done | done | lra].
Defined.

(** * Further properties of the code *)

(** ** Integer power *)

(** X1. In exact arithmetic (no product is rounded and none overflows),
    [incstats_pow x y] is the power [x^y] for every exponent of the type,
    with [x^0 = 1] for every base, zero included; hence, in exact
    arithmetic, it turns sums of exponents into products. *)
Theorem incstats_pow_power_laws (x : R) (y z : Z) :
  (0 ≤ y)%Z → (0 ≤ z)%Z → (y + z ≤ UINT64_MAX)%Z →
  incstats_pow x y = x ^ Z.to_nat y ∧
  incstats_pow x (y + z) = incstats_pow x y * incstats_pow x z.
Proof.
  intros Hy Hz Hyz. split.
  - apply incstats_pow_pow. lia.
  - rewrite !incstats_pow_pow by lia.
    rewrite Z2Nat.inj_add by lia. apply pow_add.
Qed.

Lemma incstats_pow_power_laws_witness :
  incstats_pow 0 0 = 0 ^ 0 ∧
  incstats_pow 2 (3 + 4) = incstats_pow 2 3 * incstats_pow 2 4.
Proof.
  split.
  - apply (incstats_pow_power_laws 0 0 0); unfold UINT64_MAX; lia.
  - apply (incstats_pow_power_laws 2 3 4); unfold UINT64_MAX; lia.
Defined.

(** ** Factorial *)

Lemma zfact_fact (n : nat) : Z.of_nat (fact n) = zfact n.
Proof.
  induction n as [|n IH]; [done|].
  cbn [zfact]. rewrite <- IH. change (fact (S n)) with (S n * fact n)%nat.
  by rewrite Nat2Z.inj_mul.
Qed.

Lemma zfact_pos (n : nat) : (1 ≤ zfact n)%Z.
Proof. induction n as [|n IH]; cbn [zfact]; nia. Qed.

Lemma zfact_mono (n m : nat) : (n ≤ m)%nat → (zfact n ≤ zfact m)%Z.
Proof.
  induction 1 as [|m _ IH]; [lia|].
  cbn [zfact]. pose proof (zfact_pos m). nia.
Qed.

Lemma u64_mul_l (a b : Z) : u64 (u64 a * b) = u64 (a * b).
Proof. unfold u64. apply Z.mul_mod_idemp_l. unfold UINT64_MAX. lia. Qed.

(** After [fuel] turns from [i = m + 1] and [result = m!], the loop holds
    [(m + fuel)!], wrapped. *)
Lemma factorial_loop_zfact (fuel m : nat) :
  factorial_loop fuel (Z.of_nat m + 1) (u64 (zfact m))
  = u64 (zfact (m + fuel)).
Proof.
  revert m. induction fuel as [|fuel IH]; intros m.
  - by rewrite Nat.add_0_r.
  - cbn [factorial_loop]. rewrite u64_mul_l.
    replace (zfact m * (Z.of_nat m + 1))%Z with (zfact (S m))
      by (cbn [zfact]; lia).
    replace (Z.of_nat m + 1 + 1)%Z with (Z.of_nat (S m) + 1)%Z by lia.
    rewrite IH. f_equal. f_equal. lia.
Qed.

Lemma factorial_wraps (n : Z) :
  (0 ≤ n < UINT64_MAX)%Z →
  factorial n = Ok (u64 (zfact (Z.to_nat n))).
Proof.
  intros Hn. unfold factorial.
  rewrite (proj2 (Z.eqb_neq _ _)) by lia. f_equal.
  destruct (decide (n = 0%Z)) as [->|Hn0]; [done|].
  pose proof (factorial_loop_zfact (Z.to_nat (n - 1)) 1) as H.
  change (Z.of_nat 1 + 1)%Z with 2%Z in H.
  change (u64 (zfact 1)) with 1%Z in H.
  rewrite H. f_equal. f_equal. lia.
Qed.

(** X2. For every [n] below [UINT64_MAX], [factorial n] returns [n!]
    reduced modulo 2^64; it is [n!] itself exactly when [n <= 20]. *)
Theorem factorial_exact_up_to_20 (n : Z) :
  (0 ≤ n < UINT64_MAX)%Z →
  factorial n = Ok (Z.of_nat (fact (Z.to_nat n)) mod 2 ^ 64)%Z ∧
  (factorial n = Ok (Z.of_nat (fact (Z.to_nat n))) ↔ (n ≤ 20)%Z).
Proof.
  intros Hn. rewrite factorial_wraps, zfact_fact by done.
  split; [done|].
  assert (H20 : zfact 20 = 2432902008176640000%Z) by (by vm_compute).
  assert (H21 : zfact 21 = 51090942171709440000%Z) by (by vm_compute).
  split.
  - intros [= H]. destruct (decide (n ≤ 20)%Z) as [|Hgt]; [done|].
    pose proof (zfact_mono 21 (Z.to_nat n) ltac:(lia)) as Hm.
    pose proof (u64_nonneg (zfact (Z.to_nat n))) as Hu.
    unfold UINT64_MAX in Hu. lia.
  - intros Hle. f_equal. apply u64_small.
    pose proof (zfact_mono (Z.to_nat n) 20 ltac:(lia)) as Hm.
    pose proof (zfact_pos (Z.to_nat n)). unfold UINT64_MAX. lia.
Qed.

Lemma factorial_exact_up_to_20_witness :
  factorial 20 = Ok (Z.of_nat (fact (Z.to_nat 20))) ∧
  factorial 21 ≠ Ok (Z.of_nat (fact (Z.to_nat 21))).
Proof.
  split.
  - apply (factorial_exact_up_to_20 20); [unfold UINT64_MAX|]; lia.
  - intros H.
    apply (factorial_exact_up_to_20 21) in H; [|unfold UINT64_MAX]; lia.
Defined.

(** ** Binomial coefficient *)

Lemma binomial_exact_table :
  forallb (fun n => forallb (binomial_exact n) (seq 0 (S n))) (seq 0 63)
  = true.
Proof. by vm_compute. Qed.

(** X3. For every [0 <= k <= n <= 62], [n_choose_k n k] returns the
    binomial coefficient of its documentation, [n! / (k! (n - k)!)]: the
    number [c] with [c * k! * (n - k)! = n!].  No intermediate product
    leaves the 64 bits in that range. *)
Theorem n_choose_k_exact (n k : Z) :
  (0 ≤ k ≤ n)%Z → (n ≤ 62)%Z →
  ∃ c, n_choose_k n k = Ok c ∧
       (c * Z.of_nat (fact (Z.to_nat k)) * Z.of_nat (fact (Z.to_nat (n - k)))
        = Z.of_nat (fact (Z.to_nat n)))%Z.
Proof.
  intros Hk Hn.
  pose proof binomial_exact_table as Htab.
  rewrite forallb_forall in Htab.
  specialize (Htab (Z.to_nat n)
                ltac:(apply in_seq; lia)).
  rewrite forallb_forall in Htab.
  specialize (Htab (Z.to_nat k) ltac:(apply in_seq; lia)).
  unfold binomial_exact in Htab. rewrite !Z2Nat.id in Htab by lia.
  destruct (n_choose_k n k) as [c|e]; [|discriminate].
  exists c. split; [done|].
  apply Z.eqb_eq in Htab. rewrite !zfact_fact.
  by rewrite Z2Nat.inj_sub by lia.
Qed.

Lemma n_choose_k_exact_witness :
  ∃ c, n_choose_k 62 31 = Ok c ∧
       (c * Z.of_nat (fact (Z.to_nat 31))
        * Z.of_nat (fact (Z.to_nat (62 - 31)))
        = Z.of_nat (fact (Z.to_nat 62)))%Z.
Proof. apply (n_choose_k_exact 62 31); lia. Defined.






(** ** Extremum trackers *)

Lemma track_max_spec (seed : R) (xs : list R) :
  seed <= track incstats_max seed xs ∧
  Forall (fun x => x <= track incstats_max seed xs) xs ∧
  (track incstats_max seed xs = seed ∨ In (track incstats_max seed xs) xs).
Proof.
  revert seed. induction xs as [|x xs IH]; intros seed.
  - simpl. repeat split; [lra | constructor | by left].
  - cbn [track foldl]. fold (track incstats_max (incstats_max x seed) xs).
    destruct (IH (incstats_max x seed)) as (Hs & Hall & Hin).
    assert (Hstep : seed <= incstats_max x seed ∧ x <= incstats_max x seed ∧
                    (incstats_max x seed = seed ∨ incstats_max x seed = x)).
    { unfold incstats_max. destruct (Rlt_dec seed x); repeat split;
        (lra || by left || by right). }
    destruct Hstep as (H1 & H2 & H3).
    split; [lra|]. split.
    + constructor; [lra | done].
    + destruct Hin as [Heq|Hin]; [|by right; right].
      rewrite Heq. destruct H3 as [->| ->]; [by left | right; by left].
Qed.

Lemma track_min_spec (seed : R) (xs : list R) :
  track incstats_min seed xs <= seed ∧
  Forall (fun x => track incstats_min seed xs <= x) xs ∧
  (track incstats_min seed xs = seed ∨ In (track incstats_min seed xs) xs).
Proof.
  revert seed. induction xs as [|x xs IH]; intros seed.
  - simpl. repeat split; [lra | constructor | by left].
  - cbn [track foldl]. fold (track incstats_min (incstats_min x seed) xs).
    destruct (IH (incstats_min x seed)) as (Hs & Hall & Hin).
    assert (Hstep : incstats_min x seed <= seed ∧ incstats_min x seed <= x ∧
                    (incstats_min x seed = seed ∨ incstats_min x seed = x)).
    { unfold incstats_min. destruct (Rgt_dec seed x); repeat split;
        (lra || by left || by right). }
    destruct Hstep as (H1 & H2 & H3).
    split; [lra|]. split.
    + constructor; [lra | done].
    + destruct Hin as [Heq|Hin]; [|by right; right].
      rewrite Heq. destruct H3 as [->| ->]; [by left | right; by left].
Qed.

(** X5. [incstats_max], called on every value of a sequence from a seed,
    ends on the maximum of the seed and the values: an upper bound of them
    all that is one of them.  The order of the values does not matter; on
    no value at all the seed is kept. *)
Theorem incstats_max_tracks_maximum (seed : R) (xs ys : list R) :
  seed <= track incstats_max seed xs ∧
  Forall (fun x => x <= track incstats_max seed xs) xs ∧
  (track incstats_max seed xs = seed ∨ In (track incstats_max seed xs) xs) ∧
  (Permutation xs ys →
   track incstats_max seed ys = track incstats_max seed xs) ∧
  track incstats_max seed [] = seed.
Proof.
  destruct (track_max_spec seed xs) as (Hs & Hall & Hin).
  repeat split; try done.
  intros Hperm.
  destruct (track_max_spec seed ys) as (Hs' & Hall' & Hin').
  rewrite List.Forall_forall in Hall, Hall'.
  apply Rle_antisym.
  - destruct Hin' as [->|Hin']; [done|].
    apply Hall. by apply (Permutation_in _ (Permutation_sym Hperm)).
  - destruct Hin as [->|Hin]; [done|].
    apply Hall'. by apply (Permutation_in _ Hperm).
Qed.

Lemma incstats_max_tracks_maximum_witness :
  track incstats_max 0 [8; 3; 5] = track incstats_max 0 [3; 5; 8].
Proof.
  apply (incstats_max_tracks_maximum 0 [3; 5; 8] [8; 3; 5]).
  apply Permutation_sym, (Permutation_cons_append [3; 5] 8).
Defined.

(** X6. [incstats_min], called on every value of a sequence from a seed,
    ends on the minimum of the seed and the values: a lower bound of them
    all that is one of them.  The order of the values does not matter; on
    no value at all the seed is kept. *)
Theorem incstats_min_tracks_minimum (seed : R) (xs ys : list R) :
  track incstats_min seed xs <= seed ∧
  Forall (fun x => track incstats_min seed xs <= x) xs ∧
  (track incstats_min seed xs = seed ∨ In (track incstats_min seed xs) xs) ∧
  (Permutation xs ys →
   track incstats_min seed ys = track incstats_min seed xs) ∧
  track incstats_min seed [] = seed.
Proof.
  destruct (track_min_spec seed xs) as (Hs & Hall & Hin).
  repeat split; try done.
  intros Hperm.
  destruct (track_min_spec seed ys) as (Hs' & Hall' & Hin').
  rewrite List.Forall_forall in Hall, Hall'.
  apply Rle_antisym.
  - destruct Hin as [->|Hin]; [done|].
    apply Hall'. by apply (Permutation_in _ Hperm).
  - destruct Hin' as [->|Hin']; [done|].
    apply Hall. by apply (Permutation_in _ (Permutation_sym Hperm)).
Qed.

Lemma incstats_min_tracks_minimum_witness :
  track incstats_min 9 [8; 3; 5] = track incstats_min 9 [3; 5; 8].
Proof.
  apply (incstats_min_tracks_minimum 9 [3; 5; 8] [8; 3; 5]).
  apply Permutation_sym, (Permutation_cons_append [3; 5] 8).
Defined.

(** ** The specialised updates as one family *)

Lemma incstats_mean_not_real (x w b0 b1 : R) (l : list R) :
  b0 + w = 0 → incstats_mean x w (b0 :: b1 :: l) = Err NotReal.
Proof.
  intros H. unfold incstats_mean. exec. rewrite H, !fdiv_zero. done.
Qed.

(** The order-2 statement of [incstats_variance] and the one of
    [incstats_skewness] compute the same number. *)
Lemma order2_forms (x w b0 b1 b2 : R) :
  b0 + w ≠ 0 →
  b2 + w * (x - b1) * (x - next_mean x w b0 b1)
  = b2 + b0 * incstats_pow (incr_d x w b0 b1) 2
       + w * incstats_pow (incr_e x w b0 b1) 2.
Proof.
  intros H. rewrite !incstats_pow_2. unfold next_mean, incr_d, incr_e.
  by field.
Qed.

Lemma specialised_runs_share (stream : list (R * R)) :
  ∀ (W m M2 M3 M4 : R) (l1 l2 l3 l4 : list R),
  (run incstats_mean stream (W :: m :: l1) = Err NotReal ∧
   run incstats_variance stream (W :: m :: M2 :: l2) = Err NotReal ∧
   run incstats_skewness stream (W :: m :: M2 :: M3 :: l3) = Err NotReal ∧
   run incstats_kurtosis stream (W :: m :: M2 :: M3 :: M4 :: l4)
   = Err NotReal)
  ∨ ∃ W' m' M2' M3' M4',
      run incstats_mean stream (W :: m :: l1) = Ok (W' :: m' :: l1) ∧
      run incstats_variance stream (W :: m :: M2 :: l2)
      = Ok (W' :: m' :: M2' :: l2) ∧
      run incstats_skewness stream (W :: m :: M2 :: M3 :: l3)
      = Ok (W' :: m' :: M2' :: M3' :: l3) ∧
      run incstats_kurtosis stream (W :: m :: M2 :: M3 :: M4 :: l4)
      = Ok (W' :: m' :: M2' :: M3' :: M4' :: l4).
Proof.
  induction stream as [|[x w] stream IH]; intros W m M2 M3 M4 l1 l2 l3 l4.
  - right. by exists W, m, M2, M3, M4.
  - cbn [run]. destruct (Req_dec (W + w) 0) as [Hz|Hnz].
    + left.
      rewrite incstats_mean_not_real, incstats_variance_not_real,
        incstats_skewness_not_real, incstats_kurtosis_not_real by done.
      done.
    + rewrite incstats_mean_step, incstats_variance_step,
        incstats_skewness_step, incstats_kurtosis_step by done.
      rewrite !bind_Ok, order2_forms by done.
      apply IH.
Qed.

(** X7. In exact arithmetic the four specialised update functions are one
    family: run on the same stream from accumulators that agree on the
    slots they share, they all fail on a cumulative weight of zero, or all
    succeed and agree again on the slots they share (weight, mean, second
    and third moment), each leaving the slots beyond its own order
    untouched.  The order-2 statement of [incstats_variance] is another
    formula than the one of [incstats_skewness] and [incstats_kurtosis];
    the two give the same real number, not the same rounding. *)
Theorem specialised_updates_share_slots (stream : list (R * R))
    (W m M2 M3 M4 : R) (l1 l2 l3 l4 : list R) :
  (run incstats_mean stream (W :: m :: l1) = Err NotReal ∧
   run incstats_variance stream (W :: m :: M2 :: l2) = Err NotReal ∧
   run incstats_skewness stream (W :: m :: M2 :: M3 :: l3) = Err NotReal ∧
   run incstats_kurtosis stream (W :: m :: M2 :: M3 :: M4 :: l4)
   = Err NotReal)
  ∨ ∃ W' m' M2' M3' M4',
      run incstats_mean stream (W :: m :: l1) = Ok (W' :: m' :: l1) ∧
      run incstats_variance stream (W :: m :: M2 :: l2)
      = Ok (W' :: m' :: M2' :: l2) ∧
      run incstats_skewness stream (W :: m :: M2 :: M3 :: l3)
      = Ok (W' :: m' :: M2' :: M3' :: l3) ∧
      run incstats_kurtosis stream (W :: m :: M2 :: M3 :: M4 :: l4)
      = Ok (W' :: m' :: M2' :: M3' :: M4' :: l4).
Proof. apply specialised_runs_share. Qed.

(** ** The moments kept by [incstats_skewness] and [incstats_kurtosis] *)

(** From any accumulator [(W, m, M2, M3, M4)] with [W >= 0], seen as a
    block of weight [W] and mean [m] with central moments [M2], [M3], [M4],
    a stream of positively weighted samples leads to the accumulator of the
    block and the stream together: each moment is shifted to the new mean
    [m'] and the deviations of the samples from [m'] are added. *)
Lemma run_kurtosis_moments (stream : list (R * R)) :
  Forall (fun s => 0 < snd s) stream →
  ∀ (W m M2 M3 M4 : R) (l : list R), 0 <= W →
  ∃ W' m' M2' M3' M4',
    run incstats_kurtosis stream (W :: m :: M2 :: M3 :: M4 :: l)
    = Ok (W' :: m' :: M2' :: M3' :: M4' :: l) ∧
    W' = W + sum_w stream ∧
    m' * W' = m * W + sum_wx stream ∧
    M2' = M2 + W * (m - m') ^ 2 + moment_sum 2 m' stream ∧
    M3' = M3 + 3 * (m - m') * M2 + W * (m - m') ^ 3
          + moment_sum 3 m' stream ∧
    M4' = M4 + 4 * (m - m') * M3 + 6 * (m - m') ^ 2 * M2
          + W * (m - m') ^ 4 + moment_sum 4 m' stream.
Proof.
  induction 1 as [|[x w] stream Hw Hall IH]; intros W m M2 M3 M4 l HW.
  - exists W, m, M2, M3, M4. simpl. repeat split; lra.
  - simpl in Hw. cbn [run].
    rewrite incstats_kurtosis_step by lra. rewrite bind_Ok.
    edestruct IH as (W' & m' & M2' & M3' & M4' & Hrun & HW' & Hm' & H2 & H3
                     & H4); [|rewrite Hrun]; [lra|].
    exists W', m', M2', M3', M4'.
    cbn [moment_sum sum_w sum_wx foldr fst snd].
    fold (moment_sum 2 m' stream) (moment_sum 3 m' stream)
      (moment_sum 4 m' stream) (sum_w stream) (sum_wx stream).
    rewrite H2, H3, H4.
    rewrite ?incstats_pow_2, ?incstats_pow_3, ?incstats_pow_4.
    unfold next_mean, incr_d, incr_e.
    repeat split; [lra | | | | ].
    + rewrite Hm'. unfold next_mean. field. lra.
    + field. lra.
    + field. lra.
    + field. lra.
Qed.

Lemma moment_sum_0 (c : R) (stream : list (R * R)) :
  moment_sum 0 c stream = sum_w stream.
Proof.
  induction stream as [|[x w] stream IH]; [done|].
  cbn [moment_sum sum_w foldr fst snd].
  fold (moment_sum 0 c stream) (sum_w stream). rewrite IH. simpl. lra.
Qed.

Lemma moment_sum_1 (c : R) (stream : list (R * R)) :
  moment_sum 1 c stream = sum_wx stream - c * sum_w stream.
Proof.
  induction stream as [|[x w] stream IH]; [simpl; lra|].
  cbn [moment_sum sum_w sum_wx foldr fst snd].
  fold (moment_sum 1 c stream) (sum_w stream) (sum_wx stream).
  rewrite IH. simpl. lra.
Qed.

Lemma run_kurtosis_zeros (stream : list (R * R)) :
  stream ≠ [] → Forall (fun s => 0 < snd s) stream →
  run incstats_kurtosis stream (zeros 5)
  = Ok [sum_w stream; weighted_mean stream;
        moment_sum 2 (weighted_mean stream) stream;
        moment_sum 3 (weighted_mean stream) stream;
        moment_sum 4 (weighted_mean stream) stream].
Proof.
  intros Hne Hall.
  destruct (run_kurtosis_moments stream Hall 0 0 0 0 0 [])
    as (W' & m' & M2' & M3' & M4' & Hrun & HW' & Hm' & H2 & H3 & H4); [lra|].
  pose proof (sum_w_pos stream Hne Hall) as Hpos.
  rewrite Rplus_0_l in HW'. subst W'.
  assert (Hmean : m' = weighted_mean stream).
  { unfold weighted_mean. field_simplify_eq; lra. }
  change (zeros 5) with [0; 0; 0; 0; 0]. rewrite Hrun, <- Hmean.
  do 5 f_equal; [lra..| f_equal; lra].
Qed.

Lemma run_skewness_zeros (stream : list (R * R)) :
  stream ≠ [] → Forall (fun s => 0 < snd s) stream →
  run incstats_skewness stream (zeros 4)
  = Ok [sum_w stream; weighted_mean stream;
        moment_sum 2 (weighted_mean stream) stream;
        moment_sum 3 (weighted_mean stream) stream].
Proof.
  intros Hne Hall.
  pose proof (run_kurtosis_zeros stream Hne Hall) as Hk.
  destruct (specialised_runs_share stream 0 0 0 0 0 [] [] [] [])
    as [(_ & _ & _ & He)|(W' & m' & M2' & M3' & M4' & _ & _ & Hs & Hk')].
  - change (zeros 5) with [0; 0; 0; 0; 0] in Hk. congruence.
  - change (zeros 5) with [0; 0; 0; 0; 0] in Hk.
    change (zeros 4) with [0; 0; 0; 0].
    rewrite Hk in Hk'. injection Hk' as <- <- <- <- <-. done.
Qed.

Lemma run_mean_zeros (stream : list (R * R)) :
  stream ≠ [] → Forall (fun s => 0 < snd s) stream →
  run incstats_mean stream (zeros 2)
  = Ok [sum_w stream; weighted_mean stream].
Proof.
  intros Hne Hall.
  pose proof (run_kurtosis_zeros stream Hne Hall) as Hk.
  change (zeros 5) with [0; 0; 0; 0; 0] in Hk.
  change (zeros 2) with [0; 0].
  destruct (specialised_runs_share stream 0 0 0 0 0 [] [] [] [])
    as [(_ & _ & _ & He)|(W' & m' & M2' & M3' & M4' & Hm & _ & _ & Hk')];
    [congruence|].
  rewrite Hk in Hk'. injection Hk' as <- <- <- <- <-. done.
Qed.

(** X8. Mean: after [incstats_mean] on every sample of a non-empty stream
    of positively weighted samples, from the zero accumulator, slot 0 is
    the sum of the weights and slot 1 the weighted mean
    [sum w x / sum w], which [incstats_mean_finalize] stores through its
    pointer, leaving what lies behind it untouched. *)
Theorem mean_of_stream (stream : list (R * R)) (r0 : R) (rl : list R) :
  stream ≠ [] → Forall (fun s => 0 < snd s) stream →
  ∃ buffer,
    run incstats_mean stream (zeros 2) = Ok buffer ∧
    buffer = [sum_w stream; sum_wx stream / sum_w stream] ∧
    incstats_mean_finalize (Mem (r0 :: rl) buffer)
    = Ok (Mem (sum_wx stream / sum_w stream :: rl) buffer).
Proof.
  intros Hne Hall. eexists. split; [by apply run_mean_zeros|].
  split; [done|]. unfold incstats_mean_finalize. by exec_finalize.
Qed.

Lemma mean_of_stream_witness :
  ∃ buffer,
    run incstats_mean [(1, 1); (3, 1)] (zeros 2) = Ok buffer ∧
    incstats_mean_finalize (Mem [0] buffer)
    = Ok (Mem [sum_wx [(1, 1); (3, 1)] / sum_w [(1, 1); (3, 1)]] buffer).
Proof.
  destruct (mean_of_stream [(1, 1); (3, 1)] 0 []) as (b & Hrun & _ & Hfin).
  - done.
  - repeat constructor; simpl; lra.
  - by exists b.
Defined.

(** X9. Skewness: after [incstats_skewness] on every sample of a non-empty
    stream of positively weighted samples, from the zero accumulator, the
    accumulator holds the sum of the weights, the weighted mean and the
    sums [sum w (x - mean)^2] and [sum w (x - mean)^3]; when the samples
    are not all equal (the second sum is positive),
    [incstats_skewness_finalize] writes the mean, the population variance
    [m2 = sum w (x - mean)^2 / sum w] and the standardized third moment
    [(sum w (x - mean)^3 / sum w) / sqrt(m2)^3]. *)
Theorem skewness_of_stream (stream : list (R * R)) (r0 r1 r2 : R)
    (rl : list R) :
  stream ≠ [] → Forall (fun s => 0 < snd s) stream →
  0 < moment_sum 2 (weighted_mean stream) stream →
  ∃ buffer,
    run incstats_skewness stream (zeros 4) = Ok buffer ∧
    buffer = [sum_w stream; weighted_mean stream;
              moment_sum 2 (weighted_mean stream) stream;
              moment_sum 3 (weighted_mean stream) stream] ∧
    incstats_skewness_finalize (Mem (r0 :: r1 :: r2 :: rl) buffer)
    = Ok (Mem (weighted_mean stream
               :: moment_sum 2 (weighted_mean stream) stream / sum_w stream
               :: moment_sum 3 (weighted_mean stream) stream
                  / sum_w stream
                  / sqrt (moment_sum 2 (weighted_mean stream) stream
                          / sum_w stream) ^ 3
               :: rl) buffer).
Proof.
  intros Hne Hall Hvar. eexists. split; [by apply run_skewness_zeros|].
  split; [done|].
  pose proof (sum_w_pos stream Hne Hall) as Hpos.
  assert (Hv : 0 < moment_sum 2 (weighted_mean stream) stream / sum_w stream)
    by (by apply Rdiv_lt_0_compat).
  rewrite incstats_skewness_finalize_eval by (done || lra).
  rewrite <- standardize_3 by done.
  rewrite incstats_pow_pow by (unfold UINT64_MAX; lia). done.
Qed.

Lemma stream_example_mean : weighted_mean [(1, 1); (3, 1); (5, 2)] = 7 / 2.
Proof. unfold weighted_mean. simpl. field. Qed.

Lemma stream_example_spread :
  0 < moment_sum 2 (weighted_mean [(1, 1); (3, 1); (5, 2)])
        [(1, 1); (3, 1); (5, 2)].
Proof. rewrite stream_example_mean. simpl. lra. Qed.

Lemma skewness_of_stream_witness :
  ∃ buffer,
    run incstats_skewness [(1, 1); (3, 1); (5, 2)] (zeros 4) = Ok buffer ∧
    buffer !! 3%nat
    = Some (moment_sum 3 (weighted_mean [(1, 1); (3, 1); (5, 2)])
              [(1, 1); (3, 1); (5, 2)]).
Proof.
  destruct (skewness_of_stream [(1, 1); (3, 1); (5, 2)] 0 0 0 [])
    as (b & Hrun & -> & _).
  - done.
  - repeat constructor; simpl; lra.
  - apply stream_example_spread.
  - by eexists.
Defined.

(** X10. Kurtosis: after [incstats_kurtosis] on every sample of a non-empty
    stream of positively weighted samples, from the zero accumulator, the
    accumulator holds the sum of the weights, the weighted mean and the
    sums [sum w (x - mean)^i] for [i = 2, 3, 4]; when the samples are not
    all equal, [incstats_kurtosis_finalize] writes the mean, the population
    variance [m2], the standardized third moment and the standardized
    fourth moment [(sum w (x - mean)^4 / sum w) / m2^2] (nothing is
    subtracted from it). *)
Theorem kurtosis_of_stream (stream : list (R * R)) (r0 r1 r2 r3 : R)
    (rl : list R) :
  stream ≠ [] → Forall (fun s => 0 < snd s) stream →
  0 < moment_sum 2 (weighted_mean stream) stream →
  ∃ buffer,
    run incstats_kurtosis stream (zeros 5) = Ok buffer ∧
    buffer = [sum_w stream; weighted_mean stream;
              moment_sum 2 (weighted_mean stream) stream;
              moment_sum 3 (weighted_mean stream) stream;
              moment_sum 4 (weighted_mean stream) stream] ∧
    incstats_kurtosis_finalize (Mem (r0 :: r1 :: r2 :: r3 :: rl) buffer)
    = Ok (Mem (weighted_mean stream
               :: moment_sum 2 (weighted_mean stream) stream / sum_w stream
               :: moment_sum 3 (weighted_mean stream) stream
                  / sum_w stream
                  / sqrt (moment_sum 2 (weighted_mean stream) stream
                          / sum_w stream) ^ 3
               :: moment_sum 4 (weighted_mean stream) stream
                  / sum_w stream
                  / (moment_sum 2 (weighted_mean stream) stream
                     / sum_w stream) ^ 2
               :: rl) buffer).
Proof.
  intros Hne Hall Hvar. eexists. split; [by apply run_kurtosis_zeros|].
  split; [done|].
  pose proof (sum_w_pos stream Hne Hall) as Hpos.
  assert (Hv : 0 < moment_sum 2 (weighted_mean stream) stream / sum_w stream)
    by (by apply Rdiv_lt_0_compat).
  rewrite incstats_kurtosis_finalize_eval by (done || lra).
  rewrite <- standardize_3 by done.
  rewrite !incstats_pow_pow by (unfold UINT64_MAX; lia). done.
Qed.

Lemma kurtosis_of_stream_witness :
  ∃ buffer,
    run incstats_kurtosis [(1, 1); (3, 1); (5, 2)] (zeros 5) = Ok buffer ∧
    buffer !! 4%nat
    = Some (moment_sum 4 (weighted_mean [(1, 1); (3, 1); (5, 2)])
              [(1, 1); (3, 1); (5, 2)]).
Proof.
  destruct (kurtosis_of_stream [(1, 1); (3, 1); (5, 2)] 0 0 0 0 [])
    as (b & Hrun & -> & _).
  - done.
  - repeat constructor; simpl; lra.
  - apply stream_example_spread.
  - by eexists.
Defined.

(** X11. An accumulator of [incstats_kurtosis] stands for a block of
    samples: continuing from the accumulator [(W, m, M2, M3, M4)] of a
    block of weight [W >= 0] and mean [m] with a stream of positively
    weighted samples gives the weight and the mean [m'] of block and stream
    together, and each moment is the old one shifted from [m] to [m'] plus
    the deviations of the new samples from [m']. *)
Theorem kurtosis_continues_block (stream : list (R * R))
    (W m M2 M3 M4 : R) (l : list R) :
  Forall (fun s => 0 < snd s) stream → 0 <= W →
  ∃ W' m' M2' M3' M4',
    run incstats_kurtosis stream (W :: m :: M2 :: M3 :: M4 :: l)
    = Ok (W' :: m' :: M2' :: M3' :: M4' :: l) ∧
    W' = W + sum_w stream ∧
    m' * W' = m * W + sum_wx stream ∧
    M2' = M2 + W * (m - m') ^ 2 + moment_sum 2 m' stream ∧
    M3' = M3 + 3 * (m - m') * M2 + W * (m - m') ^ 3
          + moment_sum 3 m' stream ∧
    M4' = M4 + 4 * (m - m') * M3 + 6 * (m - m') ^ 2 * M2
          + W * (m - m') ^ 4 + moment_sum 4 m' stream.
Proof. intros Hall HW. by apply run_kurtosis_moments. Qed.

Lemma kurtosis_continues_block_witness :
  ∃ W' m' M2' M3' M4',
    run incstats_kurtosis [(3, 1)] [1; 1; 0; 0; 0]
    = Ok [W'; m'; M2'; M3'; M4'] ∧
    M4' = 0 + 4 * (1 - m') * 0 + 6 * (1 - m') ^ 2 * 0
          + 1 * (1 - m') ^ 4 + moment_sum 4 m' [(3, 1)].
Proof.
  destruct (kurtosis_continues_block [(3, 1)] 1 1 0 0 0 [])
    as (W' & m' & M2' & M3' & M4' & Hrun & _ & _ & _ & _ & H4).
  - repeat constructor; simpl; lra.
  - lra.
  - by exists W', m', M2', M3', M4'.
Defined.

(** ** Edge cases of the finalize functions *)

Lemma incstats_variance_finalize_no_weight (r0 r1 b1 b2 : R)
    (rl bl : list R) :
  incstats_variance_finalize (Mem (r0 :: r1 :: rl) (0 :: b1 :: b2 :: bl))
  = Err NotReal.
Proof.
  unfold incstats_variance_finalize, rd, wr. exec. by rewrite fdiv_zero.
Qed.

(** X12. Without weight there is no statistic: on an accumulator whose
    cumulative weight (slot 0) is zero, as it is before the first sample,
    the variance, skewness and kurtosis finalize and the generalised
    finalize of order 2 or more divide by zero, with or without
    [standardize]. *)
Theorem finalize_without_weight (p : Z) (standardize : bool)
    (r0 r1 b1 b2 : R) (rl bl : list R) :
  (2 ≤ p < UINT64_MAX)%Z →
  incstats_variance_finalize (Mem (r0 :: r1 :: rl) (0 :: b1 :: b2 :: bl))
  = Err NotReal ∧
  incstats_skewness_finalize (Mem (r0 :: r1 :: rl) (0 :: b1 :: b2 :: bl))
  = Err NotReal ∧
  incstats_kurtosis_finalize (Mem (r0 :: r1 :: rl) (0 :: b1 :: b2 :: bl))
  = Err NotReal ∧
  incstats_central_moment_finalize p standardize
    (Mem (r0 :: r1 :: rl) (0 :: b1 :: b2 :: bl))
  = Err NotReal.
Proof.
  intros Hp.
  unfold incstats_skewness_finalize, incstats_kurtosis_finalize.
  rewrite incstats_variance_finalize_no_weight.
  repeat split.
  unfold incstats_central_moment_finalize, for_up.
  rewrite u64_small by lia.
  replace (Z.to_nat (p + 1 - 2)) with (S (Z.to_nat (p - 2))) by lia.
  unfold rd, wr. exec. unfold raw_moment, rd. exec.
  by rewrite fdiv_zero.
Qed.

Lemma finalize_without_weight_witness :
  incstats_kurtosis_finalize (Mem [0; 0; 0; 0] (zeros 5)) = Err NotReal ∧
  incstats_central_moment_finalize 4 false (Mem (zeros 6) (zeros 5))
  = Err NotReal.
Proof.
  destruct (finalize_without_weight 4 false 0 0 0 0 [0; 0] [0; 0])
    as (_ & _ & Hk & Hc); [unfold UINT64_MAX; lia|].
  destruct (finalize_without_weight 4 false 0 0 0 0 [0; 0; 0; 0] [0; 0])
    as (_ & _ & _ & Hc'); [unfold UINT64_MAX; lia|].
  split; [exact Hk | exact Hc'].
Defined.

Lemma moment_sum_constant (i : nat) (c : R) (stream : list (R * R)) :
  Forall (fun s => fst s = c) stream →
  moment_sum (S i) c stream = 0 ∧ sum_wx stream = c * sum_w stream.
Proof.
  induction 1 as [|[x w] stream Hx _ [IH1 IH2]]; [simpl; lra|].
  simpl in Hx. subst x.
  cbn [moment_sum sum_w sum_wx foldr fst snd].
  fold (moment_sum (S i) c stream) (sum_w stream) (sum_wx stream).
  rewrite IH1, IH2. split; [|lra].
  unfold Rminus. rewrite Rplus_opp_r. simpl. lra.
Qed.

(** X13. A stream whose samples all have the same value [c] leaves the
    accumulator [(sum w, c, 0, 0, 0)]: the variance finalize reports the
    mean [c] and the variance 0, while the skewness and the kurtosis
    finalize divide by that variance and have no result. *)
Theorem constant_stream_has_no_skewness (c : R) (stream : list (R * R))
    (r0 r1 : R) (rl : list R) :
  stream ≠ [] → Forall (fun s => 0 < snd s) stream →
  Forall (fun s => fst s = c) stream →
  run incstats_kurtosis stream (zeros 5) = Ok [sum_w stream; c; 0; 0; 0] ∧
  incstats_variance_finalize
    (Mem (r0 :: r1 :: rl) [sum_w stream; c; 0; 0; 0])
  = Ok (Mem (c :: 0 :: rl) [sum_w stream; c; 0; 0; 0]) ∧
  incstats_skewness_finalize
    (Mem (r0 :: r1 :: rl) [sum_w stream; c; 0; 0; 0]) = Err NotReal ∧
  incstats_kurtosis_finalize
    (Mem (r0 :: r1 :: rl) [sum_w stream; c; 0; 0; 0]) = Err NotReal.
Proof.
  intros Hne Hall Hc.
  pose proof (sum_w_pos stream Hne Hall) as Hpos.
  assert (Hmean : weighted_mean stream = c).
  { unfold weighted_mean.
    rewrite (proj2 (moment_sum_constant 0 c stream Hc)). field. lra. }
  split.
  { rewrite run_kurtosis_zeros by done. rewrite Hmean.
    by rewrite !(proj1 (moment_sum_constant _ c stream Hc)). }
  assert (Hvar : incstats_variance_finalize
                   (Mem (r0 :: r1 :: rl) [sum_w stream; c; 0; 0; 0])
                 = Ok (Mem (c :: 0 :: rl) [sum_w stream; c; 0; 0; 0])).
  { rewrite incstats_variance_finalize_eval by lra.
    do 4 f_equal. field. lra. }
  assert (Hslot : finalize_skewness_slot
                    (Mem (c :: 0 :: rl) [sum_w stream; c; 0; 0; 0])
                  = Err NotReal).
  { unfold finalize_skewness_slot, rd, wr. exec.
    replace (0 / sum_w stream) with 0 by (field; lra).
    rewrite fsqrt_Ok by lra. simpl. rewrite Rmult_0_l.
    by rewrite fdiv_zero. }
  split; [done|].
  unfold incstats_skewness_finalize, incstats_kurtosis_finalize.
  rewrite Hvar, !bind_Ok, Hslot. done.
Qed.

Lemma constant_stream_has_no_skewness_witness :
  run incstats_kurtosis [(7, 1); (7, 2)] (zeros 5)
  = Ok [sum_w [(7, 1); (7, 2)]; 7; 0; 0; 0] ∧
  incstats_skewness_finalize
    (Mem [0; 0; 0] [sum_w [(7, 1); (7, 2)]; 7; 0; 0; 0]) = Err NotReal.
Proof.
  destruct (constant_stream_has_no_skewness 7 [(7, 1); (7, 2)] 0 0 [0])
    as (Hrun & _ & Hs & _).
  - done.
  - repeat constructor; simpl; lra.
  - by repeat constructor.
  - by split.
Defined.

(** ** The generalised update computes the central moments *)

(** The coefficient the code computes, as the real number [C i k] of the
    binomial theorem. *)
Lemma n_choose_k_C (i k : nat) :
  (k ≤ i)%nat → (i ≤ 62)%nat →
  ∃ c, n_choose_k (Z.of_nat i) (Z.of_nat k) = Ok c ∧ IZR c = C i k.
Proof.
  intros Hk Hi.
  pose proof binomial_exact_table as Htab.
  rewrite forallb_forall in Htab.
  specialize (Htab i ltac:(apply in_seq; lia)).
  rewrite forallb_forall in Htab.
  specialize (Htab k ltac:(apply in_seq; lia)).
  unfold binomial_exact in Htab.
  destruct (n_choose_k _ _) as [c|e]; [|discriminate].
  exists c. split; [done|]. apply Z.eqb_eq in Htab.
  unfold C. rewrite !INR_IZR_INZ, !zfact_fact, <- Htab, !mult_IZR.
  pose proof (zfact_pos k). pose proof (zfact_pos (i - k)).
  field. split; apply not_0_IZR; lia.
Qed.

Lemma C_0 (i : nat) : C i 0 = 1.
Proof.
  unfold C. rewrite Nat.sub_0_r. simpl. field. apply INR_fact_neq_0.
Qed.

Lemma C_diag (i : nat) : C i i = 1.
Proof.
  unfold C. rewrite Nat.sub_diag. simpl. field. apply INR_fact_neq_0.
Qed.

(** A loop that adds [t k] for [k = n, ..., 1]. *)
Lemma iter_down_sum (body : Z → R → outcome R) (t : nat → R) (n : nat) :
  (∀ k tmp, (1 ≤ k ≤ n)%nat → body (Z.of_nat k) tmp = Ok (tmp + t k)) →
  ∀ tmp, iter_down n (Z.of_nat n) body tmp
         = Ok (tmp + (sum_f_R0 t n - t 0%nat)).
Proof.
  induction n as [|n IH]; intros Hbody tmp.
  - simpl. f_equal. lra.
  - cbn [iter_down]. rewrite Hbody by lia. rewrite bind_Ok.
    replace (Z.of_nat (S n) - 1)%Z with (Z.of_nat n) by lia.
    rewrite IH by (intros; apply Hbody; lia). f_equal. simpl. lra.
Qed.

Section OrderValue.

Variables (x w W m : R) (snap : list R) (mom : nat → R) (p : nat).
Hypothesis Hp : (p ≤ 62)%nat.
Hypothesis H0 : snap !! 0%nat = Some W.
Hypothesis H1 : snap !! 1%nat = Some m.
Hypothesis Hmom : ∀ i, (2 ≤ i ≤ p)%nat → snap !! i = Some (mom i).
Hypothesis HW : W + w ≠ 0.

Lemma cross_term_value (i k : nat) (tmp : R) :
  (1 ≤ k)%nat → (k + 2 ≤ i)%nat → (i ≤ p)%nat →
  cross_term x w (W + w) snap (Z.of_nat i) (Z.of_nat k) tmp
  = Ok (tmp + C i k * mom (i - k) * incr_d x w W m ^ k).
Proof.
  intros Hk Hki Hi. unfold cross_term.
  destruct (n_choose_k_C i k) as (c & -> & Hc); [lia..|]. rewrite bind_Ok.
  rewrite u64_small by (unfold UINT64_MAX; lia).
  rewrite (load_lookup snap (Z.of_nat i - Z.of_nat k) (mom (i - k)));
    [| lia
     | replace (Z.to_nat (Z.of_nat i - Z.of_nat k)) with (i - k)%nat by lia;
       apply Hmom; lia].
  rewrite bind_Ok, (load_lookup snap 1 m) by (done || lia).
  rewrite bind_Ok, fdiv_Ok by done. rewrite bind_Ok.
  rewrite incstats_pow_pow by (unfold UINT64_MAX; lia).
  by rewrite Nat2Z.id, Hc.
Qed.

(** The new value of order [i]: the cross terms of the orders
    [i - 1, ..., 2], the term of the old block and the term of the new
    sample. *)
Lemma order_value_moment (i : nat) :
  (2 ≤ i ≤ p)%nat →
  order_value x w (W + w) snap (Z.of_nat i)
  = Ok (sum_f_R0 (fun k => C i k * mom (i - k) * incr_d x w W m ^ k) (i - 2)
        + W * incr_d x w W m ^ i + w * incr_e x w W m ^ i).
Proof.
  intros Hi. unfold order_value, for_down.
  rewrite u64_small by (unfold UINT64_MAX; lia).
  replace (Z.of_nat i - 2 - 0)%Z with (Z.of_nat (i - 2)) by lia.
  rewrite Nat2Z.id.
  replace (Z.of_nat i - 2)%Z with (Z.of_nat (i - 2)) by lia.
  rewrite (iter_down_sum _
             (fun k => C i k * mom (i - k) * incr_d x w W m ^ k));
    [|intros k tmp Hk; apply cross_term_value; lia].
  rewrite bind_Ok.
  rewrite (load_lookup snap (Z.of_nat i) (mom i))
    by (rewrite ?Nat2Z.id; auto with lia).
  rewrite bind_Ok, (load_lookup snap 0 W) by (done || lia).
  rewrite bind_Ok, (load_lookup snap 1 m) by (done || lia).
  rewrite bind_Ok, !fdiv_Ok by done. rewrite !bind_Ok.
  rewrite !incstats_pow_pow by (unfold UINT64_MAX; lia).
  rewrite Nat2Z.id, C_0, Nat.sub_0_r. f_equal.
  unfold incr_d, incr_e. simpl. lra.
Qed.

End OrderValue.

(** The in-place loop over the orders [i, i - 1, ...] ([n] of them, all at
    least 2), given the value each order takes from the snapshot. *)
Lemma update_orders_values (x w new_sum_w : R) (snap : list R)
    (newv : Z → R) (p : Z) :
  (p ≤ UINT64_MAX)%Z →
  (∀ i, (2 ≤ i ≤ p)%Z → order_value x w new_sum_w snap i = Ok (newv i)) →
  ∀ (n : nat) (i : Z) (cur : list R),
    (1 ≤ i - Z.of_nat n)%Z → (i ≤ p)%Z →
    agree_upto i cur snap → length cur = length snap →
    ∃ cur', iter_down n i (update_order x w new_sum_w) cur = Ok cur' ∧
            length cur' = length cur ∧
            (∀ j : nat, (i - Z.of_nat n < Z.of_nat j ≤ i)%Z →
                        cur' !! j = Some (newv (Z.of_nat j))) ∧
            (∀ j : nat, ¬ (i - Z.of_nat n < Z.of_nat j ≤ i)%Z →
                        cur' !! j = cur !! j).
Proof.
  intros Hp Hval. induction n as [|n IH]; intros i cur Hn Hi Hag Hlen.
  - exists cur. split; [done|]. split; [done|].
    split; [intros j Hj; lia | done].
  - cbn [iter_down]. rewrite update_order_as_value.
    rewrite (order_value_agree _ _ _ i cur snap) by (done || lia).
    pose proof (Hval i ltac:(lia)) as Hv. rewrite Hv.
    apply order_value_in_bounds in Hv as Hb. rewrite bind_Ok.
    rewrite store_Ok, bind_Ok by lia.
    destruct (IH (i - 1)%Z (<[Z.to_nat i := newv i]> cur))
      as (cur' & -> & Hl & Hin & Hout);
      [lia | lia | apply agree_upto_insert; [lia | done]
       | by rewrite length_insert |].
    exists cur'. rewrite Hl, length_insert.
    split; [done|]. split; [done|]. split.
    + intros j Hj. destruct (decide (Z.of_nat j = i)) as [<-|Hne].
      * rewrite Hout by lia. rewrite Nat2Z.id.
        apply list_lookup_insert_eq. lia.
      * apply Hin. lia.
    + intros j Hj. rewrite Hout by lia.
      apply list_lookup_insert_ne. lia.
Qed.

(** *** The recurrence is the binomial theorem *)

Lemma sum_f_R0_zero (f : nat → R) (n : nat) :
  (∀ k, f k = 0) → sum_f_R0 f n = 0.
Proof.
  intros Hf. induction n as [|n IH]; simpl; rewrite ?IH, Hf; lra.
Qed.

Lemma moment_sum_cons (i : nat) (c x w : R) (s : list (R * R)) :
  moment_sum i c ((x, w) :: s) = w * (x - c) ^ i + moment_sum i c s.
Proof. done. Qed.

Lemma moment_sum_snoc (i : nat) (c x w : R) (s : list (R * R)) :
  moment_sum i c (s ++ [(x, w)]) = moment_sum i c s + w * (x - c) ^ i.
Proof.
  induction s as [|[x' w'] s IH].
  - rewrite app_nil_l, moment_sum_cons. simpl. lra.
  - rewrite <- app_comm_cons, !moment_sum_cons, IH. lra.
Qed.

Lemma sum_w_snoc (x w : R) (s : list (R * R)) :
  sum_w (s ++ [(x, w)]) = sum_w s + w.
Proof. rewrite <- !(moment_sum_0 0), moment_sum_snoc. simpl. lra. Qed.

Lemma sum_wx_snoc (x w : R) (s : list (R * R)) :
  sum_wx (s ++ [(x, w)]) = sum_wx s + w * x.
Proof.
  pose proof (moment_sum_1 0 (s ++ [(x, w)])) as H.
  pose proof (moment_sum_1 0 s) as H'.
  rewrite moment_sum_snoc in H. simpl in H. lra.
Qed.

(** Moving the centre of the moments from [c] to [c - d]. *)
Lemma moment_sum_shift (i : nat) (c d : R) (s : list (R * R)) :
  moment_sum i (c - d) s
  = sum_f_R0 (fun k => C i k * moment_sum (i - k) c s * d ^ k) i.
Proof.
  induction s as [|[x w] s IH].
  - rewrite sum_f_R0_zero; [done|]. intros k. simpl. lra.
  - rewrite moment_sum_cons, IH.
    replace (x - (c - d)) with (d + (x - c)) by lra. rewrite binomial.
    rewrite scal_sum, <- sum_plus. apply sum_eq. intros k Hk.
    rewrite moment_sum_cons. ring.
Qed.

Lemma moment_step_identity (i : nat) (x w m : R) (s : list (R * R)) :
  (2 ≤ i)%nat → m * sum_w s = sum_wx s → sum_w s + w ≠ 0 →
  sum_f_R0 (fun k => C i k * moment_sum (i - k) m s
                     * incr_d x w (sum_w s) m ^ k) (i - 2)
  + sum_w s * incr_d x w (sum_w s) m ^ i
  + w * incr_e x w (sum_w s) m ^ i
  = moment_sum i (next_mean x w (sum_w s) m) (s ++ [(x, w)]).
Proof.
  intros Hi Hm HW. rewrite moment_sum_snoc.
  replace (next_mean x w (sum_w s) m) with (m - incr_d x w (sum_w s) m)
    by (unfold next_mean, incr_d; by field).
  rewrite moment_sum_shift.
  replace (x - (m - incr_d x w (sum_w s) m)) with (incr_e x w (sum_w s) m)
    by (unfold incr_d, incr_e; by field).
  destruct i as [|[|n]]; [lia..|].
  rewrite (tech5 _ (S n)), (tech5 _ n).
  replace (S (S n) - 2)%nat with n by lia.
  replace (S (S n) - S n)%nat with 1%nat by lia.
  rewrite Nat.sub_diag, C_diag, moment_sum_0, moment_sum_1.
  rewrite <- Hm. ring.
Qed.

Lemma holds_moments_zeros (p n : nat) :
  (2 ≤ n)%nat → (p < n)%nat → holds_moments p [] (zeros n).
Proof.
  intros Hn Hp. unfold holds_moments. rewrite length_zeros.
  split; [done|]. split; [done|].
  split; [apply lookup_replicate_2; lia|].
  exists 0. split; [apply lookup_replicate_2; lia|].
  split; [simpl; lra|].
  intros i Hi. apply lookup_replicate_2. lia.
Qed.

(** One call: from the accumulator of [s] to the accumulator of [s] with
    the sample [(x, w)] added. *)
Lemma incstats_central_moment_holds (p : nat) (s : list (R * R))
    (x w : R) (buffer : list R) :
  (p ≤ 62)%nat → 0 <= sum_w s → 0 < w → holds_moments p s buffer →
  ∃ buffer',
    incstats_central_moment x w buffer (Z.of_nat p) = Ok buffer' ∧
    length buffer' = length buffer ∧
    holds_moments p (s ++ [(x, w)]) buffer'.
Proof.
  intros Hp HW Hw (Hlen2 & Hlenp & H0 & m & H1 & Hm & Hmom).
  set (m' := next_mean x w (sum_w s) m).
  assert (Hloop : ∃ cur,
    for_down (Z.of_nat p) 1 (update_order x w (sum_w s + w)) buffer = Ok cur
    ∧ length cur = length buffer
    ∧ cur !! 0%nat = buffer !! 0%nat ∧ cur !! 1%nat = buffer !! 1%nat
    ∧ ∀ i : nat, (2 ≤ i ≤ p)%nat →
                 cur !! i = Some (moment_sum i m' (s ++ [(x, w)]))).
  { unfold for_down. destruct (decide (p < 2)%nat) as [Hlt|Hge].
    - replace (Z.to_nat (Z.of_nat p - 1)) with 0%nat by lia.
      exists buffer. repeat split; try done. intros i Hi. lia.
    - destruct (update_orders_values x w (sum_w s + w) buffer
                  (fun i => moment_sum (Z.to_nat i) m' (s ++ [(x, w)]))
                  (Z.of_nat p) ltac:(unfold UINT64_MAX; lia))
        with (n := Z.to_nat (Z.of_nat p - 1)) (i := Z.of_nat p)
             (cur := buffer)
        as (cur & Hrun & Hl & Hin & Hout); [| lia | lia | done | done |].
      + intros i Hi.
        replace i with (Z.of_nat (Z.to_nat i)) at 1 by lia.
        rewrite (order_value_moment x w (sum_w s) m buffer
                   (fun k => moment_sum k m s) p) by (done || lra || lia).
        f_equal. apply moment_step_identity; [lia | done | lra].
      + exists cur. split; [done|]. split; [done|].
        split; [apply Hout; lia|]. split; [apply Hout; lia|].
        intros i Hi. rewrite Hin by lia. by rewrite Nat2Z.id. }
  destruct Hloop as (cur & Hrun & Hl & Hc0 & Hc1 & Hci).
  unfold incstats_central_moment.
  rewrite (load_lookup buffer 0 (sum_w s)) by (done || lia).
  rewrite bind_Ok, Hrun, bind_Ok.
  rewrite (update_mean_weight_Ok x w (sum_w s + w) m) by (congruence || lra).
  eexists. split; [done|].
  rewrite !length_insert. split; [done|].
  unfold holds_moments. rewrite !length_insert, Hl.
  split; [done|]. split; [done|].
  split.
  { rewrite list_lookup_insert_eq by (rewrite length_insert; lia).
    by rewrite sum_w_snoc. }
  exists m'. split.
  { rewrite list_lookup_insert_ne by lia.
    apply list_lookup_insert_eq. lia. }
  split.
  { rewrite sum_w_snoc, sum_wx_snoc, <- Hm. unfold m', next_mean.
    field. lra. }
  intros i Hi. rewrite !list_lookup_insert_ne by lia. by apply Hci.
Qed.

Lemma run_central_moment_holds (p : nat) (stream : list (R * R)) :
  (p ≤ 62)%nat → Forall (fun s => 0 < snd s) stream →
  ∀ (s0 : list (R * R)) (buffer : list R),
    Forall (fun s => 0 < snd s) s0 → holds_moments p s0 buffer →
    ∃ buffer',
      run (fun x w b => incstats_central_moment x w b (Z.of_nat p))
        stream buffer = Ok buffer' ∧
      length buffer' = length buffer ∧
      holds_moments p (s0 ++ stream) buffer'.
Proof.
  intros Hp. induction 1 as [|[x w] stream Hw Hall IH];
    intros s0 buffer Hs0 Hinv.
  - exists buffer. by rewrite app_nil_r.
  - simpl in Hw. cbn [run].
    destruct (incstats_central_moment_holds p s0 x w buffer)
      as (b1 & -> & Hl1 & Hinv1); [done | by apply sum_w_nonneg | done..|].
    rewrite bind_Ok.
    destruct (IH (s0 ++ [(x, w)]) b1) as (b' & Hrun & Hl & Hinv');
      [apply Forall_app; split; [done | by repeat constructor] | done |].
    exists b'. split; [done|]. split; [congruence|].
    by rewrite <- app_assoc in Hinv'.
Qed.

(** X14. The generalised update computes the central moments: for every
    order [p <= 62] and every non-empty stream of positively weighted
    samples, [incstats_central_moment] on each sample in turn, from the
    zero accumulator of [max(2, p + 1)] slots, returns, and leaves the sum
    of the weights in slot 0, the weighted mean in slot 1 and the sum
    [sum w (x - mean)^i] in every slot [2 <= i <= p].  (Up to order 62 the
    binomial coefficients of the recurrence are exact.) *)
Theorem central_moment_of_stream (p : Z) (stream : list (R * R)) :
  (0 ≤ p ≤ 62)%Z → stream ≠ [] → Forall (fun s => 0 < snd s) stream →
  ∃ buffer,
    run (fun x w b => incstats_central_moment x w b p) stream
      (zeros (Z.to_nat (Z.max 2 (p + 1)))) = Ok buffer ∧
    length buffer = Z.to_nat (Z.max 2 (p + 1)) ∧
    buffer !! 0%nat = Some (sum_w stream) ∧
    buffer !! 1%nat = Some (weighted_mean stream) ∧
    ∀ i : nat, (2 ≤ Z.of_nat i ≤ p)%Z →
      buffer !! i = Some (moment_sum i (weighted_mean stream) stream).
Proof.
  intros Hp Hne Hall.
  destruct (run_central_moment_holds (Z.to_nat p) stream ltac:(lia) Hall []
              (zeros (Z.to_nat (Z.max 2 (p + 1)))))
    as (b & Hrun & Hlen & _ & _ & H0 & m & H1 & Hm & Hmom);
    [done | apply holds_moments_zeros; lia |].
  rewrite Z2Nat.id in Hrun by lia. rewrite length_zeros in Hlen.
  rewrite app_nil_l in H0, Hm, Hmom.
  pose proof (sum_w_pos stream Hne Hall) as Hpos.
  assert (Hmean : m = weighted_mean stream).
  { unfold weighted_mean. rewrite <- Hm. field. lra. }
  subst m. exists b. repeat split; try done.
  intros i Hi. apply Hmom. lia.
Qed.

Lemma central_moment_of_stream_witness :
  ∃ buffer,
    run (fun x w b => incstats_central_moment x w b 5)
      [(1, 1); (3, 1); (5, 2)] (zeros 6) = Ok buffer ∧
    buffer !! 5%nat
    = Some (moment_sum 5 (weighted_mean [(1, 1); (3, 1); (5, 2)])
              [(1, 1); (3, 1); (5, 2)]).
Proof.
  destruct (central_moment_of_stream 5 [(1, 1); (3, 1); (5, 2)])
    as (b & Hrun & _ & _ & _ & Hmom).
  - lia.
  - done.
  - repeat constructor; simpl; lra.
  - exists b. split; [exact Hrun | apply Hmom; lia].
Defined.

(** X15. The generalised engine end to end: after the updates of a
    non-empty stream of positively weighted samples from [p + 1] zeros
    (order [2 <= p <= 62]), [incstats_central_moment_finalize] writes into
    [results[i]], for [2 <= i <= p], the central moment
    [sum w (x - mean)^i / sum w], divided by the [i]-th power of the
    standard deviation when [standardize] is set (the samples are then not
    all equal), and the weighted mean into [results[p + 1]]. *)
Theorem central_moments_finalized (p : Z) (standardize : bool)
    (stream : list (R * R)) (results : list R) :
  (2 ≤ p ≤ 62)%Z → stream ≠ [] → Forall (fun s => 0 < snd s) stream →
  (p + 2 ≤ Z.of_nat (length results))%Z →
  (standardize = true → 0 < moment_sum 2 (weighted_mean stream) stream) →
  ∃ buffer results',
    run (fun x w b => incstats_central_moment x w b p) stream
      (zeros (Z.to_nat (p + 1))) = Ok buffer ∧
    incstats_central_moment_finalize p standardize (Mem results buffer)
    = Ok (Mem results' buffer) ∧
    results' !! Z.to_nat (p + 1) = Some (weighted_mean stream) ∧
    ∀ i : nat, (2 ≤ Z.of_nat i ≤ p)%Z →
      results' !! i
      = Some (standardized standardize
                (moment_sum 2 (weighted_mean stream) stream / sum_w stream)
                (Z.of_nat i)
                (moment_sum i (weighted_mean stream) stream
                 / sum_w stream)).
Proof.
  intros Hp Hne Hall Hres Hstd.
  destruct (run_central_moment_holds (Z.to_nat p) stream ltac:(lia) Hall []
              (zeros (Z.to_nat (p + 1))))
    as (b & Hrun & Hlen & _ & _ & H0 & m & H1 & Hm & Hmom);
    [done | apply holds_moments_zeros; lia |].
  rewrite Z2Nat.id in Hrun by lia. rewrite length_zeros in Hlen.
  rewrite app_nil_l in H0, Hm, Hmom.
  pose proof (sum_w_pos stream Hne Hall) as Hpos.
  assert (Hmean : m = weighted_mean stream).
  { unfold weighted_mean. rewrite <- Hm. field. lra. }
  subst m.
  destruct (central_moment_finalize_spec p standardize results b
              (sum_w stream) (weighted_mean stream)
              (moment_sum 2 (weighted_mean stream) stream))
    as (results' & Hfin & Hl & Hk);
    [unfold UINT64_MAX; lia | lia | done | done | done
     | apply Hmom; lia | lra
     | intros Hs; apply Rdiv_lt_0_compat; [by apply Hstd | done] |].
  exists b, results'. split; [done|]. split; [done|]. split.
  - rewrite Hk. rewrite !decide_False by lia. by rewrite decide_True by lia.
  - intros i Hi. rewrite Hk. rewrite !decide_False by lia.
    rewrite decide_True by lia. by rewrite Hmom by lia.
Qed.

Lemma central_moments_finalized_witness :
  ∃ buffer results',
    run (fun x w b => incstats_central_moment x w b 5)
      [(1, 1); (3, 1); (5, 2)] (zeros 6) = Ok buffer ∧
    incstats_central_moment_finalize 5 true (Mem (zeros 7) buffer)
    = Ok (Mem results' buffer) ∧
    results' !! 6%nat = Some (weighted_mean [(1, 1); (3, 1); (5, 2)]).
Proof.
  destruct (central_moments_finalized 5 true [(1, 1); (3, 1); (5, 2)]
              (zeros 7))
    as (b & r' & Hrun & Hfin & Hmean & _).
  - lia.
  - done.
  - repeat constructor; simpl; lra.
  - simpl. lia.
  - intros _. apply stream_example_spread.
  - by exists b, r'.
Defined.

(** ** Symmetry of the binomial coefficient *)

(** X16. [n_choose_k] replaces [k] by [n - k] when that is smaller, so
    that for every [0 <= k <= n] of the type, wrapped products or not,
    [n_choose_k n k] returns, and returns what [n_choose_k n (n - k)]
    returns; it returns 1 for [k = 0] and [k = n], and [n] for [k = 1]. *)
Theorem n_choose_k_symmetric (n k : Z) :
  (0 ≤ k ≤ n)%Z → (n ≤ UINT64_MAX)%Z →
  (∃ c, n_choose_k n k = Ok c ∧ n_choose_k n (n - k) = Ok c) ∧
  n_choose_k n 0 = Ok 1%Z ∧ n_choose_k n n = Ok 1%Z ∧
  ((1 ≤ n)%Z → n_choose_k n 1 = Ok n).
Proof.
  intros Hk Hn. split; [|split; [|split]].
  - unfold n_choose_k.
    rewrite (u64_small (n - k)), (u64_small (n - (n - k))) by lia.
    replace (n - (n - k))%Z with k by lia.
    destruct (k >? n - k)%Z eqn:E1; destruct (n - k >? k)%Z eqn:E2;
      rewrite Z.gtb_ltb in E1, E2;
      try apply Z.ltb_lt in E1; try apply Z.ltb_ge in E1;
      try apply Z.ltb_lt in E2; try apply Z.ltb_ge in E2;
      try lia.
    + rewrite (proj2 (Z.eqb_neq _ _)) by lia. eauto.
    + rewrite (proj2 (Z.eqb_neq _ _)) by lia. eauto.
    + replace (n - k)%Z with k by lia.
      rewrite (proj2 (Z.eqb_neq _ _)) by (unfold UINT64_MAX in *; lia).
      eauto.
  - unfold n_choose_k. rewrite Z.sub_0_r, u64_small by lia.
    destruct (0 >? n)%Z eqn:E; [|done].
    rewrite Z.gtb_ltb in E. apply Z.ltb_lt in E. lia.
  - unfold n_choose_k. rewrite Z.sub_diag. change (u64 0) with 0%Z.
    destruct (n >? 0)%Z eqn:E; [done|].
    rewrite Z.gtb_ltb in E. apply Z.ltb_ge in E.
    by replace n with 0%Z by lia.
  - intros H1. unfold n_choose_k. rewrite u64_small by lia.
    destruct (1 >? n - 1)%Z eqn:E; rewrite Z.gtb_ltb in E.
    + apply Z.ltb_lt in E. replace n with 1%Z by lia. done.
    + apply Z.ltb_ge in E. change (1 =? UINT64_MAX)%Z with false.
      change (Z.to_nat 1) with 1%nat.
      cbn [n_choose_k_loop n_choose_k_body snd].
      rewrite Z.mod_1_r. change (0 =? 0)%Z with true. cbn iota.
      rewrite Z.div_1_r, Z.mul_1_l. f_equal. apply u64_small. lia.
Qed.

Lemma n_choose_k_symmetric_witness :
  ∃ c, n_choose_k 100 40 = Ok c ∧ n_choose_k 100 (100 - 40) = Ok c.
Proof.
  apply (n_choose_k_symmetric 100 40); [|unfold UINT64_MAX]; lia.
Defined.

(** ** Invariants of one update *)

Lemma next_mean_between (x w W m : R) :
  0 <= W → 0 <= w → 0 < W + w →
  Rmin m x <= next_mean x w W m <= Rmax m x.
Proof.
  intros HW Hw Hpos. unfold next_mean.
  assert (Ht : 0 <= w / (W + w) <= 1).
  { split.
    - apply Rmult_le_pos; [done|]. left. by apply Rinv_0_lt_compat.
    - apply (Rmult_le_reg_r (W + w)); [done|].
      unfold Rdiv. rewrite Rmult_assoc, Rinv_l by lra. lra. }
  destruct Ht as [Ht0 Ht1]. set (t := w / (W + w)) in *.
  unfold Rmin, Rmax. destruct (Rle_dec m x) as [Hle|Hgt]; nra.
Qed.

(** X17. In exact arithmetic the running mean moves towards the sample and
    never past it: one update with a weight [w >= 0] on an accumulator of
    weight [W >= 0] ([W + w > 0]) leaves the weight [W + w] and a mean
    between the old mean and the sample, the weighted average
    [(W m + w x) / (W + w)] of the two; this holds for the four specialised
    updates and for the generalised update of every order.  (Rounding is
    not modelled.) *)
Theorem mean_moves_towards_sample (x w W m : R) (p : Z) (l : list R) :
  0 <= W → 0 <= w → 0 < W + w →
  (3 ≤ length l)%nat →
  (0 ≤ p ≤ UINT64_MAX)%Z → (p + 1 ≤ Z.of_nat (length (W :: m :: l)))%Z →
  ∃ m', Rmin m x <= m' <= Rmax m x ∧
        m' * (W + w) = W * m + w * x ∧
        leaves_weight_and_mean (incstats_mean x w (W :: m :: l)) (W + w) m' ∧
        leaves_weight_and_mean (incstats_variance x w (W :: m :: l))
          (W + w) m' ∧
        leaves_weight_and_mean (incstats_skewness x w (W :: m :: l))
          (W + w) m' ∧
        leaves_weight_and_mean (incstats_kurtosis x w (W :: m :: l))
          (W + w) m' ∧
        leaves_weight_and_mean (incstats_central_moment x w (W :: m :: l) p)
          (W + w) m'.
Proof.
  intros HW Hw Hpos Hlen Hp Hl. exists (next_mean x w W m).
  split; [by apply next_mean_between|].
  split; [unfold next_mean; field; lra|].
  unfold leaves_weight_and_mean. repeat split.
  - destruct (incstats_mean_mean x w (W :: m :: l) W m)
      as (b & Hb & _ & H0 & H1); [simpl; lia | done | done | lra |].
    by exists b.
  - destruct (incstats_variance_mean x w (W :: m :: l) W m)
      as (b & Hb & _ & H0 & H1); [simpl; lia | done | done | lra |].
    by exists b.
  - destruct (incstats_skewness_mean x w (W :: m :: l) W m)
      as (b & Hb & _ & H0 & H1); [simpl; lia | done | done | lra |].
    by exists b.
  - destruct (incstats_kurtosis_mean x w (W :: m :: l) W m)
      as (b & Hb & _ & H0 & H1); [simpl; lia | done | done | lra |].
    by exists b.
  - destruct (incstats_central_moment_mean p x w (W :: m :: l) W m)
      as (b & Hb & _ & H0 & H1);
      [done | cbn [length] in *; lia | done | done | lra |].
    by exists b.
Qed.

Lemma mean_moves_towards_sample_witness :
  ∃ m', Rmin 1 4 <= m' <= Rmax 1 4 ∧
        leaves_weight_and_mean
          (incstats_central_moment 4 1 [2; 1; 0; 0; 0; 0] 5) (2 + 1) m'.
Proof.
  destruct (mean_moves_towards_sample 4 1 2 1 5 [0; 0; 0; 0])
    as (m' & Hb & _ & _ & _ & _ & _ & Hc);
    [lra | lra | lra | simpl; lia | unfold UINT64_MAX; lia | simpl; lia |].
  by exists m'.
Defined.

Lemma moment_sum_2_nonneg (c : R) (stream : list (R * R)) :
  Forall (fun s => 0 < snd s) stream → 0 <= moment_sum 2 c stream.
Proof.
  induction 1 as [|[x w] stream Hw _ IH]; [simpl; lra|].
  simpl in Hw. rewrite moment_sum_cons.
  pose proof (pow2_ge_0 (x - c)). nra.
Qed.

(** X18. In exact arithmetic the second-moment slot never decreases: on
    any accumulator of weight [W >= 0], a stream of positively weighted
    samples run through [incstats_variance], [incstats_skewness] or
    [incstats_kurtosis] leaves a slot 2 that is at least the one it found,
    the same real number for the three functions.  (Rounding is not
    modelled.) *)
Theorem second_moment_never_decreases (stream : list (R * R))
    (W m M2 M3 M4 : R) (l2 l3 l4 : list R) :
  Forall (fun s => 0 < snd s) stream → 0 <= W →
  ∃ W' m' M2' M3' M4',
    run incstats_variance stream (W :: m :: M2 :: l2)
    = Ok (W' :: m' :: M2' :: l2) ∧
    run incstats_skewness stream (W :: m :: M2 :: M3 :: l3)
    = Ok (W' :: m' :: M2' :: M3' :: l3) ∧
    run incstats_kurtosis stream (W :: m :: M2 :: M3 :: M4 :: l4)
    = Ok (W' :: m' :: M2' :: M3' :: M4' :: l4) ∧
    W <= W' ∧ M2 <= M2'.
Proof.
  intros Hall HW.
  destruct (run_kurtosis_moments stream Hall W m M2 M3 M4 l4 HW)
    as (W' & m' & M2' & M3' & M4' & Hk & HW' & _ & H2 & _).
  destruct (specialised_runs_share stream W m M2 M3 M4 [] l2 l3 l4)
    as [(_ & _ & _ & He)|(W1 & m1 & M21 & M31 & M41 & _ & Hv & Hs & Hk')];
    [congruence|].
  rewrite Hk in Hk'. injection Hk' as <- <- <- <- <-.
  exists W', m', M2', M3', M4'. repeat split; try done.
  - pose proof (sum_w_nonneg stream Hall). lra.
  - pose proof (moment_sum_2_nonneg m' stream Hall).
    pose proof (pow2_ge_0 (m - m')). nra.
Qed.

Lemma second_moment_never_decreases_witness :
  ∃ W' m' M2',
    run incstats_variance [(4, 1); (0, 2)] [2; 1; 5] = Ok [W'; m'; M2'] ∧
    5 <= M2'.
Proof.
  destruct (second_moment_never_decreases [(4, 1); (0, 2)] 2 1 5 0 0
              [] [] [])
    as (W' & m' & M2' & M3' & M4' & Hv & _ & _ & _ & H2).
  - repeat constructor; simpl; lra.
  - lra.
  - by exists W', m', M2'.
Defined.

(** ** When the specialised finalize functions return *)

Lemma incstats_variance_finalize_outcome (r0 r1 b0 b1 b2 : R)
    (rl bl : list R) :
  incstats_variance_finalize (Mem (r0 :: r1 :: rl) (b0 :: b1 :: b2 :: bl))
  = if Req_dec_T b0 0 then Err NotReal
    else Ok (Mem (b1 :: b2 / b0 :: rl) (b0 :: b1 :: b2 :: bl)).
Proof.
  destruct (Req_dec_T b0 0) as [->|H0].
  - apply incstats_variance_finalize_no_weight.
  - by apply incstats_variance_finalize_eval.
Qed.

Lemma finalize_skewness_slot_not_real (r0 r1 r2 b0 b1 b2 b3 : R)
    (rl bl : list R) :
  b0 ≠ 0 → b2 / b0 <= 0 →
  finalize_skewness_slot
    (Mem (r0 :: r1 :: r2 :: rl) (b0 :: b1 :: b2 :: b3 :: bl))
  = Err NotReal.
Proof.
  intros H0 Hv. unfold finalize_skewness_slot, rd, wr. exec.
  destruct (Rlt_dec (b2 / b0) 0) as [Hneg|Hnn].
  - by rewrite fsqrt_neg.
  - assert (Hz : b2 / b0 = 0) by lra.
    rewrite Hz, fsqrt_Ok by lra. simpl. rewrite Rmult_0_l.
    by rewrite fdiv_zero.
Qed.

Lemma incstats_skewness_finalize_outcome (r0 r1 r2 b0 b1 b2 b3 : R)
    (rl bl : list R) :
  incstats_skewness_finalize
    (Mem (r0 :: r1 :: r2 :: rl) (b0 :: b1 :: b2 :: b3 :: bl))
  = if Req_dec_T b0 0 then Err NotReal
    else if Rle_dec (b2 / b0) 0 then Err NotReal
    else Ok (Mem (b1 :: b2 / b0
                  :: b3 / b0 / (b2 / b0 * sqrt (b2 / b0)) :: rl)
               (b0 :: b1 :: b2 :: b3 :: bl)).
Proof.
  destruct (Req_dec_T b0 0) as [->|H0].
  - unfold incstats_skewness_finalize.
    by rewrite incstats_variance_finalize_no_weight.
  - destruct (Rle_dec (b2 / b0) 0) as [Hv|Hv].
    + unfold incstats_skewness_finalize.
      rewrite incstats_variance_finalize_eval, bind_Ok by done.
      by apply finalize_skewness_slot_not_real.
    + apply incstats_skewness_finalize_eval; [done | lra].
Qed.

Lemma incstats_kurtosis_finalize_outcome (r0 r1 r2 r3 b0 b1 b2 b3 b4 : R)
    (rl bl : list R) :
  incstats_kurtosis_finalize
    (Mem (r0 :: r1 :: r2 :: r3 :: rl) (b0 :: b1 :: b2 :: b3 :: b4 :: bl))
  = if Req_dec_T b0 0 then Err NotReal
    else if Rle_dec (b2 / b0) 0 then Err NotReal
    else Ok (Mem (b1 :: b2 / b0
                  :: b3 / b0 / (b2 / b0 * sqrt (b2 / b0))
                  :: b4 / b0 / incstats_pow (b2 / b0) 2 :: rl)
               (b0 :: b1 :: b2 :: b3 :: b4 :: bl)).
Proof.
  destruct (Req_dec_T b0 0) as [->|H0].
  - unfold incstats_kurtosis_finalize.
    by rewrite incstats_variance_finalize_no_weight.
  - destruct (Rle_dec (b2 / b0) 0) as [Hv|Hv].
    + unfold incstats_kurtosis_finalize.
      rewrite incstats_variance_finalize_eval, bind_Ok by done.
      by rewrite finalize_skewness_slot_not_real.
    + apply incstats_kurtosis_finalize_eval; [done | lra].
Qed.

(** X19. On arrays of the documented sizes the specialised finalize
    functions stay within bounds, and they return exactly when the
    statistics exist: the variance finalize when the cumulative weight
    [buffer[0]] is not zero, the skewness and the kurtosis finalize when in
    addition the variance [buffer[2] / buffer[0]] is positive; otherwise a
    division by zero or the square root of a negative number ends the
    call.  The results are functions of the accumulator alone; the slots of
    [results] behind them are untouched. *)
Theorem specialised_finalize_outcomes (r0 r1 r2 r3 b0 b1 b2 b3 b4 : R)
    (rl bl : list R) :
  incstats_variance_finalize (Mem (r0 :: r1 :: rl) (b0 :: b1 :: b2 :: bl))
  = (if Req_dec_T b0 0 then Err NotReal
     else Ok (Mem (b1 :: b2 / b0 :: rl) (b0 :: b1 :: b2 :: bl))) ∧
  incstats_skewness_finalize
    (Mem (r0 :: r1 :: r2 :: rl) (b0 :: b1 :: b2 :: b3 :: bl))
  = (if Req_dec_T b0 0 then Err NotReal
     else if Rle_dec (b2 / b0) 0 then Err NotReal
     else Ok (Mem (b1 :: b2 / b0
                   :: b3 / b0 / (b2 / b0 * sqrt (b2 / b0)) :: rl)
                (b0 :: b1 :: b2 :: b3 :: bl))) ∧
  incstats_kurtosis_finalize
    (Mem (r0 :: r1 :: r2 :: r3 :: rl) (b0 :: b1 :: b2 :: b3 :: b4 :: bl))
  = (if Req_dec_T b0 0 then Err NotReal
     else if Rle_dec (b2 / b0) 0 then Err NotReal
     else Ok (Mem (b1 :: b2 / b0
                   :: b3 / b0 / (b2 / b0 * sqrt (b2 / b0))
                   :: b4 / b0 / (b2 / b0) ^ 2 :: rl)
                (b0 :: b1 :: b2 :: b3 :: b4 :: bl))).
Proof.
  split; [apply incstats_variance_finalize_outcome|].
  split; [apply incstats_skewness_finalize_outcome|].
  rewrite incstats_kurtosis_finalize_outcome.
  by rewrite incstats_pow_pow by (unfold UINT64_MAX; lia).
Qed.

(** *** A second call of a specialised finalize *)

(** Closes a goal [o = Ok _ → _] when some step of [o] ends in an error. *)
Ltac absurd_binds :=
  intros;
  repeat match goal with
         | H : _ ≫= _ = Ok _ |- _ =>
             let a := fresh in let Ha := fresh in
             apply bind_Ok_inv in H as (a & Ha & H)
         | H : Ok _ = Ok ?x |- _ =>
             is_var x; injection H as <-; simpl in *
         | H : store _ _ _ = Ok ?x |- _ =>
             is_var x; apply store_Ok_inv in H as [? ->]; simpl in *
         end;
  first [discriminate | lia].

Lemma incstats_mean_finalize_again (m m' : mem) :
  incstats_mean_finalize m = Ok m' → incstats_mean_finalize m' = Ok m'.
Proof.
  destruct m as [[|r0 rl] [|b0 [|b1 bl]]];
    try (unfold incstats_mean_finalize, rd, wr; exec; absurd_binds).
  unfold incstats_mean_finalize, rd, wr. exec. by intros [= <-].
Qed.

Lemma incstats_variance_finalize_again (m m' : mem) :
  incstats_variance_finalize m = Ok m' →
  incstats_variance_finalize m' = Ok m'.
Proof.
  destruct m as [[|r0 [|r1 rl]] [|b0 [|b1 [|b2 bl]]]];
    try (unfold incstats_variance_finalize, rd, wr; exec; absurd_binds).
  rewrite incstats_variance_finalize_outcome.
  destruct (Req_dec_T b0 0) as [|H0] eqn:E; [done|]. intros [= <-].
  by rewrite incstats_variance_finalize_outcome, E.
Qed.

Lemma incstats_skewness_finalize_again (m m' : mem) :
  incstats_skewness_finalize m = Ok m' →
  incstats_skewness_finalize m' = Ok m'.
Proof.
  destruct m as [[|r0 [|r1 [|r2 rl]]] [|b0 [|b1 [|b2 [|b3 bl]]]]];
    try (unfold incstats_skewness_finalize, incstats_variance_finalize,
           finalize_skewness_slot, rd, wr; exec; absurd_binds).
  rewrite incstats_skewness_finalize_outcome.
  destruct (Req_dec_T b0 0) as [|H0] eqn:E0; [done|].
  destruct (Rle_dec (b2 / b0) 0) as [|Hv] eqn:Ev; [done|]. intros [= <-].
  by rewrite incstats_skewness_finalize_outcome, E0, Ev.
Qed.

Lemma incstats_kurtosis_finalize_again (m m' : mem) :
  incstats_kurtosis_finalize m = Ok m' →
  incstats_kurtosis_finalize m' = Ok m'.
Proof.
  destruct m
    as [[|r0 [|r1 [|r2 [|r3 rl]]]] [|b0 [|b1 [|b2 [|b3 [|b4 bl]]]]]];
    try (unfold incstats_kurtosis_finalize, incstats_variance_finalize,
           finalize_skewness_slot, rd, wr; exec; absurd_binds).
  rewrite incstats_kurtosis_finalize_outcome.
  destruct (Req_dec_T b0 0) as [|H0] eqn:E0; [done|].
  destruct (Rle_dec (b2 / b0) 0) as [|Hv] eqn:Ev; [done|]. intros [= <-].
  by rewrite incstats_kurtosis_finalize_outcome, E0, Ev.
Qed.

(** X20. The specialised finalize functions can be called again: on every
    memory, whatever the sizes of the arrays, a call that returns leaves a
    memory on which the same call returns and changes nothing. *)
Theorem specialised_finalize_idempotent (m m' : mem) :
  (incstats_mean_finalize m = Ok m' → incstats_mean_finalize m' = Ok m') ∧
  (incstats_variance_finalize m = Ok m' →
   incstats_variance_finalize m' = Ok m') ∧
  (incstats_skewness_finalize m = Ok m' →
   incstats_skewness_finalize m' = Ok m') ∧
  (incstats_kurtosis_finalize m = Ok m' →
   incstats_kurtosis_finalize m' = Ok m').
Proof.
  split; [apply incstats_mean_finalize_again|].
  split; [apply incstats_variance_finalize_again|].
  split; [apply incstats_skewness_finalize_again|].
  apply incstats_kurtosis_finalize_again.
Qed.

Lemma specialised_finalize_idempotent_witness :
  incstats_kurtosis_finalize
    (Mem [3; 2; 0; 17 / 4] [2; 3; 4; 0; 34])
  = Ok (Mem [3; 2; 0; 17 / 4] [2; 3; 4; 0; 34]).
Proof.
  apply (specialised_finalize_idempotent
           (Mem [0; 0; 0; 0] [2; 3; 4; 0; 34])).
  rewrite incstats_kurtosis_finalize_eval by lra.
  rewrite incstats_pow_2. replace (4 / 2) with 2 by lra.
  replace (0 / 2 / (2 * sqrt 2)) with 0 by (unfold Rdiv; ring).
  by replace (34 / 2 / (2 * 2)) with (17 / 4) by lra.
Defined.

(** ** When the updates return *)

Lemma incstats_central_moment_no_weight (x w b0 : R) (buffer : list R)
    (p : Z) :
  (0 ≤ p ≤ UINT64_MAX)%Z →
  (Z.max 2 (p + 1) ≤ Z.of_nat (length buffer))%Z →
  buffer !! 0%nat = Some b0 → b0 + w = 0 →
  incstats_central_moment x w buffer p = Err NotReal.
Proof.
  intros Hp Hlen H0 Hz. unfold incstats_central_moment.
  rewrite (load_lookup buffer 0 b0) by (done || lia).
  rewrite bind_Ok, Hz. unfold for_down.
  destruct (load_in_bounds buffer 1) as (b1 & Hb1 & _); [lia|].
  destruct (decide (p < 2)%Z) as [Hlt|Hge].
  - replace (Z.to_nat (p - 1)) with 0%nat by lia. cbn [iter_down].
    rewrite bind_Ok. unfold update_mean_weight.
    by rewrite Hb1, bind_Ok, fdiv_zero.
  - replace (Z.to_nat (p - 1)) with (S (Z.to_nat (p - 2))) by lia.
    cbn [iter_down].
    assert (Hup : update_order x w 0 p buffer = Err NotReal);
      [|by rewrite Hup].
    unfold update_order, for_down. rewrite u64_small by lia.
    destruct (decide (p = 2%Z)) as [->|Hne].
    + change (Z.to_nat (2 - 2 - 0)) with 0%nat. cbn [iter_down].
      rewrite bind_Ok.
      destruct (load_in_bounds buffer 2) as (b2 & -> & _); [lia|].
      rewrite bind_Ok, (load_lookup buffer 0 b0) by (done || lia).
      by rewrite bind_Ok, Hb1, bind_Ok, !fdiv_zero.
    + replace (Z.to_nat (p - 2 - 0)) with (S (Z.to_nat (p - 3))) by lia.
      cbn [iter_down].
      assert (Hc : cross_term x w 0 buffer p (p - 2) 0 = Err NotReal);
        [|by rewrite Hc].
      unfold cross_term.
      destruct (n_choose_k_terminates p (p - 2)) as [c ->]; [lia|].
      rewrite bind_Ok. replace (p - (p - 2))%Z with 2%Z by lia.
      change (u64 2) with 2%Z.
      destruct (load_in_bounds buffer 2) as (b2 & -> & _); [lia|].
      by rewrite bind_Ok, Hb1, bind_Ok, !fdiv_zero.
Qed.

(** X21. With an accumulator of the documented size, an update fails in
    one case only, and then by a division by zero: when the cumulative
    weight after the sample, [buffer[0] + w], is zero.  In every other case
    (negative weights included) it returns an accumulator of the same size.
    This holds for the four specialised updates and for the generalised
    update of every order. *)
Theorem updates_fail_on_zero_weight_only (x w b0 b1 b2 b3 b4 : R)
    (l : list R) (p : Z) :
  (0 ≤ p ≤ UINT64_MAX)%Z → (p + 1 ≤ 5 + Z.of_nat (length l))%Z →
  fails_on_zero_weight_only
    (incstats_mean x w (b0 :: b1 :: b2 :: b3 :: b4 :: l))
    b0 w (5 + length l) ∧
  fails_on_zero_weight_only
    (incstats_variance x w (b0 :: b1 :: b2 :: b3 :: b4 :: l))
    b0 w (5 + length l) ∧
  fails_on_zero_weight_only
    (incstats_skewness x w (b0 :: b1 :: b2 :: b3 :: b4 :: l))
    b0 w (5 + length l) ∧
  fails_on_zero_weight_only
    (incstats_kurtosis x w (b0 :: b1 :: b2 :: b3 :: b4 :: l))
    b0 w (5 + length l) ∧
  fails_on_zero_weight_only
    (incstats_central_moment x w (b0 :: b1 :: b2 :: b3 :: b4 :: l) p)
    b0 w (5 + length l).
Proof.
  intros Hp Hlen. unfold fails_on_zero_weight_only.
  destruct (Req_dec_T (b0 + w) 0) as [Hz|Hnz].
  - rewrite incstats_mean_not_real, incstats_variance_not_real,
      incstats_skewness_not_real, incstats_kurtosis_not_real by done.
    repeat split.
    apply (incstats_central_moment_no_weight x w b0);
      [done | cbn [length]; lia | done | done].
  - rewrite incstats_mean_step, incstats_variance_step,
      incstats_skewness_step, incstats_kurtosis_step by done.
    repeat split; eauto.
    destruct (incstats_central_moment_mean p x w
                (b0 :: b1 :: b2 :: b3 :: b4 :: l) b0 b1)
      as (b & Hb & Hl & _); [done | cbn [length]; lia | done..|].
    exists b. by rewrite Hb, Hl.
Qed.

Lemma updates_fail_on_zero_weight_only_witness :
  fails_on_zero_weight_only
    (incstats_central_moment 7 (-2) [2; 1; 0; 0; 0; 0; 0] 6) 2 (-2) 7.
Proof.
  apply (updates_fail_on_zero_weight_only 7 (-2) 2 1 0 0 0 [0; 0] 6);
    [unfold UINT64_MAX|simpl]; lia.
Defined.

(** ** The order of the generalised update and the lower slots *)

Lemma iter_down_split {St : Type} (a b : nat) (i : Z)
    (body : Z → St → outcome St) (s : St) :
  iter_down (a + b) i body s
  = s' ← iter_down a i body s; iter_down b (i - Z.of_nat a)%Z body s'.
Proof.
  revert i s. induction a as [|a IH]; intros i s.
  - cbn [iter_down Nat.add]. rewrite bind_Ok. f_equal. lia.
  - cbn [iter_down Nat.add]. destruct (body i s) as [s1|e]; [|done].
    rewrite !bind_Ok, IH. do 2 f_equal. lia.
Qed.

(** The loop over the orders [i, i - 1, ...] ([n] of them) writes the
    slots of these orders only. *)
Lemma update_orders_untouched (x w new_sum_w : R) (n : nat) :
  ∀ (i : Z) (cur cur' : list R),
    iter_down n i (update_order x w new_sum_w) cur = Ok cur' →
    length cur' = length cur ∧
    ∀ j : nat, ¬ (i - Z.of_nat n < Z.of_nat j ≤ i)%Z → cur' !! j = cur !! j.
Proof.
  induction n as [|n IH]; intros i cur cur' H.
  - injection H as <-. done.
  - cbn [iter_down] in H. apply bind_Ok_inv in H as (c1 & H1 & H).
    rewrite update_order_as_value in H1.
    apply bind_Ok_inv in H1 as (v & _ & Hst).
    apply store_Ok_inv in Hst as [Hb ->].
    apply IH in H as [Hl Hout]. rewrite length_insert in Hl.
    split; [done|]. intros j Hj.
    rewrite Hout by lia. apply list_lookup_insert_ne. lia.
Qed.

Lemma commit_pointwise (staged : list (Z * R)) :
  ∀ (a b a' b' : list R),
    commit staged a = Ok a' → commit staged b = Ok b' →
    ∀ j : nat, a !! j = b !! j → a' !! j = b' !! j.
Proof.
  induction staged as [|[i v] staged IH]; intros a b a' b' Ha Hb j Hj.
  - injection Ha as <-. by injection Hb as <-.
  - cbn [commit] in Ha, Hb.
    apply bind_Ok_inv in Ha as (a1 & Ha1 & Ha).
    apply bind_Ok_inv in Hb as (b1 & Hb1 & Hb).
    apply store_Ok_inv in Ha1 as [Hia ->].
    apply store_Ok_inv in Hb1 as [Hib ->].
    apply (IH _ _ _ _ Ha Hb).
    destruct (decide (j = Z.to_nat i)) as [->|Hne].
    + by rewrite !list_lookup_insert_eq by lia.
    + by rewrite !list_lookup_insert_ne by done.
Qed.

Lemma central_moment_lower_order (x w : R) (buffer b_p : list R)
    (p q : Z) :
  (1 ≤ q ≤ p)%Z → (p ≤ UINT64_MAX)%Z →
  incstats_central_moment x w buffer p = Ok b_p →
  ∃ b_q, incstats_central_moment x w buffer q = Ok b_q ∧
         length b_q = length buffer ∧
         (∀ j : nat, (Z.of_nat j ≤ q)%Z → b_q !! j = b_p !! j) ∧
         (∀ j : nat, (q < Z.of_nat j)%Z → b_q !! j = buffer !! j).
Proof.
  intros Hq Hp H. unfold incstats_central_moment in *.
  apply bind_Ok_inv in H as (b0 & Hb0 & H). rewrite Hb0, bind_Ok.
  apply bind_Ok_inv in H as (cur_p & Hloop & Hmw).
  unfold for_down in *.
  replace (Z.to_nat (p - 1)) with (Z.to_nat (p - q) + Z.to_nat (q - 1))%nat
    in Hloop by lia.
  rewrite iter_down_split in Hloop.
  apply bind_Ok_inv in Hloop as (cur1 & Hhigh & Hlow).
  replace (p - Z.of_nat (Z.to_nat (p - q)))%Z with q in Hlow by lia.
  (* the orders above [q] leave the slots [0..q] alone *)
  apply update_orders_untouched in Hhigh as [Hl1 Hout1].
  assert (Hag : agree_upto q cur1 buffer).
  { intros j Hj. apply Hout1. lia. }
  pose proof (update_orders_untouched _ _ _ _ _ _ _ Hlow) as [Hlp _].
  (* the orders [q..2] stage the same values in both calls *)
  rewrite (update_orders_snapshot x w (b0 + w) buffer) in Hlow
    by (done || lia).
  apply bind_Ok_inv in Hlow as (staged & Hst & Hcp).
  destruct (staged_values_commit x w (b0 + w) buffer (Z.to_nat (q - 1)) q
              buffer staged) as (cur_q & Hcq & _); [lia | done..|].
  assert (Hrunq : iter_down (Z.to_nat (q - 1)) q
                    (update_order x w (b0 + w)) buffer = Ok cur_q).
  { rewrite (update_orders_snapshot x w (b0 + w) buffer)
      by (done || lia).
    by rewrite Hst, bind_Ok. }
  rewrite Hrunq, bind_Ok.
  apply update_orders_untouched in Hrunq as [Hlq Houtq].
  pose proof (commit_pointwise staged _ _ _ _ Hcq Hcp) as Hpt.
  (* the mean and the weight *)
  unfold update_mean_weight in Hmw.
  apply bind_Ok_inv in Hmw as (b1 & Hb1 & Hmw).
  apply bind_Ok_inv in Hmw as (t & Ht & Hmw).
  apply bind_Ok_inv in Hmw as (c1 & Hc1 & Hc0).
  apply store_Ok_inv in Hc1 as [Hi1 ->].
  apply store_Ok_inv in Hc0 as [Hi0 ->].
  apply load_Ok_inv in Hb1 as [_ Hb1].
  assert (Hn : b0 + w ≠ 0).
  { destruct (fdiv_cases w (b0 + w)) as [[_ He]|[Hn _]]; [congruence|done]. }
  assert (Hq1 : cur_q !! 1%nat = Some b1).
  { rewrite (Hpt 1%nat); [done|]. symmetry. apply Hag. lia. }
  rewrite (update_mean_weight_Ok x w (b0 + w) b1) by done.
  rewrite fdiv_Ok in Ht by done. injection Ht as <-.
  eexists. split; [done|]. rewrite !length_insert.
  split; [done|]. split.
  - intros j Hj.
    destruct (decide (j = 0%nat)) as [->|Hj0].
    { by rewrite !list_lookup_insert_eq by (rewrite length_insert; lia). }
    rewrite !(list_lookup_insert_ne _ 0%nat) by done.
    destruct (decide (j = 1%nat)) as [->|Hj1].
    { by rewrite !list_lookup_insert_eq by lia. }
    rewrite !list_lookup_insert_ne by done.
    apply Hpt. symmetry. by apply Hag.
  - intros j Hj. rewrite !list_lookup_insert_ne by lia.
    apply Houtq. lia.
Qed.

(** The orders [i, i - 1, ...] read the slots [0..i] only: on two
    accumulators that agree there, the loop computes the same values. *)
Lemma update_orders_agree (x w new_sum_w : R) (n : nat) :
  ∀ (i : Z) (a b a' : list R),
    (1 ≤ i - Z.of_nat n)%Z → (i ≤ UINT64_MAX)%Z →
    agree_upto i a b → (i < Z.of_nat (length b))%Z →
    iter_down n i (update_order x w new_sum_w) a = Ok a' →
    ∃ b', iter_down n i (update_order x w new_sum_w) b = Ok b' ∧
          length b' = length b ∧ agree_upto i a' b' ∧
          ∀ j : nat, (i < Z.of_nat j)%Z → b' !! j = b !! j.
Proof.
  induction n as [|n IH]; intros i a b a' Hn Hi Hag Hlen H.
  - injection H as <-. by exists b.
  - cbn [iter_down] in *. apply bind_Ok_inv in H as (a1 & H1 & H).
    rewrite update_order_as_value in *.
    apply bind_Ok_inv in H1 as (v & Hv & Hst).
    apply store_Ok_inv in Hst as [Hia ->].
    rewrite <- (order_value_agree x w new_sum_w i a b) by (done || lia).
    rewrite Hv, bind_Ok, store_Ok, bind_Ok by lia.
    assert (Hag1 : agree_upto i (<[Z.to_nat i := v]> a)
                     (<[Z.to_nat i := v]> b)).
    { intros j Hj. destruct (decide (j = Z.to_nat i)) as [->|Hne].
      - by rewrite !list_lookup_insert_eq by lia.
      - rewrite !list_lookup_insert_ne by done. by apply Hag. }
    destruct (IH (i - 1)%Z (<[Z.to_nat i := v]> a) (<[Z.to_nat i := v]> b) a')
      as (b' & Hb' & Hl & Hag' & Hout);
      [lia | lia | intros j Hj; apply Hag1; lia
       | rewrite length_insert; lia | done |].
    exists b'. split; [done|]. rewrite Hl, length_insert. split; [done|].
    apply update_orders_untouched in H as [_ Ha'].
    split.
    + intros j Hj. destruct (decide (Z.of_nat j = i)) as [Hji|Hji].
      * rewrite Ha', Hout by lia. apply Hag1. lia.
      * apply Hag'. lia.
    + intros j Hj. rewrite Hout by lia. apply list_lookup_insert_ne. lia.
Qed.

Lemma central_moment_agree (x w : R) (a b a' : list R) (q : Z) :
  (1 ≤ q ≤ UINT64_MAX)%Z → agree_upto q a b →
  (q < Z.of_nat (length b))%Z →
  incstats_central_moment x w a q = Ok a' →
  ∃ b', incstats_central_moment x w b q = Ok b' ∧
        length b' = length b ∧ agree_upto q a' b' ∧
        ∀ j : nat, (q < Z.of_nat j)%Z → b' !! j = b !! j.
Proof.
  intros Hq Hag Hlen H. unfold incstats_central_moment in *.
  apply bind_Ok_inv in H as (b0 & Hb0 & H).
  apply load_Ok_inv in Hb0 as [_ Hb0].
  assert (Hb0' : b !! 0%nat = Some b0) by (rewrite <- Hag; [done | lia]).
  rewrite (load_lookup b 0 b0) by (done || lia).
  rewrite bind_Ok.
  apply bind_Ok_inv in H as (cur & Hloop & Hmw). unfold for_down in *.
  destruct (update_orders_agree x w (b0 + w) (Z.to_nat (q - 1)) q a b cur)
    as (cur' & -> & Hl & Hag' & Hout); [lia | lia | done | done | done |].
  rewrite bind_Ok.
  unfold update_mean_weight in Hmw.
  apply bind_Ok_inv in Hmw as (b1 & Hb1 & Hmw).
  apply bind_Ok_inv in Hmw as (t & Ht & Hmw).
  apply bind_Ok_inv in Hmw as (c1 & Hc1 & Hc0).
  apply store_Ok_inv in Hc1 as [Hi1 ->].
  apply store_Ok_inv in Hc0 as [Hi0 ->].
  apply load_Ok_inv in Hb1 as [_ Hb1].
  assert (Hn : b0 + w ≠ 0).
  { destruct (fdiv_cases w (b0 + w)) as [[_ He]|[Hn _]]; [congruence|done]. }
  assert (Hb1' : cur' !! 1%nat = Some b1) by (rewrite <- Hag'; [done | lia]).
  rewrite (update_mean_weight_Ok x w (b0 + w) b1) by done.
  rewrite fdiv_Ok in Ht by done. injection Ht as <-.
  eexists. split; [done|]. rewrite !length_insert. split; [done|]. split.
  - intros j Hj.
    destruct (decide (j = 0%nat)) as [->|Hj0].
    { by rewrite !list_lookup_insert_eq by (rewrite length_insert; lia). }
    rewrite !(list_lookup_insert_ne _ 0%nat) by done.
    destruct (decide (j = 1%nat)) as [->|Hj1].
    { by rewrite !list_lookup_insert_eq by lia. }
    rewrite !list_lookup_insert_ne by done. by apply Hag'.
  - intros j Hj. rewrite !list_lookup_insert_ne by lia. by apply Hout.
Qed.

Lemma run_central_moment_lower_order (p q : Z) (stream : list (R * R)) :
  (1 ≤ q ≤ p)%Z → (p ≤ UINT64_MAX)%Z →
  ∀ a b a' : list R,
    agree_upto q a b → (q < Z.of_nat (length b))%Z →
    run (fun x w buf => incstats_central_moment x w buf p) stream a
    = Ok a' →
    ∃ b', run (fun x w buf => incstats_central_moment x w buf q) stream b
          = Ok b' ∧
          length b' = length b ∧ agree_upto q a' b' ∧
          ∀ j : nat, (q < Z.of_nat j)%Z → b' !! j = b !! j.
Proof.
  intros Hq Hp. induction stream as [|[x w] stream IH];
    intros a b a' Hag Hlen H.
  - injection H as <-. by exists b.
  - cbn [run] in *. apply bind_Ok_inv in H as (a1 & H1 & H).
    destruct (central_moment_lower_order x w a a1 p q)
      as (aq & Haq & _ & Hlow & _); [done..|].
    destruct (central_moment_agree x w a b aq q)
      as (b1 & -> & Hl1 & Hag1 & Hout1); [lia | done..|].
    rewrite bind_Ok.
    destruct (IH a1 b1 a') as (b' & Hb' & Hl & Hag' & Hout);
      [| lia | done |].
    { intros j Hj. rewrite <- Hag1, Hlow by done. done. }
    exists b'. split; [done|]. split; [congruence|]. split; [done|].
    intros j Hj. by rewrite Hout, Hout1.
Qed.

(** X22. The orders do not interfere: whatever the samples and the weights
    (negative ones included) and whatever the order [p], a run of
    [incstats_central_moment] of order [p] that returns contains the run of
    every lower order [1 <= q <= p]: on an accumulator that agrees on the
    slots [0..q], the run of order [q] returns too, with the same slots
    [0..q], and leaves every higher slot as it was. *)
Theorem central_moment_orders_independent (p q : Z)
    (stream : list (R * R)) (a b a' : list R) :
  (1 ≤ q ≤ p)%Z → (p ≤ UINT64_MAX)%Z →
  agree_upto q a b → (q < Z.of_nat (length b))%Z →
  run (fun x w buf => incstats_central_moment x w buf p) stream a = Ok a' →
  ∃ b', run (fun x w buf => incstats_central_moment x w buf q) stream b
        = Ok b' ∧
        length b' = length b ∧ agree_upto q a' b' ∧
        ∀ j : nat, (q < Z.of_nat j)%Z → b' !! j = b !! j.
Proof. intros Hq Hp. by apply run_central_moment_lower_order. Qed.

Lemma central_moment_orders_independent_witness :
  ∃ a' b',
    run (fun x w buf => incstats_central_moment x w buf 5)
      [(1, 1); (3, 1); (5, 2)] (zeros 6) = Ok a' ∧
    run (fun x w buf => incstats_central_moment x w buf 3)
      [(1, 1); (3, 1); (5, 2)] (zeros 4) = Ok b' ∧
    agree_upto 3 a' b'.
Proof.
  destruct (run_central_moment_holds 5 [(1, 1); (3, 1); (5, 2)]
              ltac:(lia) ltac:(repeat constructor; simpl; lra) []
              (zeros 6) ltac:(constructor)
              (holds_moments_zeros 5 6 ltac:(lia) ltac:(lia)))
    as (a' & Ha & _).
  destruct (central_moment_orders_independent 5 3
              [(1, 1); (3, 1); (5, 2)] (zeros 6) (zeros 4) a')
    as (b' & Hb & _ & Hag & _).
  - lia.
  - unfold UINT64_MAX. lia.
  - intros j Hj. unfold zeros. by rewrite !lookup_replicate_2 by lia.
  - simpl. lia.
  - exact Ha.
  - by exists a', b'.
Defined.

(** ** Removing a sample *)

Lemma incstats_kurtosis_undo (x w W m M2 M3 M4 : R) (l : list R) :
  W ≠ 0 → W + w ≠ 0 →
  run incstats_kurtosis [(x, w); (x, - w)] (W :: m :: M2 :: M3 :: M4 :: l)
  = Ok (W :: m :: M2 :: M3 :: M4 :: l).
Proof.
  intros HW HWw. cbn [run].
  rewrite incstats_kurtosis_step, bind_Ok by done.
  rewrite incstats_kurtosis_step, bind_Ok
    by (replace (W + w + - w) with W by lra; done).
  rewrite !incstats_pow_2, !incstats_pow_3, !incstats_pow_4.
  unfold next_mean, incr_d, incr_e.
  assert (HW' : W + w + - w ≠ 0) by (by replace (W + w + - w) with W by lra).
  f_equal. f_equal; [lra|].
  f_equal; [field; by repeat split|]. f_equal; [field; by repeat split|].
  f_equal; [field; by repeat split|]. f_equal. field. by repeat split.
Qed.

(** X23. A sample can be taken out again: on an accumulator of weight
    [W <> 0], the update with a sample [(x, w)] ([W + w <> 0]) followed by
    the update with the same value and the negated weight, [(x, - w)],
    returns the accumulator as it was, slot by slot, for each of the four
    specialised updates. *)
Theorem negated_weight_removes_sample (x w W m M2 M3 M4 : R)
    (l1 l2 l3 l4 : list R) :
  W ≠ 0 → W + w ≠ 0 →
  run incstats_mean [(x, w); (x, - w)] (W :: m :: l1)
  = Ok (W :: m :: l1) ∧
  run incstats_variance [(x, w); (x, - w)] (W :: m :: M2 :: l2)
  = Ok (W :: m :: M2 :: l2) ∧
  run incstats_skewness [(x, w); (x, - w)] (W :: m :: M2 :: M3 :: l3)
  = Ok (W :: m :: M2 :: M3 :: l3) ∧
  run incstats_kurtosis [(x, w); (x, - w)] (W :: m :: M2 :: M3 :: M4 :: l4)
  = Ok (W :: m :: M2 :: M3 :: M4 :: l4).
Proof.
  intros HW HWw.
  pose proof (incstats_kurtosis_undo x w W m M2 M3 M4 l4 HW HWw) as Hk.
  destruct (specialised_runs_share [(x, w); (x, - w)] W m M2 M3 M4
              l1 l2 l3 l4)
    as [(_ & _ & _ & He)|(W' & m' & M2' & M3' & M4' & Hm & Hv & Hs & Hk')];
    [congruence|].
  rewrite Hk in Hk'. injection Hk' as <- <- <- <- <-. done.
Qed.

Lemma negated_weight_removes_sample_witness :
  run incstats_kurtosis [(5, 2); (5, - 2)] [1; 3; 4; 0; 16]
  = Ok [1; 3; 4; 0; 16].
Proof.
  apply (negated_weight_removes_sample 5 2 1 3 4 0 16 [] [] [] []); lra.
Defined.

(** ** The order of the samples *)

Lemma moment_sum_perm (i : nat) (c : R) (s1 s2 : list (R * R)) :
  Permutation s1 s2 → moment_sum i c s1 = moment_sum i c s2.
Proof.
  induction 1 as [|[x w] s1 s2 _ IH|[x w] [x' w'] s|s1 s2 s3 _ IH1 _ IH2].
  - done.
  - by rewrite !moment_sum_cons, IH.
  - rewrite !moment_sum_cons. lra.
  - by rewrite IH1.
Qed.

Lemma sum_w_perm (s1 s2 : list (R * R)) :
  Permutation s1 s2 → sum_w s1 = sum_w s2.
Proof. intros H. rewrite <- !(moment_sum_0 0). by apply moment_sum_perm. Qed.

Lemma weighted_mean_perm (s1 s2 : list (R * R)) :
  Permutation s1 s2 → weighted_mean s1 = weighted_mean s2.
Proof.
  intros H. unfold weighted_mean. rewrite (sum_w_perm s1 s2 H).
  pose proof (moment_sum_1 0 s1) as H1. pose proof (moment_sum_1 0 s2) as H2.
  rewrite (moment_sum_perm 1 0 s1 s2 H) in H1.
  replace (sum_wx s1) with (sum_wx s2) by lra. done.
Qed.

(** X24. The order in which the samples arrive does not matter: two
    streams of positively weighted samples that are permutations of each
    other leave the same accumulator, from zeros, under [incstats_kurtosis]
    and under [incstats_central_moment] of every order [p <= 62]. *)
Theorem sample_order_irrelevant (p : Z) (s1 s2 : list (R * R)) :
  Permutation s1 s2 → Forall (fun s => 0 < snd s) s1 → (0 ≤ p ≤ 62)%Z →
  run incstats_kurtosis s1 (zeros 5) = run incstats_kurtosis s2 (zeros 5) ∧
  run (fun x w b => incstats_central_moment x w b p) s1
    (zeros (Z.to_nat (Z.max 2 (p + 1))))
  = run (fun x w b => incstats_central_moment x w b p) s2
      (zeros (Z.to_nat (Z.max 2 (p + 1)))).
Proof.
  intros Hperm Hall Hp.
  assert (Hall2 : Forall (fun s => 0 < snd s) s2).
  { by rewrite <- Hperm. }
  destruct (decide (s1 = [])) as [->|Hne].
  { apply Permutation_nil in Hperm as ->. done. }
  assert (Hne2 : s2 ≠ []).
  { intros ->. apply Hne. by apply Permutation_nil, Permutation_sym. }
  split.
  - rewrite !run_kurtosis_zeros by done.
    rewrite (sum_w_perm s1 s2), (weighted_mean_perm s1 s2) by done.
    by rewrite !(moment_sum_perm _ _ s1 s2) by done.
  - destruct (run_central_moment_holds (Z.to_nat p) s1 ltac:(lia) Hall []
                (zeros (Z.to_nat (Z.max 2 (p + 1)))))
      as (b1 & Hrun1 & Hlen1 & _ & _ & H0 & m1 & H1 & Hm1 & Hmom1);
      [done | apply holds_moments_zeros; lia |].
    destruct (run_central_moment_holds (Z.to_nat p) s2 ltac:(lia) Hall2 []
                (zeros (Z.to_nat (Z.max 2 (p + 1)))))
      as (b2 & Hrun2 & Hlen2 & _ & _ & H0' & m2 & H1' & Hm2 & Hmom2);
      [done | apply holds_moments_zeros; lia |].
    rewrite Z2Nat.id in Hrun1, Hrun2 by lia. rewrite Hrun1, Hrun2.
    rewrite length_zeros in Hlen1, Hlen2.
    rewrite app_nil_l in *.
    pose proof (sum_w_pos s1 Hne Hall) as Hpos.
    assert (Hm : m1 = m2).
    { rewrite (sum_w_perm s1 s2 Hperm) in Hm1, Hpos.
      pose proof (moment_sum_1 0 s1) as E1.
      pose proof (moment_sum_1 0 s2) as E2.
      rewrite (moment_sum_perm 1 0 s1 s2 Hperm) in E1.
      apply (Rmult_eq_reg_r (sum_w s2)); lra. }
    subst m2. f_equal. apply list_eq. intros j.
    destruct (decide (j = 0%nat)) as [->|Hj0].
    { by rewrite H0, H0', (sum_w_perm s1 s2). }
    destruct (decide (j = 1%nat)) as [->|Hj1].
    { by rewrite H1, H1'. }
    destruct (decide (j ≤ Z.to_nat p)%nat) as [Hj|Hj].
    + rewrite Hmom1, Hmom2 by lia. by rewrite (moment_sum_perm _ _ s1 s2).
    + rewrite !lookup_ge_None_2 by lia. done.
Qed.

Lemma sample_order_irrelevant_witness :
  run incstats_kurtosis [(1, 1); (3, 1); (5, 2)] (zeros 5)
  = run incstats_kurtosis [(5, 2); (1, 1); (3, 1)] (zeros 5).
Proof.
  apply (sample_order_irrelevant 4 [(1, 1); (3, 1); (5, 2)]
           [(5, 2); (1, 1); (3, 1)]).
  - apply Permutation_sym, (Permutation_cons_append [(1, 1); (3, 1)] (5, 2)).
  - repeat constructor; simpl; lra.
  - lia.
Defined.
